(** * PMaP: prerequisite planner (main.py)

    A shallow embedding of the core of [main.py]: the course catalogue, the
    prerequisite graph, Kahn's topological sort with its depth-first cycle
    search, the eligibility tracker, the greedy term suggestion, the
    multi-term planner, and the listings of the menu that compute something
    (prerequisite pairs, blocked courses, the counts of the metrics).

    Conventions of the embedding.
    - Python [str] is [string]; codes are taken to be ASCII, so [str.upper]
      and [str.strip] are their ASCII versions and [sorted] on codes is the
      byte-wise lexicographic order.
    - Python [int] is [Z].
    - A Python [dict] is an association list in insertion order: assigning an
      existing key keeps its position, a new key goes to the end.
    - A Python [set] of codes is a duplicate-free list; the list order stands
      for the iteration order of the set.  No statement proved below mentions
      that order: the results are stated through membership, permutations
      and lengths.
    - A method that mutates [self] takes the model and returns the outcome
      together with the model afterwards; an exception is an outcome.
    - Loops that Python does not bound ([while q], the walk along
      [parent]) take a fuel argument and raise [OutOfFuel] when it runs
      out; the theorems show that the fuel [topo_sort] supplies is enough.
    - The nested function [dfs] of [topo_sort] is recursive, and the
      interpreter raises [RecursionError] when calls nest deeper than its
      recursion limit.  [topo_sort] therefore takes the number [depth] of
      nested calls of [dfs] that are still allowed when it runs; with the
      limit [main.py] runs under this is less than 1000.
    - For [plan_full], whose contract is about aliasing, the model is also
      kept in an explicit store of mutable objects (section "The object
      store"), and the planner on the store is shown to compute what the
      value-level [plan_full] computes. *)

From Stdlib Require Import List String Ascii ZArith Lia Bool Arith.
From Stdlib Require Import Permutation Sorted DecimalString OrderedTypeEx.
Import ListNotations.

Local Open Scope string_scope.
Local Open Scope list_scope.

(** ** Strings *)

Module Str.

Definition upper_ascii (c : ascii) : ascii :=
  let n := nat_of_ascii c in
  if (97 <=? n)%nat && (n <=? 122)%nat then ascii_of_nat (n - 32) else c.

Fixpoint upper (s : string) : string :=
  match s with
  | EmptyString => EmptyString
  | String c s' => String (upper_ascii c) (upper s')
  end.

(** [str.isspace] on the ASCII range: TAB..CR, FS..US and the blank. *)
Definition is_space (c : ascii) : bool :=
  let n := nat_of_ascii c in
  ((9 <=? n)%nat && (n <=? 13)%nat) || ((28 <=? n)%nat && (n <=? 32)%nat).

Fixpoint lstrip (s : string) : string :=
  match s with
  | EmptyString => EmptyString
  | String c s' => if is_space c then lstrip s' else s
  end.

Fixpoint rstrip (s : string) : string :=
  match s with
  | EmptyString => EmptyString
  | String c s' =>
      match rstrip s' with
      | EmptyString => if is_space c then EmptyString else String c EmptyString
      | r => String c r
      end
  end.

Definition strip (s : string) : string := rstrip (lstrip s).

Definition is_digit (c : ascii) : bool :=
  let n := nat_of_ascii c in (48 <=? n)%nat && (n <=? 57)%nat.

Definition digit_val (c : ascii) : Z := Z.of_nat (nat_of_ascii c - 48).

(** The longest prefix of decimal digits, read as a number ([int] of a run). *)
Fixpoint take_digits (s : string) (acc : Z) : Z :=
  match s with
  | EmptyString => acc
  | String c s' =>
      if is_digit c then take_digits s' (10 * acc + digit_val c)%Z else acc
  end.

(** [re.findall(r'\d+', s)]: only its first element is used by the program;
    [None] when the list is empty. *)
Fixpoint first_digit_run (s : string) : option Z :=
  match s with
  | EmptyString => None
  | String c s' => if is_digit c then Some (take_digits s 0%Z) else first_digit_run s'
  end.

Definition of_Z (z : Z) : string := NilZero.string_of_int (Z.to_int z).

End Str.

(** ** Exceptions *)

Inductive exn : Type :=
| KeyError (k : string)
| ValueError (msg : string)
| TypeError (msg : string)
| RecursionError
| OutOfFuel.

Inductive result (A : Type) : Type :=
| Ok (a : A)
| Raise (e : exn).
Arguments Ok {A} a.
Arguments Raise {A} e.

Definition bind {A B} (r : result A) (k : A -> result B) : result B :=
  match r with
  | Ok a => k a
  | Raise e => Raise e
  end.

Notation "x <- c ;; k" := (bind c (fun x => k))
  (at level 61, c at next level, right associativity).
Notation "' p <- c ;; k" := (bind c (fun p => k))
  (at level 61, p pattern, c at next level, right associativity).

(** ** Dictionaries and sets *)

Definition dict (V : Type) : Type := list (string * V).

Section Dict.
Context {V : Type}.

Fixpoint dict_get (k : string) (d : dict V) : option V :=
  match d with
  | [] => None
  | (k', v) :: d' => if String.eqb k k' then Some v else dict_get k d'
  end.

Definition dict_mem (k : string) (d : dict V) : bool :=
  match dict_get k d with Some _ => true | None => false end.

(** [d[k] = v] *)
Fixpoint dict_set (k : string) (v : V) (d : dict V) : dict V :=
  match d with
  | [] => [(k, v)]
  | (k', v') :: d' =>
      if String.eqb k k' then (k', v) :: d' else (k', v') :: dict_set k v d'
  end.

(** [d.get(k, dflt)] *)
Definition dict_get_default (k : string) (dflt : V) (d : dict V) : V :=
  match dict_get k d with Some v => v | None => dflt end.

(** [d.setdefault(k, dflt)], as the dictionary afterwards. *)
Definition dict_setdefault (k : string) (dflt : V) (d : dict V) : dict V :=
  if dict_mem k d then d else d ++ [(k, dflt)].

(** [d[k]], raising [KeyError] on a missing key. *)
Definition dict_item (k : string) (d : dict V) : result V :=
  match dict_get k d with Some v => Ok v | None => Raise (KeyError k) end.

Definition dict_keys (d : dict V) : list string := map fst d.
Definition dict_values (d : dict V) : list V := map snd d.
End Dict.

Abbreviation pyset := (list string) (only parsing).

Definition set_mem (x : string) (s : pyset) : bool := existsb (String.eqb x) s.

Definition set_add (x : string) (s : pyset) : pyset :=
  if set_mem x s then s else s ++ [x].

Definition set_remove (x : string) (s : pyset) : pyset :=
  filter (fun y => negb (String.eqb x y)) s.

(** [s - t] *)
Definition set_diff (s t : pyset) : pyset :=
  filter (fun y => negb (set_mem y t)) s.

(** [set(l)] *)
Definition set_of_list (l : list string) : pyset :=
  fold_left (fun s x => set_add x s) l [].

(** ** [sorted]: a stable sort by a boolean order *)

Section Sorting.
Context {A : Type} (le : A -> A -> bool).

Fixpoint insert_sorted (x : A) (l : list A) : list A :=
  match l with
  | [] => [x]
  | y :: t => if le x y then x :: l else y :: insert_sorted x t
  end.

Definition sorted_by (l : list A) : list A := fold_right insert_sorted [] l.
End Sorting.

Definition sorted (l : list string) : list string := sorted_by String.leb l.

(** ** The data model *)

Record Course : Type := mkCourse {
  code : string;
  name : string;
  credits : Z
}.

Record PMaPModel : Type := mkModel {
  courses : dict Course;
  prereqs : dict pyset;
  passed : pyset
}.

(** [PMaPModel()] *)
Definition new_model : PMaPModel := mkModel [] [] [].

Definition set_courses (m : PMaPModel) (c : dict Course) : PMaPModel :=
  mkModel c (prereqs m) (passed m).
Definition set_prereqs (m : PMaPModel) (p : dict pyset) : PMaPModel :=
  mkModel (courses m) p (passed m).
Definition set_passed (m : PMaPModel) (s : pyset) : PMaPModel :=
  mkModel (courses m) (prereqs m) s.

(** [prereqs[c].add(p)] on the [defaultdict(set)]: a missing key is first
    bound to an empty set. *)
Definition prereqs_add (c p : string) (d : dict pyset) : dict pyset :=
  let d1 := dict_setdefault c [] d in
  dict_set c (set_add p (dict_get_default c [] d1)) d1.

(** The serialised shape exchanged by [to_dict] and [from_dict]. *)
Record CourseEntry : Type := mkEntry {
  e_code : string;
  e_name : string;
  e_credits : Z
}.

Record ModelData : Type := mkData {
  d_courses : list CourseEntry;
  d_prerequisites : list (string * string);
  d_passed : list string
}.

Definition to_dict (self : PMaPModel) : ModelData :=
  mkData
    (map (fun c => mkEntry (code c) (name c) (credits c)) (dict_values (courses self)))
    (flat_map (fun cp => map (fun p => (p, fst cp)) (snd cp)) (prereqs self))
    (sorted (passed self)).

Definition from_dict_course (model : PMaPModel) (c : CourseEntry) : PMaPModel :=
  set_courses model
    (dict_set (Str.upper (e_code c))
       (mkCourse (Str.upper (e_code c)) (e_name c) (e_credits c)) (courses model)).

Definition ensure_course (k : string) (model : PMaPModel) : PMaPModel :=
  if negb (dict_mem k (courses model))
  then set_courses model (dict_set k (mkCourse k k 0%Z) (courses model))
  else model.

Definition from_dict_edge (model : PMaPModel) (pc : string * string) : PMaPModel :=
  let p := Str.upper (fst pc) in
  let c := Str.upper (snd pc) in
  let model := set_prereqs model (prereqs_add c p (prereqs model)) in
  let model := ensure_course p model in
  ensure_course c model.

Definition from_dict (data : ModelData) : PMaPModel :=
  let model := new_model in
  let model := fold_left from_dict_course (d_courses data) model in
  let model := fold_left from_dict_edge (d_prerequisites data) model in
  set_passed model (set_of_list (map Str.upper (d_passed data))).

Definition add_course (code name : string) (credits : Z) (self : PMaPModel)
  : PMaPModel :=
  let code := Str.upper (Str.strip code) in
  let self :=
    set_courses self (dict_set code (mkCourse code (Str.strip name) credits) (courses self)) in
  set_prereqs self (dict_setdefault code [] (prereqs self)).

Definition add_prereq (prereq course : string) (self : PMaPModel)
  : result unit * PMaPModel :=
  let prereq := Str.upper (Str.strip prereq) in
  let course := Str.upper (Str.strip course) in
  if String.eqb course prereq
  then (Raise (ValueError "Una materia no puede ser prerrequisito de sí misma."), self)
  else
    let self := ensure_course prereq self in
    let self := ensure_course course self in
    (Ok tt, set_prereqs self (prereqs_add course prereq (prereqs self))).

Definition mark_passed (code : string) (self : PMaPModel)
  : result unit * PMaPModel :=
  let code := Str.upper (Str.strip code) in
  if negb (dict_mem code (courses self))
  then (Raise (KeyError code), self)
  else (Ok tt, set_passed self (set_add code (passed self))).

(** ** The derived graph *)

Abbreviation graph := (dict (list string) * dict Z)%type (only parsing).

(** One pass of the inner loop of [build_graph], for the edge [p -> course]. *)
Definition build_edge (course : string) (g : graph) (p : string) : graph :=
  let (adjacency, indegree) := g in
  let adjacency := dict_setdefault p [] adjacency in
  let adjacency := dict_set p (set_add course (dict_get_default p [] adjacency)) adjacency in
  let indegree := dict_set course (dict_get_default course 0%Z indegree + 1)%Z indegree in
  let indegree := dict_setdefault p 0%Z indegree in
  (adjacency, indegree).

Definition build_course (g : graph) (c : string) : graph :=
  (dict_setdefault c [] (fst g), dict_setdefault c 0%Z (snd g)).

Definition build_graph (self : PMaPModel) : graph :=
  let adjacency := map (fun c => (c, @nil string)) (dict_keys (courses self)) in
  let indegree := map (fun c => (c, 0%Z)) (dict_keys (courses self)) in
  let g :=
    fold_left (fun g cp => fold_left (build_edge (fst cp)) (snd cp) g)
      (prereqs self) (adjacency, indegree) in
  fold_left build_course (dict_keys (courses self)) g.

(** ** Topological sort *)

(** The inner loop of Kahn's algorithm: the dependents [vs] of the removed
    code lose one from their indegree, the ones that reach zero are queued. *)
Fixpoint relax (vs : list string) (indegree_copy : dict Z) (q : list string)
  : result (dict Z * list string) :=
  match vs with
  | [] => Ok (indegree_copy, q)
  | v :: vs' =>
      d <- dict_item v indegree_copy ;;
      let indegree_copy := dict_set v (d - 1)%Z indegree_copy in
      d' <- dict_item v indegree_copy ;;
      if (d' =? 0)%Z then relax vs' indegree_copy (q ++ [v])
      else relax vs' indegree_copy q
  end.

(** [while q: ...]; every turn of the loop costs one unit of [fuel]. *)
Fixpoint kahn (fuel : nat) (adjacency : dict pyset) (q order : list string)
  (indegree_copy : dict Z) : result (list string * dict Z) :=
  match q with
  | [] => Ok (order, indegree_copy)
  | u :: q' =>
      match fuel with
      | O => Raise OutOfFuel
      | S fuel' =>
          ' (indegree_copy, q'') <- relax (dict_get_default u [] adjacency) indegree_copy q' ;;
          kahn fuel' adjacency q'' (order ++ [u]) indegree_copy
      end
  end.

(** The variables the nested [dfs] closes over. *)
Record dfs_state : Type := mkDfs {
  visited : pyset;
  stack : pyset;
  parent : dict string;
  cycle : option (list string)
}.

(** [while cur != v: path.append(cur); cur = parent[cur]] *)
Fixpoint walk_parents (fuel : nat) (parent : dict string) (v cur : string)
  (path : list string) : result (list string) :=
  if String.eqb cur v then Ok path
  else
    match fuel with
    | O => Raise OutOfFuel
    | S fuel' =>
        p <- dict_item cur parent ;;
        walk_parents fuel' parent v p (path ++ [cur])
    end.

Section DFS.
Variable adjacency : dict pyset.
Variable indegree_copy : dict Z.

(** The [for v in adjacency.get(u, [])] loop in the body of [dfs(u)];
    [rec] is the recursive call [dfs]. *)
Fixpoint dfs_loop (rec : string -> dfs_state -> result (bool * dfs_state))
  (u : string) (vs : list string) (st : dfs_state)
  : result (bool * dfs_state) :=
  match vs with
  | [] =>
      Ok (false, mkDfs (visited st) (set_remove u (stack st))
                   (parent st) (cycle st))
  | v :: vs' =>
      d <- dict_item v indegree_copy ;;
      if (0 <? d)%Z then
        if negb (set_mem v (visited st)) then
          let st := mkDfs (visited st) (stack st)
                      (dict_set v u (parent st)) (cycle st) in
          ' (found, st) <- rec v st ;;
          if (found : bool) then Ok (true, st) else dfs_loop rec u vs' st
        else if set_mem v (stack st) then
          path <- walk_parents (List.length (parent st)) (parent st) v u [v] ;;
          let path := rev (path ++ [v]) in
          Ok (true, mkDfs (visited st) (stack st) (parent st) (Some path))
        else dfs_loop rec u vs' st
      else dfs_loop rec u vs' st
  end.

(** [dfs(u)], a recursive closure: every nested call takes a frame of the
    interpreter.  [depth] is the number of nested calls of [dfs] the
    interpreter still allows; a call beyond it raises [RecursionError]. *)
Fixpoint dfs (depth : nat) (u : string) (st : dfs_state)
  : result (bool * dfs_state) :=
  match depth with
  | O => Raise RecursionError
  | S depth' =>
      let st := mkDfs (set_add u (visited st)) (set_add u (stack st))
                  (parent st) (cycle st) in
      dfs_loop (dfs depth') u (dict_get_default u [] adjacency) st
  end.

Variable depth : nat.

(** [for node, deg in indegree_copy.items(): ...] *)
Fixpoint dfs_roots (items : dict Z) (st : dfs_state) : result dfs_state :=
  match items with
  | [] => Ok st
  | (node, deg) :: items' =>
      if (0 <? deg)%Z && negb (set_mem node (visited st)) then
        ' (found, st) <- dfs depth node st ;;
        if (found : bool) then Ok st else dfs_roots items' st
      else dfs_roots items' st
  end.
End DFS.

(** The recursion limit of the interpreter, [sys.getrecursionlimit()]:
    1000 unless the host program changes it, which [main.py] never does. *)
Definition recursion_limit : nat := 1000.

(** [topo_sort].  [depth] is the number of nested calls of [dfs] that the
    interpreter allows when [topo_sort] runs: the recursion limit less the
    frames already in use, so never more than [recursion_limit]. *)
Definition topo_sort (depth : nat) (self : PMaPModel)
  : result (list string * bool * option (list string)) :=
  let (adjacency, indegree) := build_graph self in
  let q := map fst (filter (fun cd => (snd cd =? 0)%Z) indegree) in
  ' (order, indegree_copy) <- kahn (List.length indegree) adjacency q [] indegree ;;
  let has_cycle := negb (List.length order =? List.length indegree_copy)%nat in
  if has_cycle then
    st <- dfs_roots adjacency indegree_copy depth indegree_copy (mkDfs [] [] [] None) ;;
    Ok (order, has_cycle, cycle st)
  else Ok (order, has_cycle, None).

(** ** Eligibility *)

Fixpoint count_missing (course : string) (pres : list string) (passed : pyset)
  (indeg : dict Z) : result (dict Z) :=
  match pres with
  | [] => Ok indeg
  | p :: pres' =>
      if negb (set_mem p passed) then
        d <- dict_item course indeg ;;
        count_missing course pres' passed (dict_set course (d + 1)%Z indeg)
      else count_missing course pres' passed indeg
  end.

Fixpoint count_all (items : dict pyset) (passed : pyset) (indeg : dict Z)
  : result (dict Z) :=
  match items with
  | [] => Ok indeg
  | (course, pres) :: items' =>
      indeg <- count_missing course pres passed indeg ;;
      count_all items' passed indeg
  end.

Definition current_indegree_effective (self : PMaPModel) : result (dict Z) :=
  let indeg := map (fun c => (c, 0%Z)) (dict_keys (courses self)) in
  count_all (prereqs self) (passed self) indeg.

Definition candidates (self : PMaPModel) : result (list string) :=
  indeg_eff <- current_indegree_effective self ;;
  Ok (sorted (map fst
        (filter (fun cd => (snd cd =? 0)%Z && negb (set_mem (fst cd) (passed self)))
           indeg_eff))).

Definition unlock_count (self : PMaPModel) (course_code : string) : Z :=
  let (adjacency, _) := build_graph self in
  fold_left
    (fun count v =>
       let other_pres := set_diff (dict_get_default v [] (prereqs self)) [course_code] in
       if forallb (fun p => set_mem p (passed self)) other_pres
       then (count + 1)%Z else count)
    (dict_get_default course_code [] adjacency) 0%Z.

(** ** Term suggestion *)

(** The tuples returned by [priority_key]. *)
Inductive pkey : Type :=
| Key3 (a b : Z) (c : string)
| Key2 (a : Z) (c : string).

(** Tuple comparison [k1 <= k2]; the program only ever compares keys of one
    shape. *)
Definition pkey_leb (k1 k2 : pkey) : bool :=
  match k1, k2 with
  | Key3 a1 b1 c1, Key3 a2 b2 c2 =>
      if (a1 <? a2)%Z then true
      else if (a2 <? a1)%Z then false
      else if (b1 <? b2)%Z then true
      else if (b2 <? b1)%Z then false
      else String.leb c1 c2
  | Key2 a1 c1, Key2 a2 c2 =>
      if (a1 <? a2)%Z then true
      else if (a2 <? a1)%Z then false
      else String.leb c1 c2
  | Key3 _ _ _, Key2 _ _ => false
  | Key2 _ _, Key3 _ _ _ => true
  end.

Definition priority_key (self : PMaPModel) (criterion code : string) : result pkey :=
  if String.eqb criterion "desbloqueo" then
    c <- dict_item code (courses self) ;;
    Ok (Key3 (- unlock_count self code) (credits c) code)
  else if String.eqb criterion "creditos" then
    c <- dict_item code (courses self) ;;
    Ok (Key2 (credits c) code)
  else if String.eqb criterion "nivel" then
    let level := match Str.first_digit_run code with Some n => n | None => 9999%Z end in
    Ok (Key2 level code)
  else Ok (Key2 0 code).

(** [[(key(x), x) for x in l]], failing with the first key that fails. *)
Fixpoint keyed {A K} (key : A -> result K) (l : list A) : result (list (K * A)) :=
  match l with
  | [] => Ok []
  | x :: l' =>
      k <- key x ;;
      r <- keyed key l' ;;
      Ok ((k, x) :: r)
  end.

(** [sorted(l, key=key)] *)
Definition sorted_key {A K} (le : K -> K -> bool) (key : A -> result K) (l : list A)
  : result (list A) :=
  kl <- keyed key l ;;
  Ok (map snd (sorted_by (fun x y => le (fst x) (fst y)) kl)).

Definition em_dash : string :=
  String (ascii_of_nat 226) (String (ascii_of_nat 128) (String (ascii_of_nat 148) "")).

Definition reason (self : PMaPModel) (code : string) (cr : Z) : string :=
  code ++ " (" ++ Str.of_Z cr ++ " cr) " ++ em_dash ++ " desbloquea "
    ++ Str.of_Z (unlock_count self code) ++ " materia(s)".

Abbreviation selection := (list string * Z * list string)%type (only parsing).

(** The greedy scan of [suggest_next_semester]. *)
Fixpoint greedy (self : PMaPModel) (credit_cap : Z) (cand_sorted : list string)
  (acc : selection) : result selection :=
  match cand_sorted with
  | [] => Ok acc
  | code :: rest =>
      let '(chosen, total, reasons) := acc in
      c <- dict_item code (courses self) ;;
      let cr := credits c in
      if (total + cr <=? credit_cap)%Z then
        greedy self credit_cap rest
          (chosen ++ [code], (total + cr)%Z, reasons ++ [reason self code cr])
      else greedy self credit_cap rest acc
  end.

Definition suggest_next_semester (self : PMaPModel) (credit_cap : Z)
  (criterion : string) : result selection :=
  cand <- candidates self ;;
  cand_sorted <- sorted_key pkey_leb (priority_key self criterion) cand ;;
  greedy self credit_cap cand_sorted ([], 0%Z, []).

(** ** The multi-term planner *)

(** [for c in chosen: temp.mark_passed(c)] *)
Fixpoint mark_all (chosen : list string) (temp : PMaPModel)
  : result unit * PMaPModel :=
  match chosen with
  | [] => (Ok tt, temp)
  | c :: rest =>
      match mark_passed c temp with
      | (Ok _, temp') => mark_all rest temp'
      | (Raise e, temp') => (Raise e, temp')
      end
  end.

(** [for s in range(1, max_semesters+1): ...] on the working copy [temp]. *)
Fixpoint plan_loop (max_semesters : nat) (temp : PMaPModel) (credit_cap : Z)
  (criterion : string) (semesters : list selection) : result (list selection) :=
  match max_semesters with
  | O => Ok semesters
  | S n =>
      sel <- suggest_next_semester temp credit_cap criterion ;;
      match fst (fst sel) with
      | [] => Ok semesters
      | _ :: _ =>
          match mark_all (fst (fst sel)) temp with
          | (Ok _, temp') => plan_loop n temp' credit_cap criterion (semesters ++ [sel])
          | (Raise e, _) => Raise e
          end
      end
  end.

Definition plan_full (model : PMaPModel) (credit_cap : Z) (criterion : string)
  (max_semesters : nat) : result (list selection) :=
  let temp := from_dict (to_dict model) in
  plan_loop max_semesters temp credit_cap criterion [].

(** * Specification vocabulary *)

(** The prerequisite codes recorded for [c]. *)
Definition prereqs_of (m : PMaPModel) (c : string) : pyset :=
  dict_get_default c [] (prereqs m).

(** [is_prereq m p c]: the edge [p -> c], "[p] must be completed before [c]". *)
Definition is_prereq (m : PMaPModel) (p c : string) : Prop :=
  In p (prereqs_of m c).

(** The edge list, as [to_dict] enumerates it. *)
Definition edge_list (m : PMaPModel) : list (string * string) :=
  flat_map (fun cp => map (fun p => (p, fst cp)) (snd cp)) (prereqs m).

Definition catalog (m : PMaPModel) : list string := dict_keys (courses m).

(** Non-empty directed paths of a relation. *)
Inductive path (E : string -> string -> Prop) : string -> string -> Prop :=
| path_edge u v : E u v -> path E u v
| path_step u w v : E u w -> path E w v -> path E u v.

Definition has_directed_cycle (m : PMaPModel) : Prop :=
  exists c, path (is_prereq m) c c.

Definition acyclic (m : PMaPModel) : Prop :=
  forall c, ~ path (is_prereq m) c c.

(** Every two neighbours of the list are related. *)
Inductive chain (E : string -> string -> Prop) : list string -> Prop :=
| chain_nil : chain E []
| chain_one x : chain E [x]
| chain_cons x y l : E x y -> chain E (y :: l) -> chain E (x :: y :: l).

(** A closed walk along prerequisite edges: first and last code equal. *)
Definition closed_walk (m : PMaPModel) (c : list string) : Prop :=
  (exists v mid, c = v :: mid ++ [v]) /\ chain (is_prereq m) c.

(** [before u v l]: some occurrence of [v] in [l] has [u] in front of it. *)
Definition before (u v : string) (l : list string) : Prop :=
  exists l1 l2, l = l1 ++ v :: l2 /\ In u l1.

(** The representation invariant of the Python containers: keys of a
    dictionary and elements of a set are pairwise distinct. *)
Record well_formed (m : PMaPModel) : Prop := mkWf {
  wf_courses : NoDup (dict_keys (courses m));
  wf_prereqs : NoDup (dict_keys (prereqs m));
  wf_sets : forall c s, In (c, s) (prereqs m) -> NoDup s;
  wf_passed : NoDup (passed m)
}.

(** Every code of the prerequisite mapping is a key of the catalogue. *)
Definition prereqs_closed (m : PMaPModel) : Prop :=
  forall c s, In (c, s) (prereqs m) ->
    In c (catalog m) /\ forall p, In p s -> In p (catalog m).

(** Every completed code is a key of the catalogue. *)
Definition passed_closed (m : PMaPModel) : Prop :=
  forall c, In c (passed m) -> In c (catalog m).

(** Every course is stored under its own code. *)
Definition keyed_by_code (m : PMaPModel) : Prop :=
  forall k c, In (k, c) (courses m) -> code c = k.

(** Codes are in canonical (upper) case. *)
Definition canonical (m : PMaPModel) : Prop :=
  (forall k, In k (catalog m) -> Str.upper k = k) /\
  (forall k, In k (passed m) -> Str.upper k = k).

(** The models the public operations can build. *)
Inductive reachable : PMaPModel -> Prop :=
| reach_new : reachable new_model
| reach_from_dict data : reachable (from_dict data)
| reach_add_course m code name credits :
    reachable m -> reachable (add_course code name credits m)
| reach_add_prereq m prereq course :
    reachable m -> reachable (snd (add_prereq prereq course m))
| reach_mark_passed m code :
    reachable m -> reachable (snd (mark_passed code m)).

(** What every model built by the public operations satisfies. *)
Record model_ok (m : PMaPModel) : Prop := mkOk {
  ok_wf : well_formed m;
  ok_closed : prereqs_closed m;
  ok_keyed : keyed_by_code m;
  ok_canon : canonical m
}.

(** The part of [model_ok] that does not mention the completed set. *)
Definition graph_ok (m : PMaPModel) : Prop :=
  NoDup (catalog m) /\ NoDup (dict_keys (prereqs m)) /\
  (forall c s, In (c, s) (prereqs m) -> NoDup s) /\
  prereqs_closed m /\ keyed_by_code m /\
  (forall k, In k (catalog m) -> Str.upper k = k).

(** The prerequisites in [pres] that are not completed. *)
Definition missing (passed : list string) (pres : list string) : list string :=
  filter (fun p => negb (set_mem p passed)) pres.

(** [EXAMPLE_DATA] *)
Definition EXAMPLE_DATA : ModelData :=
  mkData
    [ mkEntry "MAT101" "Cálculo I" 4;
      mkEntry "MAT102" "Cálculo II" 4;
      mkEntry "FIS101" "Física I" 3;
      mkEntry "EDA1" "Estructuras de Datos I" 3;
      mkEntry "EDA2" "Estructuras de Datos II" 4 ]
    [ ("MAT101", "MAT102"); ("MAT101", "FIS101");
      ("MAT102", "EDA1"); ("EDA1", "EDA2") ]
    [ "MAT101" ].

(** The model of [tests/test_pmap.py]. *)
Definition test_model : PMaPModel :=
  from_dict
    (mkData
       [ mkEntry "A" "A" 1; mkEntry "B" "B" 1; mkEntry "C" "C" 1; mkEntry "D" "D" 1 ]
       [ ("A", "B"); ("B", "C") ]
       [ "A" ]).

(** ** Graphs as edge lists *)

(** The direct dependents of [u] and the prerequisites of [v] in an edge
    list of pairs (prerequisite, course). *)
Definition succs (es : list (string * string)) (u : string) : list string :=
  map snd (filter (fun e => String.eqb (fst e) u) es).

Definition preds (es : list (string * string)) (v : string) : list string :=
  map fst (filter (fun e => String.eqb (snd e) v) es).

(** [adj] and [ind] are the adjacency and the indegree of the edge list [es]
    over the codes [base]. *)
Record graph_spec (base : list string) (es : list (string * string))
  (adj : dict (list string)) (ind : dict Z) : Prop := mkGraphSpec {
  gs_adj : forall u, dict_get_default u [] adj = succs es u;
  gs_ind : forall v, dict_get_default v 0%Z ind = Z.of_nat (List.length (preds es v));
  gs_nodup : NoDup (dict_keys ind);
  gs_base : forall c, In c base -> In c (dict_keys ind);
  gs_ends : forall u v, In (u, v) es -> In u (dict_keys ind) /\ In v (dict_keys ind);
  gs_only : forall c, In c (dict_keys ind) ->
    In c base \/ exists e, In e es /\ (fst e = c \/ snd e = c)
}.

Definition credits_of (m : PMaPModel) (code : string) : Z :=
  match dict_get code (courses m) with
  | Some c => credits c
  | None => 0%Z
  end.

Definition credit_sum (m : PMaPModel) (chosen : list string) : Z :=
  fold_right Z.add 0%Z (map (credits_of m) chosen).

(** ** Invariant of Kahn's loop *)

(** The number of prerequisites of [v] that are not yet in [order]. *)
Definition pending (es : list (string * string)) (order : list string) (v : string) : Z :=
  Z.of_nat (List.length (filter (fun u => negb (set_mem u order)) (preds es v))).

Record kahn_inv (es : list (string * string)) (nodes q order : list string)
  (indeg : dict Z) : Prop := mkKahnInv {
  ki_nodup : NoDup (order ++ q);
  ki_nodes : forall x, In x (order ++ q) -> In x nodes;
  ki_keys : dict_keys indeg = nodes;
  ki_deg : forall v, In v nodes -> dict_get v indeg = Some (pending es order v);
  ki_zero : forall v, In v nodes -> (In v (order ++ q) <-> pending es order v = 0%Z);
  ki_topo : forall l1 v l2, order = l1 ++ v :: l2 -> forall u, In (u, v) es -> In u l1
}.

(** ** Invariant of the depth-first search *)

(** [parent_chain es parent pth]: every code of [pth] but the last has the
    next one as its recorded parent, along an edge of [es]. *)
Inductive parent_chain (es : list (string * string)) (parent : dict string)
  : list string -> Prop :=
| pc_nil : parent_chain es parent []
| pc_one x : parent_chain es parent [x]
| pc_cons x y l :
    dict_get x parent = Some y -> In (y, x) es ->
    parent_chain es parent (y :: l) -> parent_chain es parent (x :: y :: l).

(** [pth] is the active path, current code first; [fin] lists the finished
    codes in the order they finished; [R] marks the residual codes. *)
Record dfs_inv (es : list (string * string)) (nodes : list string)
  (R : string -> Prop) (st : dfs_state) (pth fin : list string) : Prop := mkDfsInv {
  di_stack : forall x, In x (stack st) <-> In x pth;
  di_visited : forall x, In x (visited st) <-> In x pth \/ In x fin;
  di_nodup : NoDup (pth ++ fin);
  di_nodes : forall x, In x (pth ++ fin) -> In x nodes;
  di_chain : parent_chain es (parent st) pth;
  di_fin : forall l1 x l2, fin = l1 ++ x :: l2 ->
    forall v, In (x, v) es -> R v -> In v l1
}.

(** What [topo_sort] reports as a cycle over the edge list [es]. *)
Definition cycle_of (es : list (string * string)) (c : list string) : Prop :=
  (exists v mid, c = v :: mid ++ [v]) /\ chain (fun a b => In (a, b) es) c.

(** The outcome of [dfs(u)] started under [dfs_inv] with active path [pth]
    and finished codes [fin]: either a cycle has been recorded, or [u] and
    possibly more codes have finished and the active path is as before. *)
Definition dfs_post (es : list (string * string)) (nodes : list string)
  (R : string -> Prop) (pth fin : list string) (u : string)
  (r : result (bool * dfs_state)) : Prop :=
  exists b st', r = Ok (b, st') /\
    if (b : bool)
    then exists c, cycle st' = Some c /\ cycle_of es c
    else exists ext, dfs_inv es nodes R st' pth (fin ++ ext) /\ In u (fin ++ ext).

(** * The object store

    [plan_full] works on a copy of the caller's model and mutates the copy.
    To say what that does to the caller's objects, the model is also kept in
    a store of mutable objects: a [PMaPModel] instance holds references to
    its catalogue dictionary, to its [defaultdict] of prerequisites and to
    its completed set, and the [defaultdict] holds a reference to one set
    object for every key.  [Course] instances are never assigned to after
    their construction and are kept by value. *)

Definition loc : Type := nat.

Inductive obj : Type :=
| OModel (courses_ref prereqs_ref passed_ref : loc)
| OCourses (d : dict Course)
| OPrereqs (d : dict loc)
| OSet (s : list string).

Definition heap : Type := list obj.

(** Store-passing computations that may raise. *)
Definition hm (A : Type) : Type := heap -> result A * heap.

Definition hret {A} (a : A) : hm A := fun h => (Ok a, h).

Definition hraise {A} (e : exn) : hm A := fun h => (Raise e, h).

Definition hbind {A B} (m : hm A) (k : A -> hm B) : hm B :=
  fun h =>
    match m h with
    | (Ok a, h') => k a h'
    | (Raise e, h') => (Raise e, h')
    end.

Notation "x <~ c ;; k" := (hbind c (fun x => k))
  (at level 61, c at next level, right associativity).
Notation "' p <~ c ;; k" := (hbind c (fun p => k))
  (at level 61, p pattern, c at next level, right associativity).

(** A new object. *)
Definition h_alloc (o : obj) : hm loc := fun h => (Ok (List.length h), h ++ [o]).

Fixpoint heap_set (l : loc) (o : obj) (h : heap) : heap :=
  match h, l with
  | [], _ => []
  | _ :: h', O => o :: h'
  | x :: h', S l' => x :: heap_set l' o h'
  end.

Definition h_model (l : loc) : hm (loc * loc * loc) := fun h =>
  match nth_error h l with
  | Some (OModel c p s) => (Ok (c, p, s), h)
  | _ => (Raise (TypeError "PMaPModel"), h)
  end.

Definition h_courses (l : loc) : hm (dict Course) := fun h =>
  match nth_error h l with
  | Some (OCourses d) => (Ok d, h)
  | _ => (Raise (TypeError "dict"), h)
  end.

Definition h_prereqs (l : loc) : hm (dict loc) := fun h =>
  match nth_error h l with
  | Some (OPrereqs d) => (Ok d, h)
  | _ => (Raise (TypeError "defaultdict"), h)
  end.

Definition h_set (l : loc) : hm (list string) := fun h =>
  match nth_error h l with
  | Some (OSet s) => (Ok s, h)
  | _ => (Raise (TypeError "set"), h)
  end.

(** In-place updates: the object keeps its identity and its class. *)
Definition h_put_courses (l : loc) (d : dict Course) : hm unit :=
  _ <~ h_courses l ;; fun h => (Ok tt, heap_set l (OCourses d) h).

Definition h_put_prereqs (l : loc) (d : dict loc) : hm unit :=
  _ <~ h_prereqs l ;; fun h => (Ok tt, heap_set l (OPrereqs d) h).

Definition h_put_set (l : loc) (s : list string) : hm unit :=
  _ <~ h_set l ;; fun h => (Ok tt, heap_set l (OSet s) h).

(** [self.passed = ...]: the attribute is bound to another object. *)
Definition h_bind_passed (l : loc) (s : loc) : hm unit :=
  ' (c, p, _) <~ h_model l ;; fun h => (Ok tt, heap_set l (OModel c p s) h).

(** The sets the [defaultdict] refers to, read out key by key. *)
Fixpoint h_read_sets (d : dict loc) : hm (dict (list string)) :=
  match d with
  | [] => hret []
  | (k, l) :: d' =>
      s <~ h_set l ;;
      r <~ h_read_sets d' ;;
      hret ((k, s) :: r)
  end.

(** The value of the model object at [l]. *)
Definition h_snapshot (l : loc) : hm PMaPModel :=
  ' (c, p, s) <~ h_model l ;;
  cs <~ h_courses c ;;
  d <~ h_prereqs p ;;
  ps <~ h_read_sets d ;;
  pd <~ h_set s ;;
  hret (mkModel cs ps pd).

(** [PMaPModel()] *)
Definition h_new_model : hm loc :=
  c <~ h_alloc (OCourses []) ;;
  p <~ h_alloc (OPrereqs []) ;;
  s <~ h_alloc (OSet []) ;;
  h_alloc (OModel c p s).

(** [model.courses[k] = v] *)
Definition h_set_course (model : loc) (k : string) (v : Course) : hm unit :=
  ' (c, _, _) <~ h_model model ;;
  d <~ h_courses c ;;
  h_put_courses c (dict_set k v d).

(** [if k not in model.courses: model.courses[k] = Course(k, k, 0)] *)
Definition h_ensure_course (model : loc) (k : string) : hm unit :=
  ' (c, _, _) <~ h_model model ;;
  d <~ h_courses c ;;
  if negb (dict_mem k d) then h_put_courses c (dict_set k (mkCourse k k 0%Z) d)
  else hret tt.

(** [model.prereqs[c].add(p)] *)
Definition h_prereqs_add (model : loc) (c p : string) : hm unit :=
  ' (_, pr, _) <~ h_model model ;;
  d <~ h_prereqs pr ;;
  sl <~ match dict_get c d with
        | Some sl => hret sl
        | None =>
            sl <~ h_alloc (OSet []) ;;
            _ <~ h_put_prereqs pr (d ++ [(c, sl)]) ;;
            hret sl
        end ;;
  s <~ h_set sl ;;
  h_put_set sl (set_add p s).

Fixpoint h_for {A} (body : A -> hm unit) (l : list A) : hm unit :=
  match l with
  | [] => hret tt
  | x :: l' => _ <~ body x ;; h_for body l'
  end.

(** The body of [from_dict] once [model = PMaPModel()] exists. *)
Definition h_from_dict_fill (model : loc) (data : ModelData) : hm loc :=
  _ <~ h_for (fun c =>
               h_set_course model (Str.upper (e_code c))
                 (mkCourse (Str.upper (e_code c)) (e_name c) (e_credits c)))
         (d_courses data) ;;
  _ <~ h_for (fun pc =>
               let p := Str.upper (fst pc) in
               let c := Str.upper (snd pc) in
               _ <~ h_prereqs_add model c p ;;
               _ <~ h_ensure_course model p ;;
               h_ensure_course model c)
         (d_prerequisites data) ;;
  s <~ h_alloc (OSet (set_of_list (map Str.upper (d_passed data)))) ;;
  _ <~ h_bind_passed model s ;;
  hret model.

Definition h_from_dict (data : ModelData) : hm loc :=
  model <~ h_new_model ;;
  h_from_dict_fill model data.

(** [model.to_dict()] only reads the model. *)
Definition h_to_dict (model : loc) : hm ModelData :=
  m <~ h_snapshot model ;; hret (to_dict m).

Definition h_mark_passed (model : loc) (code : string) : hm unit :=
  let code := Str.upper (Str.strip code) in
  ' (c, _, s) <~ h_model model ;;
  d <~ h_courses c ;;
  if negb (dict_mem code d) then hraise (KeyError code)
  else
    ps <~ h_set s ;;
    h_put_set s (set_add code ps).

(** [suggest_next_semester] only reads the model. *)
Definition h_suggest_next_semester (model : loc) (credit_cap : Z) (criterion : string)
  : hm selection :=
  m <~ h_snapshot model ;;
  fun h => (suggest_next_semester m credit_cap criterion, h).

Fixpoint h_plan_loop (max_semesters : nat) (temp : loc) (credit_cap : Z)
  (criterion : string) (semesters : list selection) : hm (list selection) :=
  match max_semesters with
  | O => hret semesters
  | S n =>
      sel <~ h_suggest_next_semester temp credit_cap criterion ;;
      match fst (fst sel) with
      | [] => hret semesters
      | _ :: _ =>
          _ <~ h_for (h_mark_passed temp) (fst (fst sel)) ;;
          h_plan_loop n temp credit_cap criterion (semesters ++ [sel])
      end
  end.

(** [plan_full(model, credit_cap, criterion, max_semesters)] *)
Definition h_plan_full (model : loc) (credit_cap : Z) (criterion : string)
  (max_semesters : nat) : hm (list selection) :=
  data <~ h_to_dict model ;;
  temp <~ h_from_dict data ;;
  h_plan_loop max_semesters temp credit_cap criterion [].

(** [frame n h h']: the objects at the first [n] locations are untouched
    and no location is lost. *)
Definition frame (n : nat) (h h' : heap) : Prop :=
  (List.length h <= List.length h')%nat /\
  forall l, (l < n)%nat -> nth_error h' l = nth_error h l.

(** The model object at [tl], its catalogue [c], its prerequisites [p], its
    completed set and the sets of its prerequisites were all allocated at
    location [n] or later. *)
Definition owned (n : nat) (tl c p : loc) (h : heap) : Prop :=
  exists s d,
    nth_error h tl = Some (OModel c p s) /\ (n <= tl)%nat /\
    (n <= c)%nat /\ (n <= p)%nat /\ (n <= s)%nat /\
    nth_error h p = Some (OPrereqs d) /\
    forall k sl, In (k, sl) d -> (n <= sl)%nat.

(** A computation on the working copy: it keeps [frame] and [owned], and
    its results satisfy [Q]. *)
Definition triple (n : nat) (tl c p : loc) {A} (m : hm A) (Q : A -> Prop) : Prop :=
  forall h, owned n tl c p h ->
    frame n h (snd (m h)) /\ owned n tl c p (snd (m h)) /\
    forall a, fst (m h) = Ok a -> Q a.

(** A computation that leaves the store as it is. *)
Definition readonly {A} (m : hm A) : Prop := forall h, snd (m h) = h.

(** [extends h h']: every object of [h] is found unchanged in [h']. *)
Definition extends (h h' : heap) : Prop :=
  forall l o, nth_error h l = Some o -> nth_error h' l = Some o.

(** A reader whose successful results do not change when the store grows. *)
Definition stable {A} (m : hm A) : Prop :=
  forall h h' a, extends h h' -> fst (m h) = Ok a -> fst (m h') = Ok a.

(** [rep tl T h]: the model object at [tl] of the store [h] has the value
    [T], and its set objects are pairwise distinct. *)
Definition rep (tl : loc) (T : PMaPModel) (h : heap) : Prop :=
  exists c p s d,
    nth_error h tl = Some (OModel c p s) /\
    nth_error h c = Some (OCourses (courses T)) /\
    nth_error h p = Some (OPrereqs d) /\
    nth_error h s = Some (OSet (passed T)) /\
    Forall2 (fun kl ks => fst kl = fst ks /\ nth_error h (snd kl) = Some (OSet (snd ks)))
      d (prereqs T) /\
    NoDup (s :: map snd d).

(** The chosen codes of every term of a plan. *)
Definition fmap_chosen (r : result (list selection)) : result (list (list string)) :=
  match r with
  | Ok l => Ok (map (fun sel => fst (fst sel)) l)
  | Raise e => Raise e
  end.

(** ** Vocabulary for the serialised shape *)

(** [k] is an endpoint of one of the listed edges, after upper-casing. *)
Definition endpoint (k : string) (edges : list (string * string)) : bool :=
  existsb (fun pc => String.eqb (Str.upper (fst pc)) k || String.eqb (Str.upper (snd pc)) k)
    edges.

(** The last listed course entry whose upper-cased code is [k]. *)
Definition last_entry (k : string) (entries : list CourseEntry) : option CourseEntry :=
  find (fun e => String.eqb (Str.upper (e_code e)) k) (rev entries).

(** The same document with every code in upper case. *)
Definition upper_data (data : ModelData) : ModelData :=
  mkData
    (map (fun e => mkEntry (Str.upper (e_code e)) (e_name e) (e_credits e)) (d_courses data))
    (map (fun pc => (Str.upper (fst pc), Str.upper (snd pc))) (d_prerequisites data))
    (map Str.upper (d_passed data)).

(** The two counts of [action_metrics]: [V = len(adjacency)] and
    [E = sum(len(v) for v in adjacency.values())]. *)
Definition metrics_counts (model : PMaPModel) : Z * Z :=
  let (adjacency, _) := build_graph model in
  (Z.of_nat (List.length adjacency),
   fold_right Z.add 0%Z (map (fun v => Z.of_nat (List.length v)) (dict_values adjacency))).

(** ** The report of blocked courses *)

(** [sep.join(l)] *)
Fixpoint join (sep : string) (l : list string) : string :=
  match l with
  | [] => ""
  | [x] => x
  | x :: l' => (x ++ sep ++ join sep l')%string
  end.

(** [[c for c, d in indeg.items() if c not in model.passed and d > 0]] *)
Definition blocked_courses (model : PMaPModel) : result (list string) :=
  indeg <- current_indegree_effective model ;;
  Ok (map fst
        (filter (fun cd => negb (set_mem (fst cd) (passed model)) && (0 <? snd cd)%Z)
           indeg)).

(** [[p for p in model.prereqs.get(c, set()) if p not in model.passed]] *)
Definition missing_prereqs (model : PMaPModel) (c : string) : list string :=
  filter (fun p => negb (set_mem p (passed model)))
    (dict_get_default c [] (prereqs model)).

Definition newline : string := String (ascii_of_nat 10) "".

(** [action_report_blocked], as the list of the strings it prints. *)
Definition action_report_blocked (model : PMaPModel) : result (list string) :=
  blocked <- blocked_courses model ;;
  let header := (newline ++ "Materias bloqueadas (faltan prerequisitos):")%string in
  match blocked with
  | [] => Ok [header; " (ninguna)"]
  | _ :: _ =>
      Ok (header ::
          map (fun c =>
                 ("  " ++ c ++ " necesita: " ++ join ", " (missing_prereqs model c))%string)
            (sorted blocked))
  end.

(** [subseq s l]: [s] is [l] with some elements left out, the order kept. *)
Inductive subseq {A : Type} : list A -> list A -> Prop :=
| subseq_nil : subseq [] []
| subseq_skip x s l : subseq s l -> subseq s (x :: l)
| subseq_keep x s l : subseq s l -> subseq (x :: s) (x :: l).

(** A valid schedule: term by term, the chosen courses are catalogue
    courses not yet done whose prerequisites are all done, and the courses
    done grow by each term's courses. *)
Fixpoint plan_ok (m : PMaPModel) (done : list string)
  (terms : list (list string * Z * list string)) : Prop :=
  match terms with
  | [] => True
  | sel :: rest =>
      fst (fst sel) <> [] /\ NoDup (fst (fst sel)) /\
      (forall c, In c (fst (fst sel)) ->
         In c (catalog m) /\ ~ In c done /\
         forall p, is_prereq m p c -> In p done) /\
      snd (fst sel) = credit_sum m (fst (fst sel)) /\
      plan_ok m (done ++ fst (fst sel)) rest
  end.

(** The courses of a schedule, term after term. *)
Definition plan_codes (terms : list (list string * Z * list string)) : list string :=
  flat_map (fun sel => fst (fst sel)) terms.

(** ** The listing of prerequisites *)

(** Tuple comparison [x <= y] of two pairs of strings. *)
Definition pair_leb (x y : string * string) : bool :=
  match String.compare (fst x) (fst y) with
  | Lt => true
  | Gt => false
  | Eq => String.leb (snd x) (snd y)
  end.

(** The list [lines] of [print_prereqs]: for every catalogue code in
    ascending order, its prerequisites in ascending order. *)
Definition prereq_lines (model : PMaPModel) : list (string * string) :=
  flat_map
    (fun c => map (fun p => (p, c)) (sorted (dict_get_default c [] (prereqs model))))
    (sorted (dict_keys (courses model))).

(** [print_prereqs], as the list of the strings it prints. *)
Definition print_prereqs (model : PMaPModel) : list string :=
  let header := (newline ++ "Prerrequisitos (P -> C):")%string in
  match prereq_lines model with
  | [] => [header; " (ninguno)"]
  | _ :: _ =>
      header ::
      map (fun pc => ("  " ++ fst pc ++ "  ->  " ++ snd pc)%string)
        (sorted_by pair_leb (prereq_lines model))
  end.

(** ** A long ring of prerequisites *)

(** The code [C<i>]. *)
Definition ring_code (i : nat) : string := ("C" ++ Str.of_Z (Z.of_nat i))%string.

(** The document
    [{"courses": [], "passed": [],
      "prerequisites": [[f"C{i}", f"C{(i+1) % n}"] for i in range(n)]}]. *)
Definition ring_data (n : nat) : ModelData :=
  mkData [] (map (fun i => (ring_code i, ring_code (Nat.modulo (i + 1) n))) (seq 0 n)) [].

(** The model loaded from the ring of 1200 codes. *)
Definition ring_model : PMaPModel := from_dict (ring_data 1200).

(** * Basic facts *)

(** ** Dictionaries *)

Section DictFacts.
Context {V : Type}.
Implicit Types (d : dict V) (k : string) (v : V).

Lemma dict_get_set_eq k v d : dict_get k (dict_set k v d) = Some v.
Proof.
  induction d as [|[k' v'] d IH]; simpl.
  - now rewrite String.eqb_refl.
  - destruct (String.eqb k k') eqn:E; simpl; rewrite E; auto.
Qed.

Lemma dict_get_set_neq k k' v d :
  k <> k' -> dict_get k' (dict_set k v d) = dict_get k' d.
Proof.
  intros Hne. induction d as [|[k0 v0] d IH]; simpl.
  - apply String.eqb_neq in Hne. rewrite String.eqb_sym. now rewrite Hne.
  - destruct (String.eqb k k0) eqn:E; simpl.
    + apply String.eqb_eq in E. subst k0.
      assert (String.eqb k' k = false) as -> by (apply String.eqb_neq; congruence).
      reflexivity.
    + now rewrite IH.
Qed.

Lemma dict_get_None k d : dict_get k d = None <-> ~ In k (dict_keys d).
Proof.
  induction d as [|[k' v'] d IH]; simpl.
  - tauto.
  - destruct (String.eqb_spec k k').
    + split; [discriminate | intros H; exfalso; apply H; auto].
    + rewrite IH. split; [intros H [?|?]; [congruence|tauto] | tauto].
Qed.

Lemma dict_mem_In k d : dict_mem k d = true <-> In k (dict_keys d).
Proof.
  unfold dict_mem. destruct (dict_get k d) eqn:E.
  - split; auto. intros _.
    destruct (in_dec string_dec k (dict_keys d)) as [H|H]; auto.
    apply dict_get_None in H. congruence.
  - split; [discriminate|]. intros H. apply dict_get_None in E. tauto.
Qed.

Lemma dict_mem_false k d : dict_mem k d = false <-> ~ In k (dict_keys d).
Proof.
  rewrite <- dict_mem_In. destruct (dict_mem k d); split; congruence.
Qed.

Lemma dict_get_In k v d : dict_get k d = Some v -> In (k, v) d.
Proof.
  induction d as [|[k' v'] d IH]; simpl; [discriminate|].
  destruct (String.eqb_spec k k'); intros H.
  - inversion H. subst. auto.
  - auto.
Qed.

Lemma dict_get_key k v d : dict_get k d = Some v -> In k (dict_keys d).
Proof.
  intros H. apply dict_mem_In. unfold dict_mem. now rewrite H.
Qed.

Lemma In_dict_get k v d :
  NoDup (dict_keys d) -> In (k, v) d -> dict_get k d = Some v.
Proof.
  induction d as [|[k' v'] d IH]; simpl; [tauto|].
  intros Hnd [H|H].
  - inversion H. subst. now rewrite String.eqb_refl.
  - inversion Hnd as [|? ? Hk Hnd']. subst.
    destruct (String.eqb_spec k k').
    + subst. exfalso. apply Hk. change (In (fst (k', v)) (map fst d)).
      now apply in_map.
    + auto.
Qed.

Lemma dict_keys_set k v d :
  dict_keys (dict_set k v d) =
  if dict_mem k d then dict_keys d else dict_keys d ++ [k].
Proof.
  unfold dict_mem. induction d as [|[k' v'] d IH]; simpl; auto.
  destruct (String.eqb k k') eqn:E; simpl; auto.
  rewrite IH. now destruct (dict_get k d).
Qed.

Lemma dict_keys_set_mem k v d :
  In k (dict_keys d) -> dict_keys (dict_set k v d) = dict_keys d.
Proof.
  intros H. rewrite dict_keys_set. apply dict_mem_In in H. now rewrite H.
Qed.

Lemma dict_get_app k d1 d2 :
  dict_get k (d1 ++ d2) =
  match dict_get k d1 with Some v => Some v | None => dict_get k d2 end.
Proof.
  induction d1 as [|[k' v'] d1 IH]; simpl; auto.
  now destruct (String.eqb k k').
Qed.

Lemma dict_keys_setdefault k v d :
  dict_keys (dict_setdefault k v d) =
  if dict_mem k d then dict_keys d else dict_keys d ++ [k].
Proof.
  unfold dict_setdefault. destruct (dict_mem k d); auto.
  unfold dict_keys. now rewrite map_app.
Qed.

Lemma dict_get_setdefault_eq k v d :
  dict_get k (dict_setdefault k v d) =
  match dict_get k d with Some x => Some x | None => Some v end.
Proof.
  unfold dict_setdefault, dict_mem. destruct (dict_get k d) eqn:E; auto.
  rewrite dict_get_app, E. simpl. now rewrite String.eqb_refl.
Qed.

Lemma dict_get_setdefault_neq k k' v d :
  k <> k' -> dict_get k' (dict_setdefault k v d) = dict_get k' d.
Proof.
  intros Hne. unfold dict_setdefault. destruct (dict_mem k d); auto.
  rewrite dict_get_app. destruct (dict_get k' d); auto.
  simpl. destruct (String.eqb_spec k' k); congruence.
Qed.

Lemma dict_setdefault_mem k v d :
  In k (dict_keys d) -> dict_setdefault k v d = d.
Proof.
  intros H. unfold dict_setdefault. apply dict_mem_In in H. now rewrite H.
Qed.

Lemma NoDup_keys_set k v d :
  NoDup (dict_keys d) -> NoDup (dict_keys (dict_set k v d)).
Proof.
  intros H. rewrite dict_keys_set. destruct (dict_mem k d) eqn:E; auto.
  apply dict_mem_false in E.
  apply NoDup_rev in H. rewrite <- (rev_involutive (_ ++ _)).
  apply NoDup_rev. rewrite rev_app_distr. simpl. constructor; auto.
  now rewrite <- in_rev.
Qed.

Lemma NoDup_keys_setdefault k v d :
  NoDup (dict_keys d) -> NoDup (dict_keys (dict_setdefault k v d)).
Proof.
  intros H. rewrite dict_keys_setdefault. destruct (dict_mem k d) eqn:E; auto.
  apply dict_mem_false in E.
  apply NoDup_rev in H. rewrite <- (rev_involutive (_ ++ _)).
  apply NoDup_rev. rewrite rev_app_distr. simpl. constructor; auto.
  now rewrite <- in_rev.
Qed.

Lemma dict_item_Ok k d v : dict_item k d = Ok v <-> dict_get k d = Some v.
Proof.
  unfold dict_item. destruct (dict_get k d); split; congruence.
Qed.

Lemma dict_get_default_Some k v dflt d :
  dict_get k d = Some v -> dict_get_default k dflt d = v.
Proof. unfold dict_get_default. now intros ->. Qed.
End DictFacts.

(** ** Sets *)

Lemma set_mem_In x s : set_mem x s = true <-> In x s.
Proof.
  unfold set_mem. rewrite existsb_exists. split.
  - intros (y & Hy & E). apply String.eqb_eq in E. now subst.
  - intros H. exists x. split; auto. apply String.eqb_refl.
Qed.

Lemma set_mem_false x s : set_mem x s = false <-> ~ In x s.
Proof.
  rewrite <- set_mem_In. destruct (set_mem x s); split; congruence.
Qed.

Lemma In_set_add x y s : In y (set_add x s) <-> y = x \/ In y s.
Proof.
  unfold set_add. destruct (set_mem x s) eqn:E.
  - apply set_mem_In in E. split; auto. intros [->|H]; auto.
  - rewrite in_app_iff. simpl. split; intros H; intuition.
Qed.

Lemma NoDup_snoc {A} (x : A) (l : list A) :
  NoDup l -> ~ In x l -> NoDup (l ++ [x]).
Proof.
  intros H Hx. apply NoDup_rev in H. rewrite <- (rev_involutive (_ ++ _)).
  apply NoDup_rev. rewrite rev_app_distr. simpl. constructor; auto.
  now rewrite <- in_rev.
Qed.

Lemma NoDup_set_add x s : NoDup s -> NoDup (set_add x s).
Proof.
  intros H. unfold set_add. destruct (set_mem x s) eqn:E; auto.
  apply NoDup_snoc; auto. now apply set_mem_false.
Qed.

Lemma set_add_fresh x s : ~ In x s -> set_add x s = s ++ [x].
Proof.
  intros H. unfold set_add. apply set_mem_false in H. now rewrite H.
Qed.

Lemma In_set_remove x y s : In y (set_remove x s) <-> In y s /\ y <> x.
Proof.
  unfold set_remove. rewrite filter_In.
  destruct (String.eqb_spec x y); simpl; split; intros [? ?]; split; auto; congruence.
Qed.

Lemma In_set_diff y s t : In y (set_diff s t) <-> In y s /\ ~ In y t.
Proof.
  unfold set_diff. rewrite filter_In, negb_true_iff, set_mem_false. tauto.
Qed.

Lemma In_set_of_list_aux l : forall s x,
  In x (fold_left (fun s x => set_add x s) l s) <-> In x s \/ In x l.
Proof.
  induction l as [|a l IH]; simpl; intros s x.
  - tauto.
  - rewrite IH, In_set_add. intuition.
Qed.

Lemma In_set_of_list l x : In x (set_of_list l) <-> In x l.
Proof.
  unfold set_of_list. rewrite In_set_of_list_aux. simpl. tauto.
Qed.

Lemma NoDup_set_of_list_aux l : forall s,
  NoDup s -> NoDup (fold_left (fun s x => set_add x s) l s).
Proof.
  induction l as [|a l IH]; simpl; intros s H; auto using NoDup_set_add.
Qed.

Lemma NoDup_set_of_list l : NoDup (set_of_list l).
Proof. apply NoDup_set_of_list_aux. constructor. Qed.

(** ** Strings *)

Lemma upper_ascii_idem c : Str.upper_ascii (Str.upper_ascii c) = Str.upper_ascii c.
Proof.
  destruct c as [[] [] [] [] [] [] [] []]; reflexivity.
Qed.

Lemma upper_idem s : Str.upper (Str.upper s) = Str.upper s.
Proof.
  induction s as [|c s IH]; simpl; auto.
  now rewrite upper_ascii_idem, IH.
Qed.

(** ** Invariants of the public operations *)

Lemma in_catalog_set k k' c (d : dict Course) :
  In k (dict_keys d) -> In k (dict_keys (dict_set k' c d)).
Proof.
  intros H. rewrite dict_keys_set. destruct (dict_mem k' d); auto.
  apply in_or_app. auto.
Qed.

Lemma in_catalog_set_new k c (d : dict Course) :
  In k (dict_keys (dict_set k c d)).
Proof.
  apply (dict_get_key k c). apply dict_get_set_eq.
Qed.

Lemma In_dict_set {V} k v (d : dict V) k' v' :
  In (k', v') (dict_set k v d) -> (k' = k /\ v' = v) \/ In (k', v') d.
Proof.
  induction d as [|[k0 v0] d IH]; simpl.
  - intros [H|[]]. inversion H. auto.
  - destruct (String.eqb_spec k k0); simpl.
    + intros [H|H]; [inversion H; subst; auto | auto].
    + intros [H|H]; auto. destruct (IH H); auto.
Qed.

Lemma In_dict_setdefault {V} k v (d : dict V) k' v' :
  In (k', v') (dict_setdefault k v d) -> (k' = k /\ v' = v) \/ In (k', v') d.
Proof.
  unfold dict_setdefault. destruct (dict_mem k d); auto.
  rewrite in_app_iff. simpl. intros [H|[H|[]]]; auto. inversion H. auto.
Qed.

Lemma ensure_course_prereqs k m : prereqs (ensure_course k m) = prereqs m.
Proof. unfold ensure_course. now destruct (negb _). Qed.

Lemma ensure_course_passed k m : passed (ensure_course k m) = passed m.
Proof. unfold ensure_course. now destruct (negb _). Qed.

Lemma ensure_course_in k m : In k (catalog (ensure_course k m)).
Proof.
  unfold ensure_course, catalog. destruct (dict_mem k (courses m)) eqn:E; simpl.
  - now apply dict_mem_In.
  - apply in_catalog_set_new.
Qed.

Lemma ensure_course_mono k k' m :
  In k' (catalog m) -> In k' (catalog (ensure_course k m)).
Proof.
  unfold ensure_course, catalog. destruct (negb _); simpl; auto.
  apply in_catalog_set.
Qed.

Lemma ensure_course_cases k m k' :
  In k' (catalog (ensure_course k m)) -> k' = k \/ In k' (catalog m).
Proof.
  unfold ensure_course, catalog. destruct (dict_mem k (courses m)) eqn:E; simpl; auto.
  rewrite dict_keys_set, E, in_app_iff. simpl. intuition.
Qed.

Lemma ensure_course_NoDup k m :
  NoDup (catalog m) -> NoDup (catalog (ensure_course k m)).
Proof.
  unfold ensure_course, catalog. destruct (negb _); simpl; auto.
  apply NoDup_keys_set.
Qed.

Lemma ensure_course_entries k m k' c :
  In (k', c) (courses (ensure_course k m)) ->
  (k' = k /\ c = mkCourse k k 0 /\ ~ In k (catalog m)) \/ In (k', c) (courses m).
Proof.
  unfold ensure_course. destruct (dict_mem k (courses m)) eqn:E; simpl; auto.
  intros H. apply In_dict_set in H. destruct H as [[-> ->]|H]; auto.
  left. split; [reflexivity|]. split; [reflexivity|]. now apply dict_mem_false.
Qed.

(** What [prereqs[c].add(p)] does to the mapping. *)
Lemma prereqs_add_get c p d :
  dict_get c (prereqs_add c p d) = Some (set_add p (dict_get_default c [] d)).
Proof.
  unfold prereqs_add. rewrite dict_get_set_eq. f_equal. f_equal.
  unfold dict_get_default. rewrite dict_get_setdefault_eq.
  now destruct (dict_get c d).
Qed.

Lemma prereqs_add_get_neq c p d c' :
  c <> c' -> dict_get c' (prereqs_add c p d) = dict_get c' d.
Proof.
  intros H. unfold prereqs_add.
  now rewrite dict_get_set_neq, dict_get_setdefault_neq.
Qed.

Lemma prereqs_add_NoDup c p d :
  NoDup (dict_keys d) -> NoDup (dict_keys (prereqs_add c p d)).
Proof.
  intros H. unfold prereqs_add. now apply NoDup_keys_set, NoDup_keys_setdefault.
Qed.

Lemma prereqs_add_entries c p d c' s :
  In (c', s) (prereqs_add c p d) ->
  (c' = c /\ (s = set_add p (dict_get_default c [] d) \/ s = [])) \/ In (c', s) d.
Proof.
  unfold prereqs_add. intros H. apply In_dict_set in H.
  destruct H as [[-> ->]|H].
  - left. split; auto. left. f_equal. unfold dict_get_default.
    rewrite dict_get_setdefault_eq. now destruct (dict_get c d).
  - apply In_dict_setdefault in H. destruct H as [[-> ->]|H]; auto.
Qed.

Lemma prereqs_of_closed m c p :
  prereqs_closed m -> In p (prereqs_of m c) -> In c (catalog m) /\ In p (catalog m).
Proof.
  unfold prereqs_of, dict_get_default. intros Hc H.
  destruct (dict_get c (prereqs m)) as [s|] eqn:E; [|contradiction].
  apply dict_get_In in E. destruct (Hc _ _ E) as [H1 H2]. auto.
Qed.

Lemma prereqs_of_NoDup m c : well_formed m -> NoDup (prereqs_of m c).
Proof.
  intros Hwf. unfold prereqs_of, dict_get_default.
  destruct (dict_get c (prereqs m)) as [s|] eqn:E; [|constructor].
  apply dict_get_In in E. eapply wf_sets; eauto.
Qed.

Section EdgeStep.
Variables (m m' : PMaPModel) (c p : string).
Hypothesis Hpre : prereqs m' = prereqs_add c p (prereqs m).
Hypothesis Hmono : forall k, In k (catalog m) -> In k (catalog m').
Hypothesis Hc : In c (catalog m').
Hypothesis Hp : In p (catalog m').

Lemma closed_edge_step : prereqs_closed m -> prereqs_closed m'.
Proof using Hpre Hmono Hc Hp.
  intros Hcl c' s Hin. rewrite Hpre in Hin.
  apply prereqs_add_entries in Hin. destruct Hin as [[-> [->| ->]]|Hin].
  - split; auto. intros q Hq. apply In_set_add in Hq. destruct Hq as [->|Hq]; auto.
    apply Hmono. eapply prereqs_of_closed; eauto.
  - split; auto. intros q [].
  - destruct (Hcl _ _ Hin) as [H1 H2]. split; auto.
Qed.

Lemma sets_edge_step :
  (forall c s, In (c, s) (prereqs m) -> NoDup s) ->
  forall c s, In (c, s) (prereqs m') -> NoDup s.
Proof using Hpre.
  intros Hs c' s Hin. rewrite Hpre in Hin.
  apply prereqs_add_entries in Hin. destruct Hin as [[-> [->| ->]]|Hin].
  - apply NoDup_set_add. unfold dict_get_default.
    destruct (dict_get c (prereqs m)) as [s|] eqn:E; [|constructor].
    apply dict_get_In in E. eauto.
  - constructor.
  - eauto.
Qed.
End EdgeStep.

Lemma fold_left_invariant {A B} (P : A -> Prop) (f : A -> B -> A) l :
  (forall a b, P a -> P (f a b)) -> forall a, P a -> P (fold_left f l a).
Proof.
  intros Hf. induction l as [|b l IH]; simpl; auto.
Qed.

Lemma graph_ok_new : graph_ok new_model.
Proof.
  unfold graph_ok, prereqs_closed, keyed_by_code, catalog. simpl.
  repeat split; try constructor; intros; contradiction.
Qed.

Lemma graph_ok_set_course m k nm cr :
  Str.upper k = k -> graph_ok m ->
  graph_ok (set_courses m (dict_set k (mkCourse k nm cr) (courses m))).
Proof.
  intros Hk (H1 & H2 & H3 & H4 & H5 & H6).
  unfold graph_ok, prereqs_closed, keyed_by_code, catalog in *. simpl.
  repeat split; auto.
  - now apply NoDup_keys_set.
  - apply in_catalog_set. now destruct (H4 _ _ H).
  - intros p Hp. apply in_catalog_set. destruct (H4 _ _ H) as [_ Hs]. auto.
  - intros k' c' Hin. apply In_dict_set in Hin. destruct Hin as [[-> ->]|Hin]; auto.
  - intros k' Hin. rewrite dict_keys_set in Hin.
    destruct (dict_mem k (courses m)); auto.
    apply in_app_iff in Hin. destruct Hin as [Hin|[<-|[]]]; auto.
  Qed.

Lemma graph_ok_ensure k m :
  Str.upper k = k -> graph_ok m -> graph_ok (ensure_course k m).
Proof.
  intros Hk H. unfold ensure_course. destruct (negb _); auto.
  now apply graph_ok_set_course.
Qed.

Lemma graph_ok_edge m c p :
  Str.upper c = c -> Str.upper p = p -> graph_ok m ->
  graph_ok (set_prereqs (ensure_course c (ensure_course p m))
              (prereqs_add c p (prereqs m))).
Proof.
  intros Hc Hp Hm.
  assert (Hm' : graph_ok (ensure_course c (ensure_course p m)))
    by (now apply graph_ok_ensure, graph_ok_ensure).
  destruct Hm as (H1 & H2 & H3 & H4 & H5 & H6).
  destruct Hm' as (H1' & H2' & H3' & H4' & H5' & H6').
  unfold graph_ok. split; [|split; [|split; [|split; [|split]]]]; auto.
  - simpl. now apply prereqs_add_NoDup.
  - apply (sets_edge_step m _ c p); auto.
  - apply (closed_edge_step m _ c p); auto.
    + intros k Hk. simpl. now apply ensure_course_mono, ensure_course_mono.
    + apply ensure_course_in.
    + apply ensure_course_mono, ensure_course_in.
Qed.

Lemma from_dict_edge_eq m pc :
  from_dict_edge m pc =
  set_prereqs
    (ensure_course (Str.upper (snd pc)) (ensure_course (Str.upper (fst pc)) m))
    (prereqs_add (Str.upper (snd pc)) (Str.upper (fst pc)) (prereqs m)).
Proof.
  unfold from_dict_edge, ensure_course, set_prereqs, set_courses. simpl.
  destruct (negb (dict_mem (Str.upper (fst pc)) (courses m))); simpl;
    destruct (negb (dict_mem (Str.upper (snd pc)) _)); reflexivity.
Qed.

Lemma graph_ok_from_dict data :
  graph_ok (fold_left from_dict_edge (d_prerequisites data)
              (fold_left from_dict_course (d_courses data) new_model)).
Proof.
  apply fold_left_invariant.
  - intros m pc Hm. rewrite from_dict_edge_eq.
    apply graph_ok_edge; auto using upper_idem.
  - apply fold_left_invariant; [|apply graph_ok_new].
    intros m c Hm. unfold from_dict_course.
    apply graph_ok_set_course; auto using upper_idem.
Qed.

Lemma model_ok_intro m :
  graph_ok m -> NoDup (passed m) ->
  (forall k, In k (passed m) -> Str.upper k = k) -> model_ok m.
Proof.
  intros (H1 & H2 & H3 & H4 & H5 & H6) Hp Hu.
  constructor; auto. - constructor; auto. - split; auto.
Qed.

Lemma model_ok_graph m : model_ok m -> graph_ok m.
Proof.
  intros [[H1 H2 H3 H4] Hc Hk [Hu1 Hu2]]. unfold graph_ok. auto 10.
Qed.

Lemma add_prereq_eq prereq course m :
  let p := Str.upper (Str.strip prereq) in
  let c := Str.upper (Str.strip course) in
  c <> p ->
  add_prereq prereq course m =
  (Ok tt, set_prereqs (ensure_course c (ensure_course p m))
            (prereqs_add c p (prereqs m))).
Proof.
  intros p c Hne. unfold add_prereq. fold p c.
  apply String.eqb_neq in Hne. rewrite Hne.
  now rewrite !ensure_course_prereqs.
Qed.

(** Every model that the public operations build is well formed, closed,
    keyed by code and canonical. *)
Lemma reachable_ok m : reachable m -> model_ok m.
Proof.
  induction 1 as [|data|m code nm cr Hr IH|m prereq course Hr IH|m code Hr IH].
  - apply model_ok_intro; [apply graph_ok_new|constructor|intros k []].
  - unfold from_dict. apply model_ok_intro; simpl.
    + apply (graph_ok_from_dict data).
    + apply NoDup_set_of_list.
    + intros k Hk. apply In_set_of_list, in_map_iff in Hk.
      destruct Hk as (x & <- & _). apply upper_idem.
  - pose proof (model_ok_graph _ IH) as Hg.
    pose proof (graph_ok_set_course m (Str.upper (Str.strip code)) (Str.strip nm) cr
                  (upper_idem _) Hg) as (H1 & H2 & H3 & H4 & H5 & H6).
    unfold add_course. apply model_ok_intro; simpl.
    + unfold graph_ok, prereqs_closed, catalog in *. simpl in *.
      repeat split; auto.
      * now apply NoDup_keys_setdefault.
      * intros c s Hin. apply In_dict_setdefault in Hin.
        destruct Hin as [[-> ->]|Hin]; [constructor|eauto].
      * apply In_dict_setdefault in H. destruct H as [[-> ->]|Hin].
        -- apply in_catalog_set_new.
        -- now destruct (H4 _ _ Hin).
      * apply In_dict_setdefault in H. destruct H as [[-> ->]|Hin].
        -- intros p [].
        -- intros p Hp. destruct (H4 _ _ Hin) as [_ Hs]. auto.
    + apply (wf_passed _ (ok_wf _ IH)).
    + apply (ok_canon _ IH).
  - set (p := Str.upper (Str.strip prereq)). set (c := Str.upper (Str.strip course)).
    destruct (string_dec c p) as [E|E].
    + unfold add_prereq. fold p c. rewrite E, String.eqb_refl. exact IH.
    + rewrite add_prereq_eq by exact E. simpl. apply model_ok_intro.
      * apply graph_ok_edge; auto using upper_idem, model_ok_graph.
      * simpl. rewrite !ensure_course_passed. apply (wf_passed _ (ok_wf _ IH)).
      * simpl. rewrite !ensure_course_passed. apply (ok_canon _ IH).
  - unfold mark_passed. destruct (negb _); simpl; auto.
    pose proof (model_ok_graph _ IH) as Hg.
    apply model_ok_intro; simpl; auto.
    + apply NoDup_set_add, (wf_passed _ (ok_wf _ IH)).
    + intros k Hk. apply In_set_add in Hk. destruct Hk as [->|Hk].
      * apply upper_idem.
      * now apply (ok_canon _ IH).
Qed.

(** * Edge insertion and completion marks *)

Lemma ensure_course_get_old k k' m :
  In k' (catalog m) ->
  dict_get k' (courses (ensure_course k m)) = dict_get k' (courses m).
Proof.
  intros H. unfold ensure_course.
  destruct (dict_mem k (courses m)) eqn:E; simpl; auto.
  apply dict_get_set_neq. intros ->. apply dict_mem_false in E. contradiction.
Qed.

Lemma ensure_course_get_new k m :
  ~ In k (catalog m) ->
  dict_get k (courses (ensure_course k m)) = Some (mkCourse k k 0).
Proof.
  intros H. unfold ensure_course. apply dict_mem_false in H. rewrite H. simpl.
  apply dict_get_set_eq.
Qed.

Lemma prereqs_of_add m m' c p b :
  prereqs m' = prereqs_add c p (prereqs m) ->
  prereqs_of m' b = if String.eqb b c then set_add p (prereqs_of m c) else prereqs_of m b.
Proof.
  intros H. unfold prereqs_of, dict_get_default at 1. rewrite H.
  destruct (String.eqb_spec b c) as [->|Hne].
  - now rewrite prereqs_add_get.
  - rewrite prereqs_add_get_neq by congruence. reflexivity.
Qed.

(** C9. [add_prereq], with [p] and [c] the normalised prerequisite and course
    codes.  When they differ the call succeeds: each of the two codes that
    was unknown now names a placeholder course (zero credits, the code as
    its name), the known courses and the completed set are as before, no
    other code enters the catalogue, and the stored edges are the old ones
    plus [p -> c].  When they are equal the call raises and returns the
    model as it was. *)
Theorem add_prereq_contract (prereq course : string) (m : PMaPModel) :
  let p := Str.upper (Str.strip prereq) in
  let c := Str.upper (Str.strip course) in
  (p <> c ->
   exists m',
     add_prereq prereq course m = (Ok tt, m') /\
     (~ In p (catalog m) -> dict_get p (courses m') = Some (mkCourse p p 0)) /\
     (~ In c (catalog m) -> dict_get c (courses m') = Some (mkCourse c c 0)) /\
     (forall k, In k (catalog m) -> dict_get k (courses m') = dict_get k (courses m)) /\
     (forall k, In k (catalog m') <-> In k (catalog m) \/ k = p \/ k = c) /\
     (forall a b, is_prereq m' a b <-> is_prereq m a b \/ (a = p /\ b = c)) /\
     passed m' = passed m) /\
  (p = c ->
   exists msg, add_prereq prereq course m = (Raise (ValueError msg), m)).
Proof.
  intros p c. split.
  - intros Hne. eexists. split.
    { apply add_prereq_eq. fold p c. congruence. }
    fold p c. simpl. repeat split.
    + intros Hp. rewrite ensure_course_get_old by apply ensure_course_in.
      now apply ensure_course_get_new.
    + intros Hc. apply ensure_course_get_new. intros H.
      apply ensure_course_cases in H. destruct H; congruence.
    + intros k Hk. rewrite ensure_course_get_old by now apply ensure_course_mono.
      now apply ensure_course_get_old.
    + intros H. apply ensure_course_cases in H. destruct H as [->|H]; auto.
      apply ensure_course_cases in H. destruct H as [->|H]; auto.
    + intros [H|[->| ->]].
      * now apply ensure_course_mono, ensure_course_mono.
      * apply ensure_course_mono, ensure_course_in.
      * apply ensure_course_in.
    + unfold is_prereq.
      match goal with |- context [prereqs_of ?m' b] =>
        rewrite (prereqs_of_add m m' c p b) by reflexivity end.
      destruct (String.eqb_spec b c) as [->|Hb]; auto.
      rewrite In_set_add. intros [->|H]; auto.
    + unfold is_prereq.
      match goal with |- context [prereqs_of ?m' b] =>
        rewrite (prereqs_of_add m m' c p b) by reflexivity end.
      destruct (String.eqb_spec b c) as [->|Hb].
      * rewrite In_set_add. intros [H|[-> _]]; auto.
      * intros [H|[_ H]]; auto. contradiction.
    + now rewrite !ensure_course_passed.
  - intros E. unfold add_prereq. fold p c. rewrite E, String.eqb_refl. eauto.
Qed.

(** A placeholder is created and an edge recorded; a self-edge is refused. *)
Lemma add_prereq_contract_witness :
  (exists m',
     add_prereq "mat101" " fis101 " new_model = (Ok tt, m') /\
     dict_get "MAT101" (courses m') = Some (mkCourse "MAT101" "MAT101" 0) /\
     is_prereq m' "MAT101" "FIS101") /\
  (exists msg, add_prereq "eda1" "EDA1 " new_model = (Raise (ValueError msg), new_model)).
Proof.
  pose proof (add_prereq_contract "mat101" " fis101 " new_model) as [H1 _].
  pose proof (add_prereq_contract "eda1" "EDA1 " new_model) as [_ H2].
  split.
  - destruct H1 as (m' & E & Hp & _ & _ & _ & He & _).
    { vm_compute. discriminate. }
    exists m'. split; [exact E|]. split.
    + apply Hp. simpl. tauto.
    + apply He. right. split; reflexivity.
  - apply H2. reflexivity.
Defined.

(** [mark_passed] refuses a code that is not in the catalogue and leaves the
    model as it was; a known code is added to the completed set. *)
Lemma mark_passed_spec code m :
  let k := Str.upper (Str.strip code) in
  (~ In k (catalog m) -> mark_passed code m = (Raise (KeyError k), m)) /\
  (In k (catalog m) ->
   mark_passed code m = (Ok tt, set_passed m (set_add k (passed m)))).
Proof.
  intros k. unfold mark_passed. fold k. split; intros H.
  - apply dict_mem_false in H. now rewrite H.
  - apply dict_mem_In in H. now rewrite H.
Qed.

(** The methods keep the completed set inside the catalogue. *)
Lemma passed_closed_methods m :
  passed_closed m ->
  (forall code nm cr, passed_closed (add_course code nm cr m)) /\
  (forall p c, passed_closed (snd (add_prereq p c m))) /\
  (forall code, passed_closed (snd (mark_passed code m))).
Proof.
  intros H. unfold passed_closed, catalog in *. repeat split.
  - intros code nm cr c Hc. simpl in *. apply in_catalog_set. auto.
  - intros p c k Hk.
    destruct (string_dec (Str.upper (Str.strip c)) (Str.upper (Str.strip p))) as [E|E].
    + unfold add_prereq in *. rewrite E, String.eqb_refl in *. simpl in *. auto.
    + rewrite add_prereq_eq in * by exact E. simpl in *.
      rewrite !ensure_course_passed in Hk.
      apply ensure_course_mono, ensure_course_mono. apply H, Hk.
  - intros code k Hk. unfold mark_passed in *.
    destruct (dict_mem (Str.upper (Str.strip code)) (courses m)) eqn:E; simpl in *; auto.
    apply In_set_add in Hk. destruct Hk as [->|Hk]; auto.
    now apply dict_mem_In.
Qed.

(** C6. [from_dict] takes the completed codes as they come: loading a
    document whose [passed] list names a code that is neither a course nor
    an endpoint of an edge gives a model whose completed set is not inside
    its catalogue. *)
Theorem from_dict_passed_unchecked :
  let m := from_dict (mkData [] [] ["X"]) in
  reachable m /\ passed m = ["X"] /\ catalog m = [] /\ ~ passed_closed m.
Proof.
  simpl. split; [apply (reach_from_dict (mkData [] [] ["X"]))|].
  split; [reflexivity|]. split; [reflexivity|].
  intros H. apply (H "X"). simpl. auto.
Qed.

(** * Sorting *)

Section SortingFacts.
Context {A : Type} (le : A -> A -> bool).

Lemma insert_sorted_perm x l : Permutation (insert_sorted le x l) (x :: l).
Proof.
  induction l as [|y t IH]; simpl; auto.
  destruct (le x y); auto.
  rewrite IH. apply perm_swap.
Qed.

Lemma sorted_by_perm l : Permutation (sorted_by le l) l.
Proof.
  induction l as [|x l IH]; simpl; auto.
  rewrite insert_sorted_perm. now constructor.
Qed.

Lemma In_sorted_by x l : In x (sorted_by le l) <-> In x l.
Proof.
  split; apply Permutation_in; [|symmetry]; apply sorted_by_perm.
Qed.

Hypothesis le_total : forall a b, le a b = true \/ le b a = true.

Lemma insert_sorted_Sorted x l :
  Sorted (fun a b => le a b = true) l ->
  Sorted (fun a b => le a b = true) (insert_sorted le x l).
Proof using le_total.
  induction 1 as [|y t Hs IH Hhd]; simpl.
  - repeat constructor.
  - destruct (le x y) eqn:E.
    + constructor; [constructor; auto|]. now constructor.
    + constructor; auto.
      destruct t as [|z t]; simpl.
      * constructor. destruct (le_total x y); congruence.
      * destruct (le x z); constructor.
        -- destruct (le_total x y); congruence.
        -- now inversion Hhd.
Qed.

Lemma sorted_by_Sorted l : Sorted (fun a b => le a b = true) (sorted_by le l).
Proof using le_total.
  induction l as [|x l IH]; simpl; [constructor|].
  now apply insert_sorted_Sorted.
Qed.
End SortingFacts.

Lemma string_leb_iff a b :
  String.leb a b = true <-> String_as_OT.lt a b \/ a = b.
Proof.
  unfold String.leb.
  destruct (String.compare a b) eqn:E.
  - apply String_as_OT.cmp_eq in E. tauto.
  - apply String_as_OT.cmp_lt in E. tauto.
  - split; [discriminate|]. intros [H| ->].
    + apply String_as_OT.cmp_lt in H. unfold String_as_OT.cmp in H. congruence.
    + assert (String.compare b b = Eq) by now apply String_as_OT.cmp_eq.
      congruence.
Qed.

Lemma string_leb_trans a b c :
  String.leb a b = true -> String.leb b c = true -> String.leb a c = true.
Proof.
  rewrite !string_leb_iff. intros [H1| ->] [H2| ->]; auto.
  left. eapply String_as_OT.lt_trans; eauto.
Qed.

Lemma sorted_ascending l :
  StronglySorted (fun a b => String.leb a b = true) (sorted l).
Proof.
  apply Sorted_StronglySorted.
  - intros a b c. apply string_leb_trans.
  - apply sorted_by_Sorted. apply String.leb_total.
Qed.

Lemma In_sorted x l : In x (sorted l) <-> In x l.
Proof. apply In_sorted_by. Qed.

(** * Eligibility *)

Lemma count_missing_spec course pres psd : forall indeg,
  In course (dict_keys indeg) ->
  exists indeg',
    count_missing course pres psd indeg = Ok indeg' /\
    dict_keys indeg' = dict_keys indeg /\
    forall k,
      dict_get k indeg' =
      if String.eqb k course
      then option_map (fun d => d + Z.of_nat (List.length (missing psd pres)))%Z
             (dict_get k indeg)
      else dict_get k indeg.
Proof.
  induction pres as [|p pres IH]; intros indeg Hin; simpl.
  - exists indeg. repeat split; auto. intros k.
    destruct (String.eqb k course); auto.
    destruct (dict_get k indeg); simpl; auto. f_equal. lia.
  - destruct (set_mem p psd) eqn:E; simpl.
    + apply IH, Hin.
    + unfold dict_item.
      destruct (dict_get course indeg) as [d|] eqn:Ed;
        [|apply dict_get_None in Ed; contradiction].
      simpl.
      destruct (IH (dict_set course (d + 1)%Z indeg)) as (indeg' & E1 & E2 & E3).
      { now rewrite dict_keys_set_mem. }
      exists indeg'. split; [exact E1|]. split.
      { now rewrite E2, dict_keys_set_mem. }
      intros k. rewrite E3. destruct (String.eqb_spec k course) as [->|Hne].
      * rewrite dict_get_set_eq, Ed. simpl. f_equal. lia.
      * apply dict_get_set_neq. congruence.
Qed.

Lemma count_all_spec psd : forall items indeg,
  NoDup (dict_keys items) ->
  (forall c, In c (dict_keys items) -> In c (dict_keys indeg)) ->
  exists indeg',
    count_all items psd indeg = Ok indeg' /\
    dict_keys indeg' = dict_keys indeg /\
    forall k,
      dict_get k indeg' =
      option_map
        (fun d => d + Z.of_nat (List.length (missing psd (dict_get_default k [] items))))%Z
        (dict_get k indeg).
Proof.
  induction items as [|[course pres] items IH]; intros indeg Hnd Hin; simpl.
  - exists indeg. repeat split; auto. intros k.
    destruct (dict_get k indeg); simpl; auto. f_equal. unfold dict_get_default. simpl. lia.
  - inversion Hnd as [|? ? Hout Hnd']. subst.
    destruct (count_missing_spec course pres psd indeg) as (i1 & E1 & K1 & G1).
    { apply Hin. simpl. auto. }
    rewrite E1. simpl.
    destruct (IH i1 Hnd') as (i2 & E2 & K2 & G2).
    { intros c Hc. rewrite K1. apply Hin. simpl. auto. }
    exists i2. split; [exact E2|]. split; [congruence|].
    intros k. rewrite G2, G1. unfold dict_get_default. simpl.
    destruct (String.eqb_spec k course) as [->|Hne].
    + assert (dict_get course items = None) as -> by now apply dict_get_None.
      destruct (dict_get course indeg); simpl; auto. f_equal. lia.
    + reflexivity.
Qed.

Lemma dict_get_const_map {V} (v : V) k l :
  dict_get k (map (fun c => (c, v)) l) = if in_dec string_dec k l then Some v else None.
Proof.
  induction l as [|a l IH]; simpl; auto.
  destruct (String.eqb_spec k a) as [->|Hne].
  - destruct (string_dec a a); [reflexivity|congruence].
  - rewrite IH. destruct (string_dec a k); [congruence|].
    now destruct (in_dec string_dec k l).
Qed.

Lemma dict_keys_const_map {V} (v : V) l : dict_keys (map (fun c => (c, v)) l) = l.
Proof.
  unfold dict_keys. rewrite map_map. simpl. apply map_id.
Qed.

Lemma missing_nil psd pres :
  missing psd pres = [] <-> forall p, In p pres -> In p psd.
Proof.
  unfold missing. induction pres as [|a l IH]; simpl.
  - tauto.
  - destruct (set_mem a psd) eqn:E; simpl.
    + apply set_mem_In in E. rewrite IH. split; intros H.
      * intros p [<-|Hp]; auto.
      * auto.
    + apply set_mem_false in E. split; [discriminate|]. intros H.
      exfalso. apply E, H. auto.
Qed.

(** The effective indegrees of a closed, well-formed model. *)
Lemma current_indegree_effective_spec m :
  well_formed m -> prereqs_closed m ->
  exists indeg,
    current_indegree_effective m = Ok indeg /\
    dict_keys indeg = catalog m /\
    forall k, In k (catalog m) ->
      dict_get k indeg =
      Some (Z.of_nat (List.length (missing (passed m) (prereqs_of m k)))).
Proof.
  intros Hwf Hcl. unfold current_indegree_effective.
  destruct (count_all_spec (passed m) (prereqs m)
              (map (fun c => (c, 0%Z)) (dict_keys (courses m))))
    as (indeg & E & K & G).
  - apply Hwf.
  - intros c Hc. rewrite dict_keys_const_map.
    apply in_map_iff in Hc. destruct Hc as ([c' s] & <- & Hin).
    now destruct (Hcl _ _ Hin).
  - exists indeg. split; [exact E|]. split.
    + now rewrite K, dict_keys_const_map.
    + intros k Hk. rewrite G, dict_get_const_map.
      destruct (in_dec string_dec k (dict_keys (courses m))); [|contradiction].
      reflexivity.
Qed.

(** C3. On a model built by the public operations [candidates] returns a
    list; a code is in it exactly when it is not completed and its effective
    indegree is 0, which is the case exactly for the catalogue codes all of
    whose prerequisites are completed; and the list is in ascending
    lexicographic order. *)
Theorem candidates_spec (m : PMaPModel) :
  reachable m ->
  exists l indeg,
    candidates m = Ok l /\
    current_indegree_effective m = Ok indeg /\
    (forall c, In c l <-> ~ In c (passed m) /\ dict_get c indeg = Some 0%Z) /\
    (forall c, dict_get c indeg = Some 0%Z <->
       In c (catalog m) /\ forall p, is_prereq m p c -> In p (passed m)) /\
    StronglySorted (fun a b => String.leb a b = true) l.
Proof.
  intros Hr. apply reachable_ok in Hr. destruct Hr as [Hwf Hcl _ _].
  destruct (current_indegree_effective_spec m Hwf Hcl) as (indeg & E & K & G).
  assert (Hnd : NoDup (dict_keys indeg)) by (rewrite K; apply Hwf).
  unfold candidates. rewrite E. simpl. eexists. exists indeg.
  split; [reflexivity|]. split; [reflexivity|]. split; [|split].
  - intros c. rewrite In_sorted, in_map_iff. split.
    + intros ([c' d] & <- & Hin). apply filter_In in Hin. simpl in *.
      destruct Hin as [Hin Hb]. apply andb_true_iff in Hb. destruct Hb as [Hd Hp].
      apply Z.eqb_eq in Hd. subst d. split.
      * now apply set_mem_false, negb_true_iff.
      * now apply In_dict_get.
    + intros [Hp Hg]. apply dict_get_In in Hg.
      exists (c, 0%Z). split; [reflexivity|]. apply filter_In. split; [exact Hg|].
      simpl. now apply negb_true_iff, set_mem_false.
  - intros c. split.
    + intros Hg. assert (Hc : In c (catalog m)) by (rewrite <- K; eapply dict_get_key; eauto).
      split; [exact Hc|]. rewrite (G _ Hc) in Hg. inversion Hg as [Hz].
      apply missing_nil, length_zero_iff_nil. lia.
    + intros [Hc Hall]. rewrite (G _ Hc). apply missing_nil in Hall.
      unfold is_prereq in Hall. now rewrite Hall.
  - apply sorted_ascending.
Qed.

Lemma candidates_spec_witness :
  reachable test_model /\
  exists l indeg,
    candidates test_model = Ok l /\
    current_indegree_effective test_model = Ok indeg /\
    (forall c, In c l <-> ~ In c (passed test_model) /\ dict_get c indeg = Some 0%Z) /\
    (forall c, dict_get c indeg = Some 0%Z <->
       In c (catalog test_model) /\
       forall p, is_prereq test_model p c -> In p (passed test_model)) /\
    StronglySorted (fun a b => String.leb a b = true) l.
Proof.
  assert (H : reachable test_model) by apply reach_from_dict.
  split; [exact H | exact (candidates_spec test_model H)].
Defined.

(** [test_candidates_with_passed]: [B] and [D] are candidates, [C] is not. *)
Example test_candidates : candidates test_model = Ok ["B"; "D"].
Proof. reflexivity. Qed.

(** * The derived graph *)

Lemma dict_get_default_set {V} k k' (v dflt : V) d :
  dict_get_default k' dflt (dict_set k v d) =
  if String.eqb k' k then v else dict_get_default k' dflt d.
Proof.
  unfold dict_get_default. destruct (String.eqb_spec k' k) as [->|Hne].
  - now rewrite dict_get_set_eq.
  - rewrite dict_get_set_neq by congruence. reflexivity.
Qed.

Lemma dict_get_default_setdefault {V} k k' (dflt : V) d :
  dict_get_default k' dflt (dict_setdefault k dflt d) = dict_get_default k' dflt d.
Proof.
  unfold dict_get_default. destruct (string_dec k k') as [->|Hne].
  - rewrite dict_get_setdefault_eq. now destruct (dict_get k' d).
  - now rewrite dict_get_setdefault_neq.
Qed.

Lemma dict_keys_setdefault_In {V} k k' (v : V) d :
  In k' (dict_keys (dict_setdefault k v d)) <-> k' = k \/ In k' (dict_keys d).
Proof.
  rewrite dict_keys_setdefault. destruct (dict_mem k d) eqn:E.
  - apply dict_mem_In in E. split; auto. intros [->|H]; auto.
  - rewrite in_app_iff. simpl. intuition.
Qed.

Lemma dict_keys_set_In {V} k k' (v : V) d :
  In k' (dict_keys (dict_set k v d)) <-> k' = k \/ In k' (dict_keys d).
Proof.
  rewrite dict_keys_set. destruct (dict_mem k d) eqn:E.
  - apply dict_mem_In in E. split; auto. intros [->|H]; auto.
  - rewrite in_app_iff. simpl. intuition.
Qed.

Lemma succs_app es1 es2 u : succs (es1 ++ es2) u = succs es1 u ++ succs es2 u.
Proof. unfold succs. now rewrite filter_app, map_app. Qed.

Lemma preds_app es1 es2 v : preds (es1 ++ es2) v = preds es1 v ++ preds es2 v.
Proof. unfold preds. now rewrite filter_app, map_app. Qed.

Lemma In_succs es u v : In v (succs es u) <-> In (u, v) es.
Proof.
  unfold succs. rewrite in_map_iff. split.
  - intros ([a b] & <- & H). apply filter_In in H. simpl in H.
    destruct H as [H E]. apply String.eqb_eq in E. now subst.
  - intros H. exists (u, v). split; auto. apply filter_In. split; auto.
    apply String.eqb_refl.
Qed.

Lemma In_preds es u v : In u (preds es v) <-> In (u, v) es.
Proof.
  unfold preds. rewrite in_map_iff. split.
  - intros ([a b] & <- & H). apply filter_In in H. simpl in H.
    destruct H as [H E]. apply String.eqb_eq in E. now subst.
  - intros H. exists (u, v). split; auto. apply filter_In. split; auto.
    apply String.eqb_refl.
Qed.

Lemma NoDup_succs es u : NoDup es -> NoDup (succs es u).
Proof.
  intros H. unfold succs. induction H as [|[a b] es Hn Hnd IH]; simpl; [constructor|].
  destruct (String.eqb_spec a u) as [->|Hne]; simpl; auto.
  constructor; auto. intros Hin. apply Hn. now apply In_succs.
Qed.

Lemma NoDup_preds es v : NoDup es -> NoDup (preds es v).
Proof.
  intros H. unfold preds. induction H as [|[a b] es Hn Hnd IH]; simpl; [constructor|].
  destruct (String.eqb_spec b v) as [->|Hne]; simpl; auto.
  constructor; auto. intros Hin. apply Hn. now apply In_preds.
Qed.

Lemma graph_spec_init base :
  NoDup base ->
  graph_spec base [] (map (fun c => (c, [])) base) (map (fun c => (c, 0%Z)) base).
Proof.
  intros Hnd. constructor; simpl.
  - intros u. unfold dict_get_default. rewrite dict_get_const_map.
    now destruct (in_dec string_dec u base).
  - intros v. unfold dict_get_default. rewrite dict_get_const_map.
    now destruct (in_dec string_dec v base).
  - now rewrite dict_keys_const_map.
  - intros c. now rewrite dict_keys_const_map.
  - intros u v [].
  - intros c. rewrite dict_keys_const_map. auto.
Qed.

Lemma graph_spec_edge base es adj ind p c :
  graph_spec base es adj ind -> ~ In (p, c) es ->
  graph_spec base (es ++ [(p, c)])
    (fst (build_edge c (adj, ind) p)) (snd (build_edge c (adj, ind) p)).
Proof.
  intros [Ha Hi Hn Hb He Ho] Hfresh. unfold build_edge. simpl. constructor.
  - intros u. rewrite dict_get_default_set, !dict_get_default_setdefault, succs_app.
    unfold succs at 2. simpl. destruct (String.eqb_spec u p) as [->|Hne].
    + rewrite String.eqb_refl. simpl. rewrite Ha. apply set_add_fresh.
      now rewrite In_succs.
    + destruct (String.eqb_spec p u); [congruence|]. simpl.
      rewrite app_nil_r. apply Ha.
  - intros v. rewrite dict_get_default_setdefault, dict_get_default_set, preds_app.
    unfold preds at 2. simpl. rewrite length_app.
    destruct (String.eqb_spec v c) as [->|Hne].
    + rewrite String.eqb_refl. simpl. rewrite Hi. lia.
    + destruct (String.eqb_spec c v); [congruence|]. simpl. rewrite Hi. lia.
  - now apply NoDup_keys_setdefault, NoDup_keys_set.
  - intros k Hk. apply dict_keys_setdefault_In. right.
    apply dict_keys_set_In. right. auto.
  - intros u v Hin. rewrite !dict_keys_setdefault_In, !dict_keys_set_In.
    apply in_app_iff in Hin. destruct Hin as [Hin|[Hin|[]]].
    + destruct (He _ _ Hin). auto.
    + inversion Hin. subst. auto.
  - intros k Hk. apply dict_keys_setdefault_In in Hk.
    rewrite dict_keys_set_In in Hk.
    destruct Hk as [->|[->|Hk]].
    + right. exists (p, c). split; [apply in_or_app; simpl; auto|auto].
    + right. exists (p, c). split; [apply in_or_app; simpl; auto|auto].
    + destruct (Ho _ Hk) as [H|(e & H1 & H2)]; auto.
      right. exists e. split; auto. apply in_or_app. auto.
Qed.

Lemma graph_spec_edges base : forall es2 es1 adj ind,
  graph_spec base es1 adj ind -> NoDup (es1 ++ es2) ->
  let g := fold_left (fun g e => build_edge (snd e) g (fst e)) es2 (adj, ind) in
  graph_spec base (es1 ++ es2) (fst g) (snd g).
Proof.
  induction es2 as [|[p c] es2 IH]; intros es1 adj ind Hg Hnd; cbn [fold_left fst snd].
  - now rewrite app_nil_r.
  - change (es1 ++ (p, c) :: es2) with (es1 ++ [(p, c)] ++ es2) in *.
    rewrite app_assoc in *.
    pose proof (graph_spec_edge base es1 adj ind p c Hg) as Hstep.
    destruct (build_edge c (adj, ind) p) as [adj' ind'] eqn:E.
    cbn [fst snd] in Hstep.
    apply IH; auto. apply Hstep.
    apply NoDup_app_remove_r in Hnd. apply NoDup_remove_2 in Hnd.
    now rewrite app_nil_r in Hnd.
Qed.

Lemma graph_spec_course base es adj ind c :
  graph_spec base es adj ind -> In c base ->
  graph_spec base es (fst (build_course (adj, ind) c)) (snd (build_course (adj, ind) c)).
Proof.
  intros [Ha Hi Hn Hb He Ho] Hc. unfold build_course. simpl.
  rewrite (dict_setdefault_mem c 0%Z ind) by auto.
  constructor; auto.
  intros u. now rewrite dict_get_default_setdefault.
Qed.

Lemma fold_edges_flat (items : dict (list string)) : forall g,
  fold_left (fun g cp => fold_left (build_edge (fst cp)) (snd cp) g) items g =
  fold_left (fun g e => build_edge (snd e) g (fst e))
    (flat_map (fun cp => map (fun p => (p, fst cp)) (snd cp)) items) g.
Proof.
  induction items as [|[c pres] items IH]; intros g; simpl; auto.
  rewrite fold_left_app, IH. f_equal.
  clear. revert g. induction pres as [|p pres IH]; intros g; simpl; auto.
Qed.

Lemma In_edge_list m p c :
  well_formed m -> (In (p, c) (edge_list m) <-> is_prereq m p c).
Proof.
  intros Hwf. unfold edge_list, is_prereq, prereqs_of, dict_get_default.
  rewrite in_flat_map. split.
  - intros ([c' s] & Hin & Hp). simpl in Hp. apply in_map_iff in Hp.
    destruct Hp as (p' & E & Hp). inversion E. subst.
    rewrite (In_dict_get _ _ _ (wf_prereqs _ Hwf) Hin). exact Hp.
  - destruct (dict_get c (prereqs m)) as [s|] eqn:E; [|contradiction].
    intros Hp. apply dict_get_In in E. exists (c, s). split; auto.
    simpl. apply in_map_iff. eauto.
Qed.

Lemma NoDup_edge_list m : well_formed m -> NoDup (edge_list m).
Proof.
  intros [_ Hk Hs _]. unfold edge_list.
  induction (prereqs m) as [|[c s] items IH]; simpl; [constructor|].
  inversion Hk as [|? ? Hc Hk']. subst.
  assert (Hsc : NoDup (map (fun p => (p, c)) s)).
  { apply Finite.Injective_map_NoDup.
    - intros a b E. now inversion E.
    - apply (Hs c s). simpl. auto. }
  assert (Hrest : NoDup (flat_map (fun cp => map (fun p => (p, fst cp)) (snd cp)) items)).
  { apply IH; auto. intros c' s' Hin. apply (Hs c' s'). simpl. auto. }
  apply NoDup_app; auto.
  intros [p c'] Hin Hin'. apply in_map_iff in Hin. destruct Hin as (p' & E & _).
  inversion E. subst. apply in_flat_map in Hin'.
  destruct Hin' as ([c2 s2] & Hin2 & Hp). simpl in Hp.
  apply in_map_iff in Hp. destruct Hp as (p2 & E2 & _). inversion E2. subst.
  apply Hc. change c' with (fst (c', s2)). now apply in_map.
Qed.

(** [build_graph] computes the adjacency and the indegree of the stored
    edges over the catalogue. *)
Lemma build_graph_spec m :
  well_formed m ->
  graph_spec (catalog m) (edge_list m) (fst (build_graph m)) (snd (build_graph m)).
Proof.
  intros Hwf. unfold build_graph. rewrite fold_edges_flat.
  fold (edge_list m). fold (catalog m).
  pose proof (graph_spec_edges (catalog m) (edge_list m) [] _ _
                (graph_spec_init (catalog m) (wf_courses _ Hwf))
                (NoDup_edge_list m Hwf)) as H.
  simpl in H.
  set (g := fold_left _ (edge_list m) _) in *. clearbody g.
  assert (Hall : forall l g, (forall c, In c l -> In c (catalog m)) ->
            graph_spec (catalog m) (edge_list m) (fst g) (snd g) ->
            graph_spec (catalog m) (edge_list m)
              (fst (fold_left build_course l g)) (snd (fold_left build_course l g))).
  { clear. induction l as [|c l IH]; intros g Hl Hg; simpl; auto.
    apply IH; [intros; apply Hl; simpl; auto|].
    destruct g as [adj ind]. apply graph_spec_course; auto. apply Hl. simpl. auto. }
  apply Hall; auto.
Qed.

(** On a closed model the nodes of the graph are the catalogue codes. *)
Lemma build_graph_nodes m :
  well_formed m -> prereqs_closed m ->
  forall c, In c (dict_keys (snd (build_graph m))) <-> In c (catalog m).
Proof.
  intros Hwf Hcl c. pose proof (build_graph_spec m Hwf) as Hg. split.
  - intros H. destruct (gs_only _ _ _ _ Hg _ H) as [Hb|([p c'] & Hin & Hor)]; auto.
    apply In_edge_list in Hin; auto.
    destruct (prereqs_of_closed _ _ _ Hcl Hin) as [H1 H2].
    simpl in Hor. destruct Hor; subst; auto.
  - apply (gs_base _ _ _ _ Hg).
Qed.

(** * Unlock count *)

Lemma fold_count {A} (f : A -> bool) l : forall n,
  fold_left (fun count v => if f v then (count + 1)%Z else count) l n =
  (n + Z.of_nat (List.length (filter f l)))%Z.
Proof.
  induction l as [|a l IH]; intros n; simpl.
  - lia.
  - rewrite IH. destruct (f a); simpl; lia.
Qed.

(** C10. [unlock_count(X)] is the number of direct dependents [Y] of [X]
    all of whose prerequisites other than [X] are completed: it is the
    length of a duplicate-free list of exactly those codes.  Neither the
    completion of [Y] or of [X] nor the candidacy of [X] enters. *)
Theorem unlock_count_spec (m : PMaPModel) (X : string) :
  well_formed m ->
  exists l,
    NoDup l /\
    (forall Y, In Y l <->
       is_prereq m X Y /\
       (forall p, is_prereq m p Y -> p <> X -> In p (passed m))) /\
    unlock_count m X = Z.of_nat (List.length l).
Proof.
  intros Hwf. pose proof (build_graph_spec m Hwf) as Hg.
  unfold unlock_count. destruct (build_graph m) as [adj ind]. simpl in Hg.
  rewrite (gs_adj _ _ _ _ Hg), fold_count. simpl.
  eexists. split; [|split; [|reflexivity]].
  - apply NoDup_filter, NoDup_succs, NoDup_edge_list, Hwf.
  - intros Y. rewrite filter_In, In_succs, In_edge_list by exact Hwf.
    rewrite forallb_forall. fold (prereqs_of m Y). split.
    + intros [H1 H2]. split; auto. intros p Hp Hne.
      apply set_mem_In, H2, In_set_diff. split; auto.
      simpl. intros [E|[]]. congruence.
    + intros [H1 H2]. split; auto. intros p Hp.
      apply In_set_diff in Hp. destruct Hp as [Hp Hx].
      apply set_mem_In, H2; auto. intros ->. apply Hx. simpl. auto.
Qed.

Lemma test_model_wf : well_formed test_model.
Proof. apply reachable_ok, reach_from_dict. Qed.

Lemma unlock_count_spec_witness :
  exists l,
    NoDup l /\
    (forall Y, In Y l <->
       is_prereq test_model "A" Y /\
       (forall p, is_prereq test_model p Y -> p <> "A" -> In p (passed test_model))) /\
    unlock_count test_model "A" = Z.of_nat (List.length l).
Proof.
  apply (unlock_count_spec test_model "A").
  apply reachable_ok, reach_from_dict.
Defined.

(** A completed dependent is still counted, and so is a dependent of a
    course that is itself completed. *)
Example unlock_count_counts_completed :
  unlock_count (snd (mark_passed "B" test_model)) "A" = 1%Z.
Proof. reflexivity. Qed.

(** * Term suggestion *)

Lemma keyed_snd {A K} (key : A -> result K) l : forall kl,
  keyed key l = Ok kl -> map snd kl = l.
Proof.
  induction l as [|x l IH]; simpl; intros kl H.
  - inversion H. reflexivity.
  - destruct (key x) as [k|e]; simpl in H; [|discriminate].
    destruct (keyed key l) as [r|e]; simpl in H; [|discriminate].
    inversion H. simpl. f_equal. now apply IH.
Qed.

Lemma keyed_total {A K} (key : A -> result K) l :
  (forall x, In x l -> exists k, key x = Ok k) -> exists kl, keyed key l = Ok kl.
Proof.
  induction l as [|x l IH]; simpl; intros H.
  - eauto.
  - destruct (H x) as (k & ->); auto. simpl.
    destruct IH as (kl & ->); auto. simpl. eauto.
Qed.

Lemma sorted_key_perm {A K} (le : K -> K -> bool) (key : A -> result K) l l' :
  sorted_key le key l = Ok l' -> Permutation l' l.
Proof.
  unfold sorted_key. destruct (keyed key l) as [kl|e] eqn:E; simpl; [|discriminate].
  intros H. inversion H. rewrite <- (keyed_snd key l kl E).
  apply Permutation_map, sorted_by_perm.
Qed.

Lemma sorted_key_total {A K} (le : K -> K -> bool) (key : A -> result K) l :
  (forall x, In x l -> exists k, key x = Ok k) -> exists l', sorted_key le key l = Ok l'.
Proof.
  intros H. unfold sorted_key. destruct (keyed_total key l H) as (kl & ->).
  simpl. eauto.
Qed.

Lemma priority_key_total m criterion c :
  In c (catalog m) -> exists k, priority_key m criterion c = Ok k.
Proof.
  intros H. unfold priority_key, dict_item.
  destruct (dict_get c (courses m)) eqn:E;
    [|apply dict_get_None in E; contradiction].
  destruct (String.eqb criterion "desbloqueo"); simpl; eauto.
  destruct (String.eqb criterion "creditos"); simpl; eauto.
  destruct (String.eqb criterion "nivel"); simpl; eauto.
Qed.

Lemma credit_sum_snoc m l c :
  credit_sum m (l ++ [c]) = (credit_sum m l + credits_of m c)%Z.
Proof.
  unfold credit_sum. induction l as [|a l IH]; simpl; [lia|]. rewrite IH. lia.
Qed.

Lemma greedy_total m cap : forall l acc,
  (forall c, In c l -> In c (catalog m)) -> exists sel, greedy m cap l acc = Ok sel.
Proof.
  induction l as [|c l IH]; intros [[chosen total] reasons] H; simpl.
  - eauto.
  - unfold dict_item. destruct (dict_get c (courses m)) eqn:E.
    + simpl. destruct (_ <=? _)%Z; apply IH; intros; apply H; simpl; auto.
    + apply dict_get_None in E. exfalso. apply E, H. simpl. auto.
Qed.

(** The running total of the greedy scan is the credit sum of the codes
    chosen so far and never passes the cap. *)
Lemma greedy_within_cap m cap : forall l chosen total reasons chosen' total' reasons',
  (total <= cap)%Z -> total = credit_sum m chosen ->
  greedy m cap l (chosen, total, reasons) = Ok (chosen', total', reasons') ->
  (total' <= cap)%Z /\ total' = credit_sum m chosen'.
Proof.
  induction l as [|c l IH]; intros chosen total reasons chosen' total' reasons' Hle Hsum H;
    simpl in H.
  - inversion H. subst. auto.
  - unfold dict_item in H. destruct (dict_get c (courses m)) as [crs|] eqn:E;
      simpl in H; [|discriminate].
    destruct (total + credits crs <=? cap)%Z eqn:Hc.
    + apply IH in H; auto.
      * now apply Z.leb_le.
      * rewrite credit_sum_snoc. unfold credits_of. rewrite E. lia.
    + apply IH in H; auto.
Qed.

(** [suggest_next_semester] returns on every closed, well-formed model. *)
Lemma suggest_total m cap criterion :
  well_formed m -> prereqs_closed m ->
  exists sel, suggest_next_semester m cap criterion = Ok sel.
Proof.
  intros Hwf Hcl. unfold suggest_next_semester, candidates.
  destruct (current_indegree_effective_spec m Hwf Hcl) as (indeg & E & K & G).
  rewrite E. simpl.
  set (cand := sorted _).
  assert (Hcand : forall c, In c cand -> In c (catalog m)).
  { intros c Hc. apply In_sorted, in_map_iff in Hc.
    destruct Hc as (cd & <- & Hin). apply filter_In in Hin.
    rewrite <- K. apply in_map, Hin. }
  destruct (sorted_key_total pkey_leb (priority_key m criterion) cand) as (l' & El).
  { intros c Hc. apply priority_key_total. auto. }
  rewrite El. simpl. apply greedy_total.
  intros c Hc. apply Hcand. eapply Permutation_in; [|exact Hc].
  eapply sorted_key_perm. exact El.
Qed.

(** C4. With a non-negative cap, whatever selection
    [suggest_next_semester] returns has a total within the cap, and the
    total is the sum of the credits of the chosen courses; on a closed,
    well-formed model the method does return a selection. *)
Theorem suggest_within_cap (m : PMaPModel) (credit_cap : Z) (criterion : string) :
  (0 <= credit_cap)%Z ->
  (forall chosen total reasons,
     suggest_next_semester m credit_cap criterion = Ok (chosen, total, reasons) ->
     (total <= credit_cap)%Z /\ total = credit_sum m chosen) /\
  (well_formed m -> prereqs_closed m ->
   exists sel, suggest_next_semester m credit_cap criterion = Ok sel).
Proof.
  intros Hcap. split.
  - intros chosen total reasons H. unfold suggest_next_semester in H.
    destruct (candidates m) as [cand|e]; simpl in H; [|discriminate].
    destruct (sorted_key _ _ cand) as [cs|e]; simpl in H; [|discriminate].
    apply (greedy_within_cap m credit_cap cs [] 0%Z [] chosen total reasons);
      [exact Hcap | reflexivity | exact H].
  - intros Hwf Hcl. now apply suggest_total.
Qed.

Lemma suggest_within_cap_witness :
  (forall chosen total reasons,
     suggest_next_semester (from_dict EXAMPLE_DATA) 8 "creditos" = Ok (chosen, total, reasons) ->
     (total <= 8)%Z /\ total = credit_sum (from_dict EXAMPLE_DATA) chosen) /\
  (well_formed (from_dict EXAMPLE_DATA) -> prereqs_closed (from_dict EXAMPLE_DATA) ->
   exists sel, suggest_next_semester (from_dict EXAMPLE_DATA) 8 "creditos" = Ok sel).
Proof.
  apply (suggest_within_cap (from_dict EXAMPLE_DATA) 8 "creditos"). lia.
Defined.

(** Spec scenario: cap 2, criterion [creditos], candidates [B] and [D] of
    one credit each: both are selected, total 2. *)
Example suggest_scenario :
  exists reasons,
    suggest_next_semester test_model 2 "creditos" = Ok (["B"; "D"], 2%Z, reasons).
Proof. eexists. reflexivity. Qed.

Lemma greedy_cap_zero m : forall l chosen reasons,
  (forall c, In c l -> In c (catalog m)) ->
  (forall k c, In (k, c) (courses m) -> (0 <= credits c)%Z) ->
  exists chosen' reasons',
    greedy m 0 l (chosen, 0%Z, reasons) = Ok (chosen', 0%Z, reasons') /\
    forall c, In c chosen' <-> In c chosen \/ (In c l /\ credits_of m c = 0%Z).
Proof.
  induction l as [|c l IH]; intros chosen reasons Hl Hpos; simpl.
  - exists chosen, reasons. split; auto. intros c. tauto.
  - unfold dict_item. destruct (dict_get c (courses m)) as [crs|] eqn:E.
    2:{ apply dict_get_None in E. exfalso. apply E, Hl. simpl. auto. }
    simpl. pose proof (Hpos _ _ (dict_get_In _ _ _ E)) as Hc.
    assert (Hcr : credits_of m c = credits crs) by (unfold credits_of; now rewrite E).
    assert (Hl' : forall x, In x l -> In x (catalog m)) by (intros; apply Hl; simpl; auto).
    destruct (credits crs <=? 0)%Z eqn:Hle.
    + apply Z.leb_le in Hle. assert (Hz : credits crs = 0%Z) by lia.
      rewrite Hz. simpl.
      destruct (IH (chosen ++ [c]) (reasons ++ [reason m c 0]) Hl' Hpos)
        as (ch & rs & Eg & Hin).
      exists ch, rs. split.
      { rewrite <- Eg. reflexivity. }
      intros x. rewrite Hin, in_app_iff. simpl. split.
      * intros [[H|[<-|[]]]|[H1 H2]]; auto. right. split; auto. congruence.
      * intros [H|[[<-|H1] H2]]; auto.
    + apply Z.leb_gt in Hle.
      destruct (IH chosen reasons Hl' Hpos) as (ch & rs & Eg & Hin).
      exists ch, rs. split; [exact Eg|].
      intros x. rewrite Hin. simpl. split.
      * intros [H|[H1 H2]]; auto.
      * intros [H|[[<-|H1] H2]]; auto. lia.
Qed.

(** C5, as the code has it.  On a model built by the public operations
    whose credits are not negative, a cap of 0 gives total 0 and selects
    exactly the candidates that have zero credits: the selection is empty
    when every candidate has a positive number of credits. *)
Theorem suggest_cap_zero (m : PMaPModel) (criterion : string) :
  reachable m ->
  (forall k c, In (k, c) (courses m) -> (0 <= credits c)%Z) ->
  exists cand chosen reasons,
    candidates m = Ok cand /\
    suggest_next_semester m 0 criterion = Ok (chosen, 0%Z, reasons) /\
    forall c, In c chosen <-> In c cand /\ credits_of m c = 0%Z.
Proof.
  intros Hr Hpos. apply reachable_ok in Hr. destruct Hr as [Hwf Hcl _ _].
  destruct (current_indegree_effective_spec m Hwf Hcl) as (indeg & E & K & G).
  unfold suggest_next_semester, candidates. rewrite E. simpl.
  set (cand := sorted _).
  assert (Hcand : forall c, In c cand -> In c (catalog m)).
  { intros c Hc. apply In_sorted, in_map_iff in Hc.
    destruct Hc as (cd & <- & Hin). apply filter_In in Hin.
    rewrite <- K. apply in_map, Hin. }
  destruct (sorted_key_total pkey_leb (priority_key m criterion) cand) as (l' & El).
  { intros c Hc. apply priority_key_total. auto. }
  rewrite El. simpl.
  pose proof (sorted_key_perm _ _ _ _ El) as Hperm.
  destruct (greedy_cap_zero m l' [] []) as (ch & rs & Eg & Hin); auto.
  { intros c Hc. apply Hcand. eapply Permutation_in; eauto. }
  exists cand, ch, rs. split; [reflexivity|]. split; [exact Eg|].
  intros c. rewrite Hin. simpl. split.
  - intros [[]|[H1 H2]]. split; auto. eapply Permutation_in; eauto.
  - intros [H1 H2]. right. split; auto.
    eapply Permutation_in; [symmetry|]; eauto.
Qed.

(** The model with the one edge [A -> B]: two placeholder courses. *)
Lemma suggest_cap_zero_witness :
  exists cand chosen reasons,
    candidates (snd (add_prereq "A" "B" new_model)) = Ok cand /\
    suggest_next_semester (snd (add_prereq "A" "B" new_model)) 0 "creditos"
      = Ok (chosen, 0%Z, reasons) /\
    forall c, In c chosen <->
      In c cand /\ credits_of (snd (add_prereq "A" "B" new_model)) c = 0%Z.
Proof.
  apply (suggest_cap_zero (snd (add_prereq "A" "B" new_model)) "creditos").
  - apply reach_add_prereq, reach_new.
  - intros k c H. simpl in H.
    destruct H as [H|[H|[]]]; inversion H; simpl; lia.
Defined.

(** C5 fails as stated: the placeholder [A] costs no credits, so it fits a
    cap of 0 and is selected. *)
Lemma suggest_cap_zero_counterexample :
  exists reasons,
    suggest_next_semester (snd (add_prereq "A" "B" new_model)) 0 "creditos"
      = Ok (["A"], 0%Z, reasons).
Proof. eexists. reflexivity. Qed.

(** * Serialisation round trip *)

Lemma dict_set_fresh {V} k (v : V) d :
  ~ In k (dict_keys d) -> dict_set k v d = d ++ [(k, v)].
Proof.
  induction d as [|[k' v'] d IH]; simpl; intros H; auto.
  destruct (String.eqb_spec k k') as [->|Hne].
  - exfalso. auto.
  - f_equal. apply IH. tauto.
Qed.

Lemma from_dict_courses_fold P S : forall l d0,
  NoDup (dict_keys d0 ++ map (fun e => Str.upper (e_code e)) l) ->
  fold_left from_dict_course l (mkModel d0 P S) =
  mkModel
    (d0 ++ map (fun e => (Str.upper (e_code e),
                          mkCourse (Str.upper (e_code e)) (e_name e) (e_credits e))) l)
    P S.
Proof.
  induction l as [|e l IH]; intros d0 Hnd; simpl.
  - now rewrite app_nil_r.
  - unfold from_dict_course at 2. unfold set_courses. simpl.
    rewrite dict_set_fresh.
    + rewrite IH.
      * now rewrite <- app_assoc.
      * unfold dict_keys. rewrite map_app. simpl. rewrite <- app_assoc. exact Hnd.
    + apply NoDup_remove_2 in Hnd. intros H. apply Hnd, in_or_app. auto.
Qed.

Lemma ensure_course_known k m : In k (catalog m) -> ensure_course k m = m.
Proof.
  intros H. unfold ensure_course. apply dict_mem_In in H. now rewrite H.
Qed.

Lemma from_dict_edges_courses : forall l m,
  (forall p c, In (p, c) l ->
     In (Str.upper p) (catalog m) /\ In (Str.upper c) (catalog m)) ->
  courses (fold_left from_dict_edge l m) = courses m.
Proof.
  induction l as [|[p c] l IH]; intros m H; simpl; auto.
  assert (E : courses (from_dict_edge m (p, c)) = courses m).
  { rewrite from_dict_edge_eq. simpl. destruct (H p c) as [Hp Hc]; [simpl; auto|].
    rewrite (ensure_course_known (Str.upper p)) by exact Hp.
    rewrite (ensure_course_known (Str.upper c)) by exact Hc. reflexivity. }
  rewrite IH.
  - exact E.
  - intros p' c' Hin. unfold catalog. rewrite E. apply H. simpl. auto.
Qed.

Lemma from_dict_edges_prereqs : forall l m p c,
  is_prereq (fold_left from_dict_edge l m) p c <->
  is_prereq m p c \/
  In (p, c) (map (fun pc => (Str.upper (fst pc), Str.upper (snd pc))) l).
Proof.
  induction l as [|[p0 c0] l IH]; intros m p c; simpl.
  - tauto.
  - rewrite IH. rewrite from_dict_edge_eq. simpl.
    unfold is_prereq at 1.
    match goal with |- context [prereqs_of ?m' c] =>
      rewrite (prereqs_of_add m m' (Str.upper c0) (Str.upper p0) c) by reflexivity end.
    destruct (String.eqb_spec c (Str.upper c0)) as [->|Hne].
    + rewrite In_set_add. unfold is_prereq. split.
      * intros [[->|H]|H]; auto.
      * intros [H|[H|H]]; auto. inversion H. auto.
    + unfold is_prereq. split.
      * intros [H|H]; auto.
      * intros [H|[H|H]]; auto. inversion H. congruence.
Qed.

Lemma from_dict_courses_prereqs l m :
  prereqs (fold_left from_dict_course l m) = prereqs m.
Proof.
  revert m. induction l as [|e l IH]; intros m; simpl; auto.
  now rewrite IH.
Qed.

Lemma course_eta c : mkCourse (code c) (name c) (credits c) = c.
Proof. now destruct c. Qed.

Section RoundTrip.
Variable m : PMaPModel.
Hypothesis Hok : model_ok m.

Let d1 := to_dict m.

Lemma roundtrip_course_fold :
  fold_left from_dict_course (d_courses d1) new_model = mkModel (courses m) [] [].
Proof using Hok.
  destruct Hok as [Hwf Hcl Hk [Hu _]].
  assert (Hcode : forall k c, In (k, c) (courses m) -> Str.upper (code c) = k).
  { intros k c Hin. rewrite (Hk _ _ Hin). apply Hu.
    change k with (fst (k, c)). now apply in_map. }
  unfold new_model. rewrite from_dict_courses_fold; simpl.
  - f_equal. unfold dict_values. rewrite !map_map. simpl.
    rewrite <- (map_id (courses m)) at 2. apply map_ext_in.
    intros [k c] Hin. simpl. rewrite (Hcode _ _ Hin).
    now rewrite <- (Hk _ _ Hin), course_eta.
  - unfold dict_values. rewrite !map_map. simpl.
    erewrite map_ext_in; [apply (wf_courses _ Hwf)|].
    intros [k c] Hin. simpl. now apply Hcode.
Qed.

Lemma roundtrip_edges_known p c :
  In (p, c) (d_prerequisites d1) ->
  In p (catalog m) /\ In c (catalog m) /\ Str.upper p = p /\ Str.upper c = c.
Proof using Hok.
  destruct Hok as [Hwf Hcl Hk [Hu _]]. intros Hin.
  apply (In_edge_list m p c Hwf) in Hin.
  destruct (prereqs_of_closed _ _ _ Hcl Hin) as [H1 H2]. auto.
Qed.

Lemma roundtrip_courses : courses (from_dict d1) = courses m.
Proof using Hok.
  unfold from_dict.
  change (courses (set_passed ?x ?s)) with (courses x).
  rewrite from_dict_edges_courses.
  - now rewrite roundtrip_course_fold.
  - intros p c Hin. rewrite roundtrip_course_fold. unfold catalog. simpl.
    destruct (roundtrip_edges_known p c Hin) as (H1 & H2 & -> & ->). auto.
Qed.

Lemma roundtrip_prereqs p c : is_prereq (from_dict d1) p c <-> is_prereq m p c.
Proof using Hok.
  unfold from_dict.
  change (is_prereq (set_passed ?x ?s) p c) with (is_prereq x p c).
  rewrite from_dict_edges_prereqs.
  unfold is_prereq at 1, prereqs_of. rewrite from_dict_courses_prereqs. simpl.
  rewrite in_map_iff. split.
  - intros [[]|([p' c'] & E & Hin)]. simpl in E.
    destruct (roundtrip_edges_known p' c' Hin) as (_ & _ & Hp & Hc).
    rewrite Hp, Hc in E. inversion E. subst.
    apply (In_edge_list m p c (ok_wf _ Hok)). exact Hin.
  - intros H. right. exists (p, c). simpl.
    apply (In_edge_list m p c (ok_wf _ Hok)) in H. split; auto.
    destruct (roundtrip_edges_known p c H) as (_ & _ & -> & ->). reflexivity.
Qed.

Lemma roundtrip_passed c : In c (passed (from_dict d1)) <-> In c (passed m).
Proof using Hok.
  unfold from_dict. simpl. rewrite In_set_of_list, in_map_iff.
  destruct Hok as [_ _ _ [_ Hu]]. split.
  - intros (x & <- & Hin). rewrite In_sorted in Hin. now rewrite Hu.
  - intros H. exists c. split; auto. now rewrite In_sorted.
Qed.
End RoundTrip.

(** C7. For a model built by the public operations, serialising,
    deserialising and serialising again gives the same courses (code, name
    and credits), the same edges and the same completed codes as the first
    serialisation, each compared as a collection without order. *)
Theorem roundtrip (m : PMaPModel) :
  reachable m ->
  let d1 := to_dict m in
  let d2 := to_dict (from_dict d1) in
  Permutation (d_courses d2) (d_courses d1) /\
  Permutation (d_prerequisites d2) (d_prerequisites d1) /\
  Permutation (d_passed d2) (d_passed d1).
Proof.
  intros Hr d1 d2. pose proof (reachable_ok m Hr) as Hok.
  pose proof (reachable_ok _ (reach_from_dict d1)) as Hok2.
  split; [|split].
  - assert (E : forall a b, courses a = courses b ->
                  d_courses (to_dict a) = d_courses (to_dict b))
      by (intros a b H; unfold to_dict; simpl; now rewrite H).
    unfold d2, d1. rewrite (E _ m (roundtrip_courses m Hok)). reflexivity.
  - apply NoDup_Permutation.
    + apply (NoDup_edge_list _ (ok_wf _ Hok2)).
    + apply (NoDup_edge_list _ (ok_wf _ Hok)).
    + intros [p c]. change (d_prerequisites d2) with (edge_list (from_dict d1)).
      change (d_prerequisites d1) with (edge_list m).
      rewrite (In_edge_list _ p c (ok_wf _ Hok2)), (In_edge_list _ p c (ok_wf _ Hok)).
      apply (roundtrip_prereqs m Hok).
  - unfold d2, to_dict. simpl. apply NoDup_Permutation.
    + eapply Permutation_NoDup; [symmetry; apply sorted_by_perm|].
      apply (wf_passed _ (ok_wf _ Hok2)).
    + eapply Permutation_NoDup; [symmetry; apply sorted_by_perm|].
      apply (wf_passed _ (ok_wf _ Hok)).
    + intros c. rewrite !In_sorted. apply (roundtrip_passed m Hok).
Qed.

Lemma roundtrip_witness :
  let m := add_course " eda3 " " Grafos " 4 (from_dict EXAMPLE_DATA) in
  let d1 := to_dict m in
  let d2 := to_dict (from_dict d1) in
  Permutation (d_courses d2) (d_courses d1) /\
  Permutation (d_prerequisites d2) (d_prerequisites d1) /\
  Permutation (d_passed d2) (d_passed d1).
Proof.
  apply (roundtrip (add_course " eda3 " " Grafos " 4 (from_dict EXAMPLE_DATA))).
  apply reach_add_course, reach_from_dict.
Defined.

(** * Kahn's algorithm *)

Lemma relax_spec : forall vs indeg q,
  NoDup vs -> (forall v, In v vs -> In v (dict_keys indeg)) ->
  exists indeg',
    relax vs indeg q =
      Ok (indeg', q ++ filter (fun v => (dict_get_default v 0 indeg =? 1)%Z) vs) /\
    dict_keys indeg' = dict_keys indeg /\
    forall x, dict_get x indeg' =
      if set_mem x vs then option_map Z.pred (dict_get x indeg) else dict_get x indeg.
Proof.
  induction vs as [|v vs IH]; intros indeg q Hnd Hin.
  - exists indeg. simpl. rewrite app_nil_r. auto.
  - inversion Hnd as [|? ? Hv Hnd']. subst.
    cbn [relax]. unfold dict_item at 1.
    destruct (dict_get v indeg) as [d|] eqn:Ed.
    2:{ apply dict_get_None in Ed. exfalso. apply Ed, Hin. simpl. auto. }
    cbn [bind]. unfold dict_item. rewrite dict_get_set_eq. cbn [bind].
    set (indeg1 := dict_set v (d - 1)%Z indeg).
    assert (Hk1 : dict_keys indeg1 = dict_keys indeg).
    { apply dict_keys_set_mem. eapply dict_get_key; eauto. }
    assert (Hin1 : forall x, In x vs -> In x (dict_keys indeg1)).
    { intros x Hx. rewrite Hk1. apply Hin. simpl. auto. }
    assert (Hflt : filter (fun x => (dict_get_default x 0 indeg1 =? 1)%Z) vs =
                   filter (fun x => (dict_get_default x 0 indeg =? 1)%Z) vs).
    { apply filter_ext_in. intros x Hx. unfold indeg1.
      rewrite dict_get_default_set.
      destruct (String.eqb_spec x v); [congruence|reflexivity]. }
    assert (Hget : forall indeg', 
      (forall x, dict_get x indeg' =
         if set_mem x vs then option_map Z.pred (dict_get x indeg1)
         else dict_get x indeg1) ->
      forall x, dict_get x indeg' =
         if set_mem x (v :: vs) then option_map Z.pred (dict_get x indeg)
         else dict_get x indeg).
    { intros indeg' H x. rewrite H. simpl. unfold indeg1.
      destruct (String.eqb_spec x v) as [->|Hne]; simpl.
      - apply set_mem_false in Hv. rewrite Hv, dict_get_set_eq, Ed. reflexivity.
      - rewrite dict_get_set_neq by congruence. reflexivity. }
    cbn [filter].
    assert (Edv : dict_get_default v 0%Z indeg = d)
      by (unfold dict_get_default; now rewrite Ed).
    rewrite Edv.
    replace (d =? 1)%Z with (d - 1 =? 0)%Z
      by (destruct (Z.eqb_spec (d - 1) 0), (Z.eqb_spec d 1); auto; lia).
    destruct (d - 1 =? 0)%Z.
    + destruct (IH indeg1 (q ++ [v]) Hnd' Hin1) as (indeg' & E1 & E2 & E3).
      exists indeg'. rewrite E1, Hflt, <- app_assoc. simpl.
      split; [reflexivity|]. split; [congruence|]. now apply Hget.
    + destruct (IH indeg1 q Hnd' Hin1) as (indeg' & E1 & E2 & E3).
      exists indeg'. rewrite E1, Hflt.
      split; [reflexivity|]. split; [congruence|]. now apply Hget.
Qed.

Lemma set_mem_snoc x l u : set_mem x (l ++ [u]) = set_mem x l || String.eqb x u.
Proof.
  unfold set_mem. rewrite existsb_app. simpl. now rewrite orb_false_r.
Qed.

Lemma filter_out_snoc l order u :
  NoDup l -> ~ In u order ->
  (List.length (filter (fun x => negb (set_mem x (order ++ [u]))) l)
   + (if set_mem u l then 1 else 0)
   = List.length (filter (fun x => negb (set_mem x order)) l))%nat.
Proof.
  intros Hnd Hu. induction Hnd as [|a l Ha Hnd IH]; simpl; auto.
  rewrite set_mem_snoc.
  destruct (String.eqb_spec a u) as [->|Hne].
  - rewrite String.eqb_refl, orb_true_r. simpl.
    apply set_mem_false in Hu. rewrite Hu. simpl.
    apply set_mem_false in Ha. rewrite Ha in IH. lia.
  - destruct (String.eqb_spec u a); [congruence|]. simpl.
    rewrite orb_false_r. destruct (set_mem a order); simpl; lia.
Qed.

Lemma snoc_split {A} (l1 l2 order : list A) (v u : A) :
  l1 ++ v :: l2 = order ++ [u] ->
  (l2 = [] /\ l1 = order /\ v = u) \/
  exists l2', l2 = l2' ++ [u] /\ order = l1 ++ v :: l2'.
Proof.
  intros H. destruct l2 as [|x l2] using rev_ind.
  - left. change (l1 ++ [v]) with (l1 ++ [v]) in H.
    apply app_inj_tail in H. destruct H. auto.
  - clear IHl2. right. exists l2.
    change (l1 ++ v :: l2 ++ [x]) with (l1 ++ (v :: l2) ++ [x]) in H.
    rewrite app_assoc in H. apply app_inj_tail in H. destruct H as [H ->]. auto.
Qed.

Section Kahn.
Variables (base : list string) (es : list (string * string)).
Variables (adj : dict (list string)) (ind : dict Z).
Hypothesis Hg : graph_spec base es adj ind.
Hypothesis Hes : NoDup es.

Let nodes := dict_keys ind.

Lemma pending_nonneg order v : (0 <= pending es order v)%Z.
Proof. unfold pending. lia. Qed.

Lemma pending_zero order v :
  pending es order v = 0%Z <-> forall u, In (u, v) es -> In u order.
Proof using.
  unfold pending. split.
  - intros H u Hu. apply In_preds in Hu.
    assert (E : filter (fun u => negb (set_mem u order)) (preds es v) = [])
      by (apply length_zero_iff_nil; lia).
    destruct (set_mem u order) eqn:Em; [now apply set_mem_In|].
    assert (Hf : In u (filter (fun u => negb (set_mem u order)) (preds es v)))
      by (apply filter_In; rewrite Em; auto).
    rewrite E in Hf. contradiction.
  - intros H.
    assert (E : filter (fun u => negb (set_mem u order)) (preds es v) = []).
    { destruct (filter _ _) as [|x l] eqn:E; auto.
      assert (Hx : In x (x :: l)) by (simpl; auto).
      rewrite <- E in Hx. apply filter_In in Hx. destruct Hx as [Hx1 Hx2].
      apply In_preds, H, set_mem_In in Hx1. rewrite Hx1 in Hx2. discriminate. }
    now rewrite E.
Qed.

Lemma pending_snoc order u v :
  ~ In u order ->
  pending es (order ++ [u]) v =
  (pending es order v - (if set_mem v (succs es u) then 1 else 0))%Z.
Proof using Hes.
  intros Hu. unfold pending.
  pose proof (filter_out_snoc (preds es v) order u (NoDup_preds es v Hes) Hu) as H.
  assert (E : set_mem u (preds es v) = set_mem v (succs es u)).
  { destruct (set_mem v (succs es u)) eqn:E.
    - apply set_mem_In, In_succs in E. now apply set_mem_In, In_preds.
    - apply set_mem_false in E. apply set_mem_false. now rewrite In_preds, <- In_succs. }
  rewrite E in H. destruct (set_mem v (succs es u)); lia.
Qed.

Lemma kahn_init :
  kahn_inv es nodes (map fst (filter (fun cd => (snd cd =? 0)%Z) ind)) [] ind.
Proof using Hg.
  assert (Hdeg : forall v, In v nodes -> dict_get v ind = Some (pending es [] v)).
  { intros v Hv. pose proof (gs_ind _ _ _ _ Hg v) as H.
    unfold dict_get_default in H.
    destruct (dict_get v ind) eqn:E; [|apply dict_get_None in E; contradiction].
    subst. unfold pending. f_equal. f_equal.
    rewrite (filter_ext _ (fun _ => true)) by reflexivity.
    clear. induction (preds es v); simpl; auto. }
  constructor; simpl; auto.
  - apply NoDup_map_inv with (f := fun x => x). rewrite map_id.
    pose proof (gs_nodup _ _ _ _ Hg) as Hn. fold nodes in Hn. unfold nodes, dict_keys in *.
    clear - Hn. induction ind as [|[k d] l IH]; simpl in *; [constructor|].
    inversion Hn. subst. destruct (d =? 0)%Z; simpl; auto.
    constructor; auto. intros H. apply in_map_iff in H.
    destruct H as (x & <- & Hx). apply filter_In in Hx. destruct Hx as [Hx _].
    apply H1. now apply in_map.
  - intros x Hx. apply in_map_iff in Hx. destruct Hx as (cd & <- & Hx).
    apply filter_In in Hx. apply in_map, Hx.
  - intros v Hv. pose proof (Hdeg v Hv) as Hd. rewrite in_map_iff. split.
    + intros ([k d] & <- & Hin).
      apply filter_In in Hin. destruct Hin as [Hin Hz]. simpl in *.
      apply In_dict_get in Hin; [|apply (gs_nodup _ _ _ _ Hg)].
      apply Z.eqb_eq in Hz. congruence.
    + intros Hz. exists (v, 0%Z). split; auto. apply filter_In. split; auto.
      apply dict_get_In. now rewrite Hd, Hz.
  - intros l1 v l2 H. destruct l1; discriminate.
Qed.

Lemma kahn_step u q order indeg :
  kahn_inv es nodes (u :: q) order indeg ->
  exists indeg' q',
    relax (dict_get_default u [] adj) indeg q = Ok (indeg', q') /\
    kahn_inv es nodes q' (order ++ [u]) indeg'.
Proof using Hg Hes.
  intros [Hnd Hn Hk Hd Hz Ht].
  assert (Hu : ~ In u order).
  { apply NoDup_remove_2 in Hnd. intros H. apply Hnd, in_or_app. auto. }
  assert (Hun : In u nodes) by (apply Hn, in_or_app; simpl; auto).
  rewrite (gs_adj _ _ _ _ Hg).
  assert (Hsn : forall v, In v (succs es u) -> In v nodes).
  { intros v Hv. apply In_succs in Hv. now destruct (gs_ends _ _ _ _ Hg _ _ Hv). }
  destruct (relax_spec (succs es u) indeg q (NoDup_succs es u Hes)) as (indeg' & E & K & G).
  { intros v Hv. rewrite Hk. auto. }
  exists indeg'. eexists. split; [exact E|].
  set (newly := filter (fun v => (dict_get_default v 0 indeg =? 1)%Z) (succs es u)).
  assert (Hnew : forall v, In v newly <-> In v (succs es u) /\ pending es order v = 1%Z).
  { intros v. unfold newly. rewrite filter_In. split; intros [H1 H2]; split; auto.
    - apply Z.eqb_eq in H2. unfold dict_get_default in H2.
      rewrite (Hd v (Hsn v H1)) in H2. exact H2.
    - apply Z.eqb_eq. unfold dict_get_default. now rewrite (Hd v (Hsn v H1)). }
  assert (Happ : forall v, In v ((order ++ [u]) ++ q ++ newly) <->
                           In v (order ++ u :: q) \/ In v newly).
  { intros v. rewrite !in_app_iff. simpl. tauto. }
  constructor.
  - rewrite app_assoc. apply NoDup_app.
    + now rewrite <- app_assoc.
    + apply NoDup_filter, NoDup_succs, Hes.
    + intros x Hx Hx'. rewrite <- app_assoc in Hx. simpl in Hx.
      apply Hnew in Hx'. destruct Hx' as [Hs Hp].
      apply (Hz x (Hsn x Hs)) in Hx. lia.
  - intros x Hx. apply Happ in Hx. destruct Hx as [Hx|Hx]; auto.
    apply Hnew in Hx. apply Hsn, Hx.
  - congruence.
  - intros v Hv. rewrite G, (Hd v Hv), pending_snoc by exact Hu.
    destruct (set_mem v (succs es u)); simpl; f_equal; lia.
  - intros v Hv. rewrite Happ, pending_snoc by exact Hu.
    pose proof (pending_nonneg order v) as Hp0.
    pose proof (pending_nonneg (order ++ [u]) v) as Hp1.
    rewrite pending_snoc in Hp1 by exact Hu.
    rewrite (Hz v Hv), Hnew.
    destruct (set_mem v (succs es u)) eqn:Em.
    + apply set_mem_In in Em. split; [intros [H|[_ H]]; lia|]. intros H. right. split; auto. lia.
    + apply set_mem_false in Em. split; [intros [H|[H _]]; [lia|contradiction]|].
      intros H. left. lia.
  - intros l1 v l2 H p Hp. symmetry in H. apply snoc_split in H.
    destruct H as [(_ & -> & ->)|(l2' & _ & H)].
    + assert (Hpz : pending es order u = 0%Z) by (apply Hz; auto; apply in_or_app; simpl; auto).
      now apply (pending_zero order u).
    + eapply Ht; eauto.
Qed.

Lemma kahn_spec : forall fuel q order indeg,
  kahn_inv es nodes q order indeg ->
  (List.length nodes <= fuel + List.length order)%nat ->
  exists order' indeg',
    kahn fuel adj q order indeg = Ok (order', indeg') /\
    kahn_inv es nodes [] order' indeg'.
Proof using Hg Hes.
  induction fuel as [|fuel IH]; intros q order indeg Hinv Hfuel.
  - destruct q as [|u q]; simpl; [eauto|].
    exfalso. destruct Hinv as [Hnd Hn _ _ _ _].
    pose proof (NoDup_incl_length Hnd Hn) as Hlen.
    rewrite length_app in Hlen. simpl in *. lia.
  - destruct q as [|u q]; simpl; [eauto|].
    destruct (kahn_step u q order indeg Hinv) as (indeg' & q' & E & Hinv').
    rewrite E. simpl. apply IH; auto.
    rewrite length_app. simpl. lia.
Qed.
End Kahn.

(** * Paths, chains and cycles *)

Section Paths.
Variable E : string -> string -> Prop.

Lemma path_trans x y z : path E x y -> path E y z -> path E x z.
Proof.
  induction 1 as [u v H|u w v H Hp IH]; intros Hz.
  - eapply path_step; eauto.
  - eapply path_step; eauto.
Qed.

Lemma chain_path x l y : chain E (x :: l) -> In y l -> path E x y.
Proof.
  revert x. induction l as [|a l IH]; intros x Hc Hy; [contradiction|].
  inversion Hc as [| |? ? ? Hxa Hc']. subst.
  destruct Hy as [->|Hy].
  - now apply path_edge.
  - eapply path_step; eauto.
Qed.

Lemma chain_tail x l : chain E (x :: l) -> chain E l.
Proof.
  intros H. inversion H; subst; auto. constructor.
Qed.

Lemma chain_NoDup_or_cycle l : chain E l -> NoDup l \/ exists x, path E x x.
Proof.
  induction l as [|a l IH]; intros Hc.
  - left. constructor.
  - destruct (IH (chain_tail _ _ Hc)) as [Hnd|Hcy]; auto.
    destruct (in_dec string_dec a l) as [Hin|Hout].
    + right. exists a. eapply chain_path; eauto.
    + left. now constructor.
Qed.

(** A non-empty set of codes inside a finite list, each of whose members
    has a predecessor in the set, contains a cycle. *)
Section Descent.
Variable S : string -> Prop.
Variable nodes : list string.
Hypothesis S_nodes : forall v, S v -> In v nodes.
Hypothesis S_pred : forall v, S v -> exists u, S u /\ E u v.

Lemma long_chain v n :
  S v -> exists l, List.length l = Datatypes.S n /\ chain E l /\ forall x, In x l -> S x.
Proof using S_pred.
  intros Hv. induction n as [|n IH].
  - exists [v]. repeat split; [constructor|]. intros x [<-|[]]. exact Hv.
  - destruct IH as (l & Hlen & Hc & Hs).
    destruct l as [|x l]; [discriminate|].
    destruct (S_pred x) as (u & Hu & Hux); [apply Hs; simpl; auto|].
    exists (u :: x :: l). split; [simpl in *; lia|]. split.
    + now constructor.
    + intros y [<-|Hy]; auto.
Qed.

Lemma descent_cycle v : S v -> exists x, path E x x.
Proof using S_nodes S_pred.
  intros Hv. destruct (long_chain v (List.length nodes) Hv) as (l & Hlen & Hc & Hs).
  destruct (chain_NoDup_or_cycle l Hc) as [Hnd|Hcy]; auto.
  exfalso. assert (Hincl : incl l nodes) by (intros x Hx; auto).
  pose proof (NoDup_incl_length Hnd Hincl). lia.
Qed.
End Descent.

(** In a list where every predecessor of a member stands before it, paths
    lead forward; hence no cycle goes through a member. *)
Section Topological.
Variable order : list string.
Hypothesis Htopo :
  forall l1 v l2, order = l1 ++ v :: l2 -> forall u, E u v -> In u l1.

Lemma path_before x y : path E x y -> In y order -> before x y order.
Proof using Htopo.
  induction 1 as [u v H|u w v H Hp IH]; intros Hy.
  - apply in_split in Hy. destruct Hy as (l1 & l2 & ->).
    exists l1, l2. split; auto. eapply Htopo; eauto.
  - destruct (IH Hy) as (l1 & l2 & -> & Hw).
    exists l1, l2. split; auto.
    apply in_split in Hw. destruct Hw as (a & b & ->).
    apply in_or_app. left.
    apply (Htopo a w (b ++ v :: l2)); auto.
    now rewrite <- app_assoc.
Qed.

Lemma topological_no_cycle x : NoDup order -> In x order -> ~ path E x x.
Proof using Htopo.
  intros Hnd Hx Hp. destruct (path_before x x Hp Hx) as (l1 & l2 & -> & Hin).
  apply NoDup_remove_2 in Hnd. apply Hnd, in_or_app. auto.
Qed.
End Topological.
End Paths.

Lemma path_impl (E1 E2 : string -> string -> Prop) x y :
  (forall u v, E1 u v -> E2 u v) -> path E1 x y -> path E2 x y.
Proof.
  intros H. induction 1; [apply path_edge|eapply path_step]; eauto.
Qed.

Lemma chain_impl (E1 E2 : string -> string -> Prop) l :
  (forall u v, E1 u v -> E2 u v) -> chain E1 l -> chain E2 l.
Proof.
  intros H. induction 1; constructor; auto.
Qed.

Lemma path_flip (E : string -> string -> Prop) x y :
  path E x y -> path (fun a b => E b a) y x.
Proof.
  induction 1 as [u v H|u w v H Hp IH].
  - now apply path_edge.
  - eapply path_trans; [exact IH|]. now apply path_edge.
Qed.

Lemma chain_snoc (E : string -> string -> Prop) l a b :
  chain E (l ++ [a]) -> E a b -> chain E ((l ++ [a]) ++ [b]).
Proof.
  induction l as [|x l IH]; simpl; intros Hc Hab.
  - repeat constructor. exact Hab.
  - destruct l as [|y l]; simpl in *.
    + inversion Hc; subst. repeat constructor; auto.
    + inversion Hc; subst. constructor; auto.
Qed.

(** * Depth-first search for a cycle *)

Section ParentChain.
Variable es : list (string * string).

Lemma parent_chain_set parent v u l :
  ~ In v l -> parent_chain es parent l -> parent_chain es (dict_set v u parent) l.
Proof.
  intros Hv H. induction H as [|x|x y l Hx He Hc IH]; try constructor; auto.
  - rewrite dict_get_set_neq; auto. intros ->. apply Hv. simpl. auto.
  - apply IH. intros H. apply Hv. simpl. auto.
Qed.

Lemma parent_chain_tail parent x l :
  parent_chain es parent (x :: l) -> parent_chain es parent l.
Proof. intros H. inversion H; subst; auto. constructor. Qed.

Lemma parent_chain_prefix parent l1 l2 :
  parent_chain es parent (l1 ++ l2) -> parent_chain es parent l1.
Proof.
  induction l1 as [|x l1 IH]; simpl; intros H; [constructor|].
  destruct l1 as [|y l1]; [constructor|].
  simpl in *. inversion H; subst. constructor; auto.
Qed.

Lemma parent_chain_keys parent w v rest :
  parent_chain es parent (w ++ v :: rest) -> forall x, In x w -> In x (dict_keys parent).
Proof.
  induction w as [|a w IH]; simpl; intros H x Hx; [contradiction|].
  destruct Hx as [->|Hx].
  - destruct w; simpl in H; inversion H; subst; eapply dict_get_key; eauto.
  - eapply IH; eauto. eapply parent_chain_tail; eauto.
Qed.

Lemma parent_chain_rev parent l :
  parent_chain es parent l -> chain (fun a b => In (a, b) es) (rev l).
Proof.
  induction 1 as [|x|x y l Hx He Hc IH]; simpl; try constructor.
  simpl in IH. now apply chain_snoc.
Qed.

Lemma walk_parents_spec parent v : forall w rest acc fuel,
  parent_chain es parent (w ++ v :: rest) -> ~ In v w ->
  (List.length w <= fuel)%nat ->
  walk_parents fuel parent v (hd v w) acc = Ok (acc ++ w).
Proof.
  induction w as [|x w IH]; intros rest acc fuel Hc Hv Hf.
  - simpl. destruct fuel; simpl; rewrite String.eqb_refl, app_nil_r; reflexivity.
  - simpl in Hf. destruct fuel as [|fuel]; [lia|].
    cbn [walk_parents hd].
    destruct (String.eqb_spec x v) as [->|Hne]; [exfalso; apply Hv; simpl; auto|].
    assert (Hnext : dict_get x parent = Some (hd v w)).
    { destruct w; simpl in Hc; inversion Hc; subst; auto. }
    unfold dict_item. rewrite Hnext. cbn [bind].
    rewrite (IH rest (acc ++ [x]) fuel).
    + now rewrite <- app_assoc.
    + eapply parent_chain_tail; eauto.
    + intros H. apply Hv. simpl. auto.
    + lia.
Qed.
End ParentChain.

Section DFSProof.
Variable es : list (string * string).
Variable adj : dict (list string).
Variable indeg : dict Z.
Variable nodes : list string.
Variable R : string -> Prop.
Variable depth : nat.
Hypothesis Hadj : forall u, dict_get_default u [] adj = succs es u.
Hypothesis Hdeg : forall u v, In (u, v) es ->
  exists d, dict_get v indeg = Some d /\ ((0 <? d)%Z = true <-> R v).
Hypothesis HR : forall v, R v -> In v nodes.
Hypothesis Hdepth : (List.length nodes < depth)%nat.

(** A back edge [u -> v] into the active path yields a cycle. *)
Lemma back_edge_cycle parent u pth v :
  parent_chain es parent (u :: pth) -> NoDup (u :: pth) ->
  In v (u :: pth) -> In (u, v) es ->
  exists path,
    walk_parents (List.length parent) parent v u [v] = Ok path /\
    cycle_of es (rev (path ++ [v])).
Proof.
  intros Hc Hnd Hv He.
  apply in_split in Hv. destruct Hv as (w & rest & Hsplit).
  rewrite Hsplit in Hc, Hnd.
  assert (Hvw : ~ In v w).
  { apply NoDup_remove_2 in Hnd. intros H. apply Hnd, in_or_app. auto. }
  assert (Hu : u = hd v w).
  { destruct w; simpl in Hsplit; inversion Hsplit; reflexivity. }
  assert (Hlen : (List.length w <= List.length parent)%nat).
  { assert (Hw : NoDup w) by (eapply NoDup_app_remove_r; eauto).
    assert (Hincl : incl w (dict_keys parent))
      by (intros x Hx; eapply parent_chain_keys; eauto).
    pose proof (NoDup_incl_length Hw Hincl) as Hl.
    unfold dict_keys in Hl. now rewrite length_map in Hl. }
  exists ([v] ++ w). split.
  - rewrite Hu. eapply walk_parents_spec; eauto.
  - split.
    + exists v, (rev w). simpl. rewrite rev_app_distr. reflexivity.
    + change (([v] ++ w) ++ [v]) with (v :: (w ++ [v])).
      cbn [rev].
      assert (Hpc : parent_chain es parent (w ++ [v])).
      { apply parent_chain_prefix with (l2 := rest). now rewrite <- app_assoc. }
      apply parent_chain_rev in Hpc.
      assert (Hhead : exists t, w ++ [v] = u :: t).
      { destruct w as [|a w]; simpl in *.
        - exists []. now rewrite Hu.
        - exists (w ++ [v]). now rewrite Hu. }
      destruct Hhead as (t & Ht). rewrite Ht in *. cbn [rev] in *.
      now apply chain_snoc.
Qed.

Section Loop.
Variable rec : string -> dfs_state -> result (bool * dfs_state).
Variable fuel : nat.
Hypothesis Hrec : forall v st pth fin,
  dfs_inv es nodes R st pth fin -> ~ In v (visited st) -> R v ->
  parent_chain es (parent st) (v :: pth) ->
  (List.length nodes < fuel + List.length pth + List.length fin)%nat ->
  dfs_post es nodes R pth fin v (rec v st).

Variables (u : string) (pth : list string).

Lemma dfs_loop_spec : forall vs st fin,
  dfs_inv es nodes R st (u :: pth) fin ->
  (forall v, In v vs -> In (u, v) es) ->
  (forall v, In (u, v) es -> R v -> In v vs \/ In v fin) ->
  (List.length nodes < fuel + Datatypes.S (List.length pth) + List.length fin)%nat ->
  dfs_post es nodes R pth fin u (dfs_loop indeg rec u vs st).
Proof.
  induction vs as [|v vs IH]; intros st fin Hinv Hvs Hdone Hfuel.
  - (* the loop is over: [u] finishes *)
    destruct Hinv as [Hst Hvi Hnd Hno Hch Hfin].
    simpl in Hnd. inversion Hnd as [|? ? Hu Hnd']. subst.
    exists false. eexists. split; [reflexivity|]. exists [u]. split.
    + constructor; simpl.
      * intros x. rewrite In_set_remove, Hst. simpl. split.
        -- intros [[->|H] Hne]; [congruence|auto].
        -- intros H. split; auto. intros ->. apply Hu, in_or_app. auto.
      * intros x. rewrite Hvi, in_app_iff. simpl. tauto.
      * rewrite app_assoc. now apply NoDup_snoc.
      * intros x Hx. apply Hno. simpl. rewrite !in_app_iff in *. simpl in Hx. tauto.
      * eapply parent_chain_tail; eauto.
      * intros l1 x l2 Hsplit w Hw HRw. symmetry in Hsplit.
        apply snoc_split in Hsplit.
        destruct Hsplit as [(_ & -> & ->)|(l2' & _ & Hsplit)].
        -- destruct (Hdone w Hw HRw) as [[]|H]. exact H.
        -- eapply Hfin; eauto.
    + apply in_or_app. simpl. auto.
  - assert (Huv : In (u, v) es) by (apply Hvs; simpl; auto).
    assert (Hvs' : forall w, In w vs -> In (u, w) es) by (intros; apply Hvs; simpl; auto).
    destruct (Hdeg u v Huv) as (d & Ed & HdR).
    cbn [dfs_loop]. unfold dict_item. rewrite Ed. cbn [bind].
    destruct (0 <? d)%Z eqn:Epos.
    2:{ (* not residual *)
      apply IH; auto. intros w Hw HRw.
      destruct (Hdone w Hw HRw) as [[->|H]|H]; auto.
      apply HdR in HRw. congruence. }
    assert (HRv : R v) by now apply HdR.
    destruct (set_mem v (visited st)) eqn:Evis; cbn [negb].
    + destruct (set_mem v (stack st)) eqn:Estk.
      * (* back edge *)
        apply set_mem_In in Estk.
        destruct Hinv as [Hst Hvi Hnd Hno Hch Hfin].
        apply Hst in Estk.
        destruct (back_edge_cycle (parent st) u pth v Hch) as (path & Ew & Hcy); auto.
        { eapply NoDup_app_remove_r; eauto. }
        rewrite Ew. cbn [bind].
        exists true. eexists. split; [reflexivity|]. simpl. eauto.
      * (* finished before *)
        apply IH; auto. intros w Hw HRw.
        destruct (Hdone w Hw HRw) as [[->|H]|H]; auto.
        right. apply set_mem_In in Evis. apply set_mem_false in Estk.
        destruct Hinv as [Hst Hvi _ _ _ _].
        apply Hvi in Evis. destruct Evis as [H|H]; auto.
        apply Hst in H. contradiction.
    + (* tree edge *)
      apply set_mem_false in Evis.
      set (st1 := mkDfs (visited st) (stack st) (dict_set v u (parent st)) (cycle st)).
      assert (Hv_out : ~ In v (u :: pth)).
      { intros H. apply Evis. apply (di_visited _ _ _ _ _ _ Hinv). auto. }
      assert (Hinv1 : dfs_inv es nodes R st1 (u :: pth) fin).
      { destruct Hinv as [Hst Hvi Hnd Hno Hch Hfin]. constructor; auto.
        simpl. now apply parent_chain_set. }
      assert (Hch1 : parent_chain es (parent st1) (v :: u :: pth)).
      { constructor; auto.
        - simpl. apply dict_get_set_eq.
        - apply (di_chain _ _ _ _ _ _ Hinv1). }
      destruct (Hrec v st1 (u :: pth) fin Hinv1 Evis HRv Hch1) as (b & st2 & E2 & Hpost).
      { simpl. lia. }
      rewrite E2. cbn [bind].
      destruct b.
      * exists true, st2. split; [reflexivity|exact Hpost].
      * destruct Hpost as (ext & Hinv2 & Hvfin).
        destruct (IH st2 (fin ++ ext) Hinv2 Hvs') as (b & st3 & E3 & Hpost3).
        { intros w Hw HRw. destruct (Hdone w Hw HRw) as [[->|H]|H]; auto.
          right. apply in_or_app. auto. }
        { rewrite length_app. lia. }
        exists b, st3. split; [exact E3|]. destruct b; auto.
        destruct Hpost3 as (ext' & Hinv3 & Hu3).
        exists (ext ++ ext'). rewrite app_assoc. auto.
Qed.
End Loop.

Lemma dfs_spec : forall fuel u st pth fin,
  dfs_inv es nodes R st pth fin -> ~ In u (visited st) -> R u ->
  parent_chain es (parent st) (u :: pth) ->
  (List.length nodes < fuel + List.length pth + List.length fin)%nat ->
  dfs_post es nodes R pth fin u (dfs adj indeg fuel u st).
Proof.
  induction fuel as [|fuel IH]; intros u st pth fin Hinv Hu HRu Hch Hfuel.
  - exfalso. destruct Hinv as [_ _ Hnd Hno _ _].
    pose proof (NoDup_incl_length Hnd Hno) as Hl. rewrite length_app in Hl. lia.
  - cbn [dfs]. rewrite Hadj.
    apply (dfs_loop_spec (dfs adj indeg fuel) fuel IH).
    + destruct Hinv as [Hst Hvi Hnd Hno Hc Hfin]. constructor; simpl; auto.
      * intros x. rewrite In_set_add, Hst. intuition.
      * intros x. rewrite In_set_add, Hvi. intuition.
      * constructor; auto. intros H. apply Hu, Hvi. now apply in_app_iff.
      * intros x [<-|Hx]; auto.
    + intros v Hv. now apply In_succs.
    + intros v Hv _. left. now apply In_succs.
    + lia.
Qed.

Lemma dfs_roots_spec : forall items st fin,
  dfs_inv es nodes R st [] fin ->
  (forall n d, In (n, d) items -> (0 < d)%Z -> R n) ->
  exists st',
    dfs_roots adj indeg depth items st = Ok st' /\
    ((exists c, cycle st' = Some c /\ cycle_of es c) \/
     (exists ext, dfs_inv es nodes R st' [] (fin ++ ext) /\
                  forall n d, In (n, d) items -> (0 < d)%Z -> In n (fin ++ ext))).
Proof.
  induction items as [|[node deg] items IH]; intros st fin Hinv Hitems.
  - exists st. split; [reflexivity|]. right. exists []. rewrite app_nil_r.
    split; auto. intros n d [].
  - assert (Hitems' : forall n d, In (n, d) items -> (0 < d)%Z -> R n)
      by (intros n d H; apply Hitems; simpl; auto).
    cbn [dfs_roots].
    destruct ((0 <? deg)%Z && negb (set_mem node (visited st))) eqn:Econd.
    + apply andb_true_iff in Econd. destruct Econd as [Hpos Hvis].
      apply Z.ltb_lt in Hpos. apply negb_true_iff, set_mem_false in Hvis.
      destruct (dfs_spec depth node st [] fin Hinv Hvis)
        as (b & st1 & E1 & Hpost).
      { eapply Hitems; simpl; eauto. }
      { constructor. }
      { simpl. lia. }
      rewrite E1. cbn [bind]. destruct b.
      * exists st1. split; [reflexivity|]. left. exact Hpost.
      * destruct Hpost as (ext & Hinv1 & Hn).
        destruct (IH st1 (fin ++ ext) Hinv1 Hitems') as (st2 & E2 & Hres).
        exists st2. split; [exact E2|].
        destruct Hres as [Hc|(ext' & Hinv2 & Hall)]; auto.
        right. exists (ext ++ ext'). rewrite app_assoc. split; auto.
        intros n d [Hnd|Hin] Hd.
        -- inversion Hnd. subst. apply in_or_app. auto.
        -- eauto.
    + destruct (IH st fin Hinv Hitems') as (st2 & E2 & Hres).
      exists st2. split; [exact E2|].
      destruct Hres as [Hc|(ext' & Hinv2 & Hall)]; auto.
      right. exists ext'. split; auto.
      intros n d [Hnd|Hin] Hd; [|eauto].
      inversion Hnd. subst. apply in_or_app. left.
      apply andb_false_iff in Econd. destruct Econd as [Hc|Hc].
      * apply Z.ltb_ge in Hc. lia.
      * apply negb_false_iff, set_mem_In in Hc.
        apply (di_visited _ _ _ _ _ _ Hinv) in Hc. destruct Hc as [[]|Hc]. exact Hc.
Qed.
End DFSProof.

(** * The result of [topo_sort] *)

Lemma pending_pos es order v :
  pending es order v <> 0%Z -> exists u, In (u, v) es /\ ~ In u order.
Proof.
  unfold pending. intros H.
  destruct (filter (fun u => negb (set_mem u order)) (preds es v)) as [|u l] eqn:E.
  - simpl in H. congruence.
  - assert (Hu : In u (u :: l)) by (simpl; auto).
    rewrite <- E in Hu. apply filter_In in Hu. destruct Hu as [H1 H2].
    exists u. split; [now apply In_preds|].
    now apply set_mem_false, negb_true_iff.
Qed.

Lemma missing_node (order nodes : list string) :
  NoDup order -> NoDup nodes -> incl order nodes ->
  List.length order <> List.length nodes ->
  exists v, In v nodes /\ ~ In v order.
Proof.
  intros Hnd Hnd' Hincl Hlen.
  destruct (Forall_Exists_dec (fun v => In v order)
              (fun v => in_dec string_dec v order) nodes) as [Hall|Hex].
  - exfalso. rewrite Forall_forall in Hall.
    pose proof (NoDup_incl_length Hnd' Hall).
    pose proof (NoDup_incl_length Hnd Hincl). lia.
  - apply Exists_exists in Hex. exact Hex.
Qed.

Section TopoResult.
Variables (base : list string) (es : list (string * string)).
Variables (adj : dict (list string)) (ind : dict Z).
Hypothesis Hg : graph_spec base es adj ind.
Hypothesis Hes : NoDup es.
Variables (order : list string) (indeg' : dict Z).
Hypothesis Hinv : kahn_inv es (dict_keys ind) [] order indeg'.

Let nodes := dict_keys ind.
Let E := fun a b : string => In (a, b) es.
Let R := fun v : string => In v nodes /\ ~ In v order.
Let ER := fun a b : string => In (a, b) es /\ R b.

Lemma tr_order_nodup : NoDup order.
Proof using Hinv.
  pose proof (ki_nodup _ _ _ _ _ Hinv) as H. now rewrite app_nil_r in H.
Qed.

Lemma tr_order_nodes x : In x order -> In x nodes.
Proof using Hinv.
  intros H. apply (ki_nodes _ _ _ _ _ Hinv). now rewrite app_nil_r.
Qed.

Lemma tr_in_order v : In v nodes -> (In v order <-> pending es order v = 0%Z).
Proof using Hinv.
  intros Hv. rewrite <- (ki_zero _ _ _ _ _ Hinv v Hv). now rewrite app_nil_r.
Qed.

Lemma tr_sizes : List.length indeg' = List.length nodes.
Proof using Hinv.
  unfold nodes. rewrite <- (ki_keys _ _ _ _ _ Hinv). unfold dict_keys.
  now rewrite length_map.
Qed.

Lemma tr_complete :
  (List.length order =? List.length indeg')%nat = true <->
  forall v, In v nodes -> In v order.
Proof using Hg Hinv.
  rewrite Nat.eqb_eq, tr_sizes. split.
  - intros Hlen. apply NoDup_length_incl.
    + apply tr_order_nodup.
    + lia.
    + intros x. apply tr_order_nodes.
  - intros Hall. apply Nat.le_antisymm.
    + apply NoDup_incl_length; [apply tr_order_nodup|intros x; apply tr_order_nodes].
    + apply NoDup_incl_length; [apply (gs_nodup _ _ _ _ Hg)|exact Hall].
Qed.

Lemma tr_before u v : In (u, v) es -> In v order -> before u v order.
Proof using Hinv.
  intros He Hv. apply in_split in Hv. destruct Hv as (l1 & l2 & Hs).
  exists l1, l2. split; auto. eapply (ki_topo _ _ _ _ _ Hinv); eauto.
Qed.

Lemma tr_residual_deg u v :
  In (u, v) es ->
  exists d, dict_get v indeg' = Some d /\ ((0 <? d)%Z = true <-> R v).
Proof using Hg Hinv.
  intros He. destruct (gs_ends _ _ _ _ Hg _ _ He) as [_ Hv].
  exists (pending es order v). split; [apply (ki_deg _ _ _ _ _ Hinv v Hv)|].
  unfold R. rewrite Z.ltb_lt, (tr_in_order v Hv).
  pose proof (pending_nonneg es order v) as Hp.
  split; [intros Hd; split; auto; lia|].
  intros [_ Hn]. lia.
Qed.

Lemma tr_residual_item n d : In (n, d) indeg' -> (0 < d)%Z -> R n.
Proof using Hg Hinv.
  intros Hin Hd.
  assert (Hn : In n nodes).
  { unfold nodes. rewrite <- (ki_keys _ _ _ _ _ Hinv).
    change n with (fst (n, d)). now apply in_map. }
  split; auto. rewrite (tr_in_order n Hn).
  apply In_dict_get in Hin.
  - rewrite (ki_deg _ _ _ _ _ Hinv n Hn) in Hin. inversion Hin. lia.
  - rewrite (ki_keys _ _ _ _ _ Hinv). apply (gs_nodup _ _ _ _ Hg).
Qed.

Lemma tr_item_of_residual n : R n -> exists d, In (n, d) indeg' /\ (0 < d)%Z.
Proof using Hinv.
  intros [Hn Ho]. exists (pending es order n). split.
  - apply dict_get_In, (ki_deg _ _ _ _ _ Hinv n Hn).
  - pose proof (pending_nonneg es order n).
    rewrite (tr_in_order n Hn) in Ho. lia.
Qed.

Lemma tr_residual_pred v : R v -> exists u, R u /\ ER u v.
Proof using Hg Hinv.
  intros [Hv Ho]. rewrite (tr_in_order v Hv) in Ho.
  destruct (pending_pos es order v Ho) as (u & He & Hu).
  destruct (gs_ends _ _ _ _ Hg _ _ He) as [Hun _].
  assert (Hov : ~ In v order) by (rewrite (tr_in_order v Hv); exact Ho).
  exists u. unfold ER, R. repeat split; auto.
Qed.

(** A code missing from the order lies behind a cycle of residual codes. *)
Lemma tr_residual_cycle v :
  In v nodes -> ~ In v order -> exists x, path ER x x.
Proof using Hg Hinv.
  intros Hv Ho. apply (descent_cycle ER R nodes) with (v := v).
  - intros x [Hx _]. exact Hx.
  - apply tr_residual_pred.
  - split; auto.
Qed.

Lemma tr_cycle_outside x : path E x x -> In x nodes /\ ~ In x order.
Proof using Hg Hinv.
  intros Hp. split.
  - inversion Hp as [? ? He|? w ? He _]; subst;
      now destruct (gs_ends _ _ _ _ Hg _ _ He).
  - intros Hin.
    apply (topological_no_cycle E order (ki_topo _ _ _ _ _ Hinv) x tr_order_nodup Hin Hp).
Qed.

(** The flag: the order is incomplete exactly when there is a cycle. *)
Lemma tr_flag :
  negb (List.length order =? List.length indeg')%nat = true <-> exists x, path E x x.
Proof using Hg Hinv.
  rewrite negb_true_iff. split.
  - intros Hneq. apply Nat.eqb_neq in Hneq. rewrite tr_sizes in Hneq.
    destruct (missing_node order nodes tr_order_nodup (gs_nodup _ _ _ _ Hg)) as (v & Hv & Ho);
      auto.
    { intros x. apply tr_order_nodes. }
    destruct (tr_residual_cycle v Hv Ho) as (x & Hp).
    exists x. eapply path_impl; [|exact Hp]. intros a b [H _]. exact H.
  - intros (x & Hp). destruct (tr_cycle_outside x Hp) as [Hx Ho].
    destruct (_ =? _)%nat eqn:Eq; auto.
    exfalso. apply Ho. now apply tr_complete.
Qed.

Variable depth : nat.
Hypothesis Hdepth : (List.length (dict_keys ind) < depth)%nat.

(** When the order is incomplete the search records a cycle, provided the
    interpreter allows more nested calls than there are codes. *)
Lemma tr_search :
  negb (List.length order =? List.length indeg')%nat = true ->
  exists st c,
    dfs_roots adj indeg' depth indeg' (mkDfs [] [] [] None) = Ok st /\
    cycle st = Some c /\ cycle_of es c.
Proof using Hg Hinv Hdepth.
  intros Hflag.
  destruct (dfs_roots_spec es adj indeg' nodes R depth (gs_adj _ _ _ _ Hg) tr_residual_deg)
    with (items := indeg') (st := mkDfs [] [] [] None) (fin := @nil string)
    as (st & Est & Hres).
  - intros v [Hv _]. exact Hv.
  - exact Hdepth.
  - constructor; simpl; try tauto; try constructor.
    intros l1 x l2 H. destruct l1; discriminate.
  - apply tr_residual_item.
  - destruct Hres as [(c & Hc & Hcy)|(ext & Hdi & Hall)].
    + exists st, c. auto.
    + exfalso. simpl in *.
      apply negb_true_iff, Nat.eqb_neq in Hflag. rewrite tr_sizes in Hflag.
      destruct (missing_node order nodes tr_order_nodup (gs_nodup _ _ _ _ Hg))
        as (v & Hv & Ho); auto.
      { intros x. apply tr_order_nodes. }
      destruct (tr_residual_cycle v Hv Ho) as (x & Hp).
      assert (HRx : R x).
      { clear - Hp. assert (H : forall a b, path ER a b -> R b)
          by (induction 1 as [? ? [_ H]|]; auto). eapply H; eauto. }
      destruct (tr_item_of_residual x HRx) as (d & Hin & Hd).
      pose proof (Hall x d Hin Hd) as Hfin.
      apply path_flip in Hp.
      refine (topological_no_cycle (fun a b => ER b a) ext _ x _ Hfin Hp).
      * intros l1 w l2 Hs u [Hu HRu]. eapply (di_fin _ _ _ _ _ _ Hdi); eauto.
      * apply (di_nodup _ _ _ _ _ _ Hdi).
Qed.
End TopoResult.

Lemma path_edges_iff m x y :
  well_formed m ->
  (path (is_prereq m) x y <-> path (fun a b => In (a, b) (edge_list m)) x y).
Proof.
  intros Hwf. split; apply path_impl; intros u v H; now apply (In_edge_list m u v Hwf).
Qed.

(** ** The recursion limit *)

(** With fewer nested calls allowed, [dfs] does the same or raises
    [RecursionError]. *)
Lemma dfs_loop_mono (indeg : dict Z)
  (rec1 rec2 : string -> dfs_state -> result (bool * dfs_state)) :
  (forall v st, rec1 v st = rec2 v st \/ rec1 v st = Raise RecursionError) ->
  forall vs u st,
    dfs_loop indeg rec1 u vs st = dfs_loop indeg rec2 u vs st \/
    dfs_loop indeg rec1 u vs st = Raise RecursionError.
Proof.
  intros Hrec. induction vs as [|v vs IH]; intros u st; cbn [dfs_loop]; [now left|].
  destruct (dict_item v indeg) as [d|e]; cbn [bind]; [|now left].
  destruct (0 <? d)%Z; [|apply IH].
  destruct (negb (set_mem v (visited st))).
  - match goal with |- context [rec1 v ?s] => destruct (Hrec v s) as [E|E]; rewrite E end.
    + match goal with |- context [rec2 v ?s] => destruct (rec2 v s) as [[b st2]|e] end;
        cbn [bind]; [|now left].
      destruct b; [now left|apply IH].
    + cbn [bind]. now right.
  - destruct (set_mem v (stack st)); [now left|apply IH].
Qed.

Lemma dfs_mono adj indeg : forall d D, (d <= D)%nat -> forall u st,
  dfs adj indeg d u st = dfs adj indeg D u st \/
  dfs adj indeg d u st = Raise RecursionError.
Proof.
  induction d as [|d IH]; intros D Hle u st; [now right|].
  destruct D as [|D]; [lia|]. cbn [dfs].
  apply dfs_loop_mono. intros v st'. apply IH. lia.
Qed.

Lemma dfs_roots_mono adj indeg d D : (d <= D)%nat -> forall items st,
  dfs_roots adj indeg d items st = dfs_roots adj indeg D items st \/
  dfs_roots adj indeg d items st = Raise RecursionError.
Proof.
  intros Hle. induction items as [|[node deg] items IH]; intros st; cbn [dfs_roots];
    [now left|].
  destruct ((0 <? deg)%Z && negb (set_mem node (visited st))); [|apply IH].
  destruct (dfs_mono adj indeg d D Hle node st) as [E|E]; rewrite E.
  - destruct (dfs adj indeg D node st) as [[b st2]|e]; cbn [bind]; [|now left].
    destruct b; [now left|apply IH].
  - cbn [bind]. now right.
Qed.

(** [topo_sort] with fewer nested calls allowed returns the same, or
    raises [RecursionError] where the cycle search was needed. *)
Lemma topo_sort_mono d D m : (d <= D)%nat ->
  topo_sort d m = topo_sort D m \/
  (topo_sort d m = Raise RecursionError /\
   forall order cyc, topo_sort D m <> Ok (order, false, cyc)).
Proof.
  intros Hle. unfold topo_sort. destruct (build_graph m) as [adj ind].
  destruct (kahn _ adj _ [] ind) as [[order indeg']|e]; cbn [bind]; [|now left].
  destruct (negb (List.length order =? List.length indeg')%nat); [|now left].
  destruct (dfs_roots_mono adj indeg' d D Hle indeg' (mkDfs [] [] [] None)) as [E|E];
    rewrite E.
  - now left.
  - right. split; [reflexivity|]. intros o c.
    destruct (dfs_roots adj indeg' D indeg' (mkDfs [] [] [] None)); cbn [bind]; congruence.
Qed.

(** What [topo_sort] returns on a well-formed model when the interpreter
    allows more nested calls than the graph has codes. *)
Lemma topo_sort_spec depth m :
  well_formed m ->
  (List.length (dict_keys (snd (build_graph m))) < depth)%nat ->
  exists order flag cyc,
    topo_sort depth m = Ok (order, flag, cyc) /\
    NoDup order /\
    (forall x, In x order -> In x (dict_keys (snd (build_graph m)))) /\
    (flag = false -> forall v, In v (dict_keys (snd (build_graph m))) -> In v order) /\
    (forall u v, is_prereq m u v -> In v order -> before u v order) /\
    (flag = true <-> has_directed_cycle m) /\
    (flag = true -> exists c, cyc = Some c /\ closed_walk m c) /\
    (flag = false -> cyc = None).
Proof.
  intros Hwf Hdepth. pose proof (build_graph_spec m Hwf) as Hg.
  pose proof (NoDup_edge_list m Hwf) as Hes.
  unfold topo_sort. destruct (build_graph m) as [adj ind]. cbn [fst snd] in *.
  destruct (kahn_spec _ _ _ _ Hg Hes (List.length ind) _ [] ind (kahn_init _ _ _ _ Hg))
    as (order & indeg' & Ek & Hinv).
  { unfold dict_keys. rewrite length_map. simpl. lia. }
  rewrite Ek. cbn [bind].
  pose proof (tr_flag _ _ _ _ Hg _ _ Hinv) as Hflag.
  pose proof (tr_search _ _ _ _ Hg _ _ Hinv depth Hdepth) as Hsearch.
  pose proof (tr_complete _ _ _ _ Hg _ _ Hinv) as Hcomplete.
  assert (Hcyc : (exists x, path (fun a b => In (a, b) (edge_list m)) x x) <->
                 has_directed_cycle m).
  { unfold has_directed_cycle. split; intros (x & Hp); exists x;
      now apply (path_edges_iff m x x Hwf). }
  assert (Hbefore : forall u v, is_prereq m u v -> In v order -> before u v order).
  { intros u v Huv Hv. apply (tr_before _ _ _ _ Hinv); auto.
    now apply (In_edge_list m u v Hwf). }
  destruct (negb (List.length order =? List.length indeg')%nat) eqn:Eflag.
  - destruct (Hsearch eq_refl) as (st & c & Est & Hc & Hcy).
    rewrite Est. cbn [bind].
    exists order, true, (cycle st). split; [reflexivity|].
    split; [apply (tr_order_nodup _ _ _ _ Hinv)|].
    split; [apply (tr_order_nodes _ _ _ _ Hinv)|].
    split; [discriminate|]. split; [exact Hbefore|].
    split; [rewrite <- Hcyc; tauto|]. split; [|discriminate].
    intros _. exists c. split; auto. destruct Hcy as [Hshape Hch].
    split; auto. eapply chain_impl; [|exact Hch].
    intros a b H. now apply (In_edge_list m a b Hwf).
  - exists order, false, None. split; [reflexivity|].
    split; [apply (tr_order_nodup _ _ _ _ Hinv)|].
    split; [apply (tr_order_nodes _ _ _ _ Hinv)|].
    split; [intros _; apply Hcomplete; now apply negb_false_iff|].
    split; [exact Hbefore|].
    split; [rewrite <- Hcyc, <- Hflag; split; discriminate|].
    split; [discriminate|reflexivity].
Qed.

(** At every depth: [topo_sort] either does what it does with nested calls
    to spare, or raises [RecursionError], and this only on a model with a
    cycle and at least as many codes as nested calls are allowed. *)
Lemma topo_sort_any depth m :
  well_formed m ->
  topo_sort depth m
  = topo_sort (depth + S (List.length (dict_keys (snd (build_graph m))))) m \/
  (topo_sort depth m = Raise RecursionError /\ has_directed_cycle m /\
   (depth <= List.length (dict_keys (snd (build_graph m))))%nat).
Proof.
  intros Hwf. set (n := List.length (dict_keys (snd (build_graph m)))).
  destruct (topo_sort_mono depth (depth + S n) m) as [E|[E Hno]]; [lia|now left|].
  right. split; [exact E|].
  destruct (topo_sort_spec (depth + S n) m Hwf)
    as (order & flag & cyc & ED & _ & _ & _ & _ & Hflag & _); [fold n; lia|].
  split.
  - apply Hflag. destruct flag; [reflexivity|]. exfalso. exact (Hno _ _ ED).
  - destruct (le_lt_dec depth n) as [Hle|Hlt]; [exact Hle|]. exfalso.
    destruct (topo_sort_spec depth m Hwf Hlt) as (o & f & c & E' & _). congruence.
Qed.

(** On a closed model the graph has as many codes as the catalogue. *)
Lemma build_graph_size m :
  well_formed m -> prereqs_closed m ->
  List.length (dict_keys (snd (build_graph m))) = List.length (catalog m).
Proof.
  intros Hwf Hcl. apply Permutation_length, NoDup_Permutation.
  - apply (gs_nodup _ _ _ _ (build_graph_spec m Hwf)).
  - apply Hwf.
  - apply build_graph_nodes; assumption.
Qed.

(** C1. On a model built by the public operations whose prerequisite
    relation has no cycle, [topo_sort] returns an order without repetition
    whose codes are exactly the catalogue codes, in which every
    prerequisite stands before each of its dependents, with the flag false
    and no cycle reported.  This holds at every depth: without a cycle the
    recursive search is not entered. *)
Theorem topo_sort_acyclic (depth : nat) (m : PMaPModel) :
  reachable m -> acyclic m ->
  exists order,
    topo_sort depth m = Ok (order, false, None) /\
    NoDup order /\
    (forall c, In c order <-> In c (catalog m)) /\
    (forall p c, is_prereq m p c -> before p c order).
Proof.
  intros Hr Hac. apply reachable_ok in Hr. destruct Hr as [Hwf Hcl _ _].
  destruct (topo_sort_any depth m Hwf) as [Eany|(_ & (x & Hp) & _)];
    [|exfalso; exact (Hac x Hp)].
  destruct (topo_sort_spec _ m Hwf
              (Nat.lt_lt_add_l _ _ depth (Nat.lt_succ_diag_r _)))
    as (order & flag & cyc & E & Hnd & Hsub & Hall & Hbef & Hflag & _ & Hnone).
  rewrite <- Eany in E.
  assert (Hf : flag = false).
  { destruct flag; auto. exfalso.
    destruct Hflag as [H _]. destruct (H eq_refl) as (x & Hp). exact (Hac x Hp). }
  subst flag. rewrite (Hnone eq_refl) in E.
  exists order. split; [exact E|]. split; [exact Hnd|].
  assert (Hiff : forall c, In c order <-> In c (catalog m)).
  { intros c. rewrite <- (build_graph_nodes m Hwf Hcl c). split; auto. }
  split; [exact Hiff|].
  intros p c Hpc. apply Hbef; auto. apply Hiff.
  now destruct (prereqs_of_closed _ _ _ Hcl Hpc).
Qed.

(** Within the recursion budget [topo_sort] settles the cycle question:
    it returns, its flag is true exactly when the prerequisite relation has
    a directed cycle, and then the reported cycle is a closed walk. *)
Lemma topo_sort_within_depth (depth : nat) (m : PMaPModel) :
  well_formed m ->
  (List.length (dict_keys (snd (build_graph m))) < depth)%nat ->
  exists order flag cyc,
    topo_sort depth m = Ok (order, flag, cyc) /\
    (flag = true <-> has_directed_cycle m) /\
    (flag = true -> exists c, cyc = Some c /\ closed_walk m c).
Proof.
  intros Hwf Hd.
  destruct (topo_sort_spec depth m Hwf Hd)
    as (order & flag & cyc & E & _ & _ & _ & _ & Hflag & Hcyc & _).
  exists order, flag, cyc. auto.
Qed.

(** The test model has no cycle: [topo_sort] says so. *)
Lemma test_model_acyclic : acyclic test_model.
Proof.
  destruct (topo_sort_spec 5 test_model test_model_wf)
    as (order & flag & cyc & E & _ & _ & _ & _ & Hflag & _).
  { vm_compute. lia. }
  vm_compute in E. inversion E. subst.
  intros c Hp. destruct Hflag as [_ H].
  assert (Hc : has_directed_cycle test_model) by (exists c; exact Hp).
  apply H in Hc. discriminate.
Qed.

Lemma topo_sort_acyclic_witness :
  exists order,
    topo_sort 0 test_model = Ok (order, false, None) /\
    NoDup order /\
    (forall c, In c order <-> In c (catalog test_model)) /\
    (forall p c, is_prereq test_model p c -> before p c order).
Proof.
  apply (topo_sort_acyclic 0 test_model).
  - apply reach_from_dict.
  - exact test_model_acyclic.
Defined.

Example test_topo_no_cycle :
  topo_sort recursion_limit test_model = Ok (["A"; "D"; "B"; "C"], false, None).
Proof. reflexivity. Qed.

Example test_cycle_detection :
  topo_sort recursion_limit (snd (add_prereq "C" "A" test_model))
  = Ok (["D"], true, Some ["A"; "B"; "C"; "A"]).
Proof. reflexivity. Qed.

(** [topo_sort] runs on the empty catalogue: empty order, no cycle. *)
Example topo_sort_empty : topo_sort recursion_limit new_model = Ok ([], false, None).
Proof. reflexivity. Qed.

(** The ring of 1200 codes: the search for its cycle takes 1200 nested
    calls, one per code. *)
Lemma ring_model_search :
  topo_sort 1199 ring_model = Raise RecursionError /\
  exists order cyc, topo_sort 1200 ring_model = Ok (order, true, cyc).
Proof.
  split; [vm_compute; reflexivity|].
  eexists. eexists. vm_compute. reflexivity.
Qed.

Lemma ring_model_cycle : has_directed_cycle ring_model.
Proof.
  assert (Hwf : well_formed ring_model) by apply reachable_ok, reach_from_dict.
  destruct (topo_sort_any 1200 ring_model Hwf) as [E|(_ & H & _)]; [|exact H].
  destruct (topo_sort_spec _ ring_model Hwf
              (Nat.lt_lt_add_l _ _ 1200 (Nat.lt_succ_diag_r _)))
    as (order & flag & cyc & ED & _ & _ & _ & _ & Hflag & _).
  rewrite <- E in ED. destruct ring_model_search as [_ (o & c & E1200)].
  rewrite E1200 in ED. inversion ED. subst. now apply Hflag.
Qed.

(** C2. The claim fails on a large cycle.  The ring of 1200 codes is a
    model built by [from_dict] and has a directed cycle, yet under the
    recursion limit of the interpreter [topo_sort] returns neither flag nor
    cycle: the recursive search raises [RecursionError].  (Within the
    recursion budget the flag and the cycle are right:
    [topo_sort_within_depth].) *)
Theorem topo_sort_cycle_recursion (depth : nat) :
  (depth <= recursion_limit)%nat ->
  reachable ring_model /\
  has_directed_cycle ring_model /\
  topo_sort depth ring_model = Raise RecursionError.
Proof.
  intros Hd. split; [apply reach_from_dict|]. split; [exact ring_model_cycle|].
  destruct ring_model_search as [E _].
  destruct (topo_sort_mono depth 1199 ring_model) as [H|[H _]].
  - unfold recursion_limit in Hd. lia.
  - now rewrite H.
  - exact H.
Qed.

Lemma topo_sort_cycle_recursion_witness :
  reachable ring_model /\
  has_directed_cycle ring_model /\
  topo_sort recursion_limit ring_model = Raise RecursionError.
Proof.
  apply (topo_sort_cycle_recursion recursion_limit). apply Nat.le_refl.
Defined.

(** * The planner and the caller's model *)

Lemma frame_refl n h : frame n h h.
Proof. split; auto. Qed.

Lemma frame_trans n h1 h2 h3 : frame n h1 h2 -> frame n h2 h3 -> frame n h1 h3.
Proof.
  intros [L1 F1] [L2 F2]. split; [lia|].
  intros l Hl. now rewrite F2, F1.
Qed.

Lemma heap_set_length l o h : List.length (heap_set l o h) = List.length h.
Proof.
  revert l. induction h as [|x h IH]; intros [|l]; simpl; auto.
Qed.

Lemma heap_set_other l l' o h : l' <> l -> nth_error (heap_set l o h) l' = nth_error h l'.
Proof.
  revert l l'. induction h as [|x h IH]; intros [|l] [|l'] H; simpl; auto;
    try congruence.
Qed.

Lemma heap_set_same l o h :
  (l < List.length h)%nat -> nth_error (heap_set l o h) l = Some o.
Proof.
  revert l. induction h as [|x h IH]; intros [|l] H; simpl in *; try lia; auto.
  apply IH. lia.
Qed.

Lemma frame_heap_set n l o h : (n <= l)%nat -> frame n h (heap_set l o h).
Proof.
  intros H. split; [now rewrite heap_set_length|].
  intros l' Hl'. apply heap_set_other. lia.
Qed.

Lemma frame_alloc n o h : (n <= List.length h)%nat -> frame n h (h ++ [o]).
Proof.
  intros H. split; [rewrite length_app; lia|].
  intros l Hl. apply nth_error_app1. lia.
Qed.

Lemma nth_error_snoc_old {A} (h : list A) o l x :
  nth_error h l = Some x -> nth_error (h ++ [o]) l = Some x.
Proof.
  intros H. rewrite nth_error_app1; auto. apply nth_error_Some. congruence.
Qed.

Section Working.
Variables (n : nat) (tl c p : loc).

Lemma owned_bound h : owned n tl c p h -> (n <= List.length h)%nat.
Proof.
  intros (s & d & Hm & Hn & _). assert (tl < List.length h)%nat; [|lia].
  apply nth_error_Some. congruence.
Qed.

Lemma triple_ret {A} (a : A) (Q : A -> Prop) : Q a -> triple n tl c p (hret a) Q.
Proof.
  intros HQ h Ho. simpl. split; [apply frame_refl|]. split; auto.
  intros a' E. inversion E. now subst.
Qed.

Lemma triple_raise {A} e (Q : A -> Prop) : triple n tl c p (hraise e) Q.
Proof.
  intros h Ho. simpl. split; [apply frame_refl|]. split; auto. discriminate.
Qed.

Lemma triple_bind {A B} (m : hm A) (k : A -> hm B) (Q : A -> Prop) (Q' : B -> Prop) :
  triple n tl c p m Q -> (forall a, Q a -> triple n tl c p (k a) Q') ->
  triple n tl c p (hbind m k) Q'.
Proof.
  intros Hm Hk h Ho. unfold hbind.
  destruct (Hm h Ho) as (F1 & O1 & Q1).
  destruct (m h) as [[a|e] h1]; simpl in *.
  - destruct (Hk a (Q1 a eq_refl) h1 O1) as (F2 & O2 & Q2).
    split; [eapply frame_trans; eauto|]. auto.
  - split; auto. split; auto. discriminate.
Qed.

Lemma triple_weaken {A} (m : hm A) (Q Q' : A -> Prop) :
  triple n tl c p m Q -> (forall a, Q a -> Q' a) -> triple n tl c p m Q'.
Proof.
  intros Hm HQ h Ho. destruct (Hm h Ho) as (F & O & Hq). auto.
Qed.

Lemma triple_readonly {A} (m : hm A) :
  readonly m -> triple n tl c p m (fun _ => True).
Proof.
  intros Hr h Ho. rewrite Hr. split; [apply frame_refl|]. auto.
Qed.

Lemma triple_model :
  triple n tl c p (h_model tl)
    (fun x => exists s, x = (c, p, s) /\ (n <= s)%nat /\ (n <= c)%nat /\ (n <= p)%nat).
Proof.
  intros h Ho. pose proof Ho as (s & d & Hm & Hn & Hc & Hp & Hs & _).
  unfold h_model. rewrite Hm. simpl. split; [apply frame_refl|]. split; auto.
  intros a E. inversion E. eauto.
Qed.

Lemma triple_prereqs :
  triple n tl c p (h_prereqs p) (fun d => forall k sl, In (k, sl) d -> (n <= sl)%nat).
Proof.
  intros h Ho. pose proof Ho as (s & d & _ & _ & _ & _ & _ & Hp & Hd).
  unfold h_prereqs. rewrite Hp. simpl. split; [apply frame_refl|]. split; auto.
  intros a E. inversion E. now subst.
Qed.

Lemma triple_courses l : triple n tl c p (h_courses l) (fun _ => True).
Proof.
  apply triple_readonly. intros h. unfold h_courses.
  destruct (nth_error h l) as [[]|]; reflexivity.
Qed.

Lemma triple_set l : triple n tl c p (h_set l) (fun _ => True).
Proof.
  apply triple_readonly. intros h. unfold h_set.
  destruct (nth_error h l) as [[]|]; reflexivity.
Qed.

Lemma triple_alloc_set s : triple n tl c p (h_alloc (OSet s)) (fun l => (n <= l)%nat).
Proof.
  intros h Ho. pose proof (owned_bound h Ho) as Hb. unfold h_alloc. simpl.
  split; [now apply frame_alloc|]. split.
  - destruct Ho as (s0 & d & Hm & Hn & Hc & Hp & Hs & Hpr & Hd).
    exists s0, d. repeat split; auto using nth_error_snoc_old.
  - intros a E. inversion E. lia.
Qed.

Lemma triple_put_courses l d :
  (n <= l)%nat -> triple n tl c p (h_put_courses l d) (fun _ => True).
Proof.
  intros Hl h Ho. unfold h_put_courses, hbind, h_courses.
  destruct (nth_error h l) as [[| d0 | |]|] eqn:E; simpl;
    try (split; [apply frame_refl|auto]).
  split; [now apply frame_heap_set|]. split; auto.
  destruct Ho as (s0 & d1 & Hm & Hn & Hc & Hp & Hs & Hpr & Hd).
  exists s0, d1. repeat split; auto; rewrite heap_set_other; auto; congruence.
Qed.

Lemma triple_put_set l s :
  (n <= l)%nat -> triple n tl c p (h_put_set l s) (fun _ => True).
Proof.
  intros Hl h Ho. unfold h_put_set, hbind, h_set.
  destruct (nth_error h l) as [[| | | s1]|] eqn:E; simpl;
    try (split; [apply frame_refl|auto]).
  split; [now apply frame_heap_set|]. split; auto.
  destruct Ho as (s0 & d1 & Hm & Hn & Hc & Hp & Hs & Hpr & Hd).
  exists s0, d1. repeat split; auto; rewrite heap_set_other; auto; congruence.
Qed.

Lemma triple_put_prereqs d :
  (forall k sl, In (k, sl) d -> (n <= sl)%nat) ->
  triple n tl c p (h_put_prereqs p d) (fun _ => True).
Proof.
  intros Hd h Ho. pose proof Ho as (s0 & d1 & Hm & Hn & Hc & Hp & Hs & Hpr & Hd1).
  unfold h_put_prereqs, hbind, h_prereqs. rewrite Hpr. simpl.
  split; [now apply frame_heap_set|]. split; auto.
  exists s0, d. repeat split; auto.
  - rewrite heap_set_other; auto. congruence.
  - apply heap_set_same. apply nth_error_Some. congruence.
Qed.

Lemma triple_bind_passed s :
  (n <= s)%nat -> triple n tl c p (h_bind_passed tl s) (fun _ => True).
Proof.
  intros Hs h Ho. pose proof Ho as (s0 & d1 & Hm & Hn & Hc & Hp & Hs0 & Hpr & Hd1).
  unfold h_bind_passed, hbind, h_model. rewrite Hm. simpl.
  split; [now apply frame_heap_set|]. split; auto.
  exists s, d1. repeat split; auto.
  - apply heap_set_same. apply nth_error_Some. congruence.
  - rewrite heap_set_other; auto. congruence.
Qed.

Lemma triple_for {A} (body : A -> hm unit) l :
  (forall x, triple n tl c p (body x) (fun _ => True)) ->
  triple n tl c p (h_for body l) (fun _ => True).
Proof.
  intros Hb. induction l as [|x l IH]; simpl.
  - now apply triple_ret.
  - eapply triple_bind; [apply Hb|]. intros _ _. exact IH.
Qed.
End Working.

Lemma readonly_bind {A B} (m : hm A) (k : A -> hm B) :
  readonly m -> (forall a, readonly (k a)) -> readonly (hbind m k).
Proof.
  intros Hm Hk h. unfold hbind. specialize (Hm h).
  destruct (m h) as [[a|e] h1]; simpl in *; subst; auto. apply Hk.
Qed.

Lemma readonly_ret {A} (a : A) : readonly (hret a).
Proof. intros h. reflexivity. Qed.

Lemma readonly_model l : readonly (h_model l).
Proof. intros h. unfold h_model. destruct (nth_error h l) as [[]|]; reflexivity. Qed.

Lemma readonly_courses l : readonly (h_courses l).
Proof. intros h. unfold h_courses. destruct (nth_error h l) as [[]|]; reflexivity. Qed.

Lemma readonly_prereqs l : readonly (h_prereqs l).
Proof. intros h. unfold h_prereqs. destruct (nth_error h l) as [[]|]; reflexivity. Qed.

Lemma readonly_set l : readonly (h_set l).
Proof. intros h. unfold h_set. destruct (nth_error h l) as [[]|]; reflexivity. Qed.

Lemma readonly_read_sets d : readonly (h_read_sets d).
Proof.
  induction d as [|[k l] d IH]; simpl.
  - apply readonly_ret.
  - apply readonly_bind; [apply readonly_set|]. intros s.
    apply readonly_bind; [exact IH|]. intros r. apply readonly_ret.
Qed.

Lemma readonly_snapshot l : readonly (h_snapshot l).
Proof.
  unfold h_snapshot.
  apply readonly_bind; [apply readonly_model|]. intros [[c p] s].
  apply readonly_bind; [apply readonly_courses|]. intros cs.
  apply readonly_bind; [apply readonly_prereqs|]. intros d.
  apply readonly_bind; [apply readonly_read_sets|]. intros ps.
  apply readonly_bind; [apply readonly_set|]. intros pd. apply readonly_ret.
Qed.

Lemma readonly_to_dict l : readonly (h_to_dict l).
Proof.
  unfold h_to_dict. apply readonly_bind; [apply readonly_snapshot|].
  intros m. apply readonly_ret.
Qed.

Lemma readonly_suggest l cap criterion : readonly (h_suggest_next_semester l cap criterion).
Proof.
  unfold h_suggest_next_semester. apply readonly_bind; [apply readonly_snapshot|].
  intros m h. reflexivity.
Qed.

Section WorkingCopy.
Variables (n : nat) (tl c p : loc).

Ltac with_model s :=
  eapply triple_bind; [apply triple_model|];
  let E := fresh "E" in
  intros [[? ?] ?] (s & E & ? & ? & ?); inversion E; subst.

Lemma triple_set_course k v : triple n tl c p (h_set_course tl k v) (fun _ => True).
Proof.
  unfold h_set_course. with_model s.
  eapply triple_bind; [apply triple_courses|]. intros d _.
  now apply triple_put_courses.
Qed.

Lemma triple_ensure_course k : triple n tl c p (h_ensure_course tl k) (fun _ => True).
Proof.
  unfold h_ensure_course. with_model s.
  eapply triple_bind; [apply triple_courses|]. intros d _.
  destruct (negb (dict_mem k d)).
  - now apply triple_put_courses.
  - now apply triple_ret.
Qed.

Lemma triple_prereqs_add c' p' : triple n tl c p (h_prereqs_add tl c' p') (fun _ => True).
Proof.
  unfold h_prereqs_add. with_model s.
  eapply triple_bind; [apply triple_prereqs|]. intros d Hd.
  eapply triple_bind with (Q := fun sl => (n <= sl)%nat).
  - destruct (dict_get c' d) as [sl|] eqn:Eg.
    + apply triple_ret. apply dict_get_In in Eg. eauto.
    + eapply triple_bind; [apply triple_alloc_set|]. intros sl Hsl.
      eapply triple_bind.
      * apply triple_put_prereqs. intros k l Hin.
        apply in_app_iff in Hin. destruct Hin as [Hin|[Hin|[]]]; eauto.
        inversion Hin. now subst.
      * intros _ _. now apply triple_ret.
  - intros sl Hsl. eapply triple_bind; [apply triple_set|]. intros st _.
    now apply triple_put_set.
Qed.

Lemma triple_mark_passed code : triple n tl c p (h_mark_passed tl code) (fun _ => True).
Proof.
  unfold h_mark_passed. with_model s.
  eapply triple_bind; [apply triple_courses|]. intros d _.
  destruct (negb (dict_mem _ d)).
  - apply triple_raise.
  - eapply triple_bind; [apply triple_set|]. intros ps _.
    now apply triple_put_set.
Qed.

Lemma triple_plan_loop cap criterion : forall k semesters,
  triple n tl c p (h_plan_loop k tl cap criterion semesters) (fun _ => True).
Proof.
  induction k as [|k IH]; intros semesters; simpl.
  - now apply triple_ret.
  - eapply triple_bind; [apply triple_readonly, readonly_suggest|].
    intros sel _. destruct (fst (fst sel)) as [|x l].
    + now apply triple_ret.
    + eapply triple_bind; [apply triple_for; intros; apply triple_mark_passed|].
      intros _ _. apply IH.
Qed.

Lemma triple_from_dict_fill data :
  triple n tl c p (h_from_dict_fill tl data) (fun r => r = tl).
Proof.
  unfold h_from_dict_fill.
  eapply triple_bind; [apply triple_for; intros; apply triple_set_course|].
  intros _ _. eapply triple_bind.
  { apply triple_for. intros pc.
    eapply triple_bind; [apply triple_prereqs_add|]. intros _ _.
    eapply triple_bind; [apply triple_ensure_course|]. intros _ _.
    apply triple_ensure_course. }
  intros _ _. eapply triple_bind; [apply triple_alloc_set|]. intros s Hs.
  eapply triple_bind; [apply triple_bind_passed; exact Hs|]. intros _ _.
  now apply triple_ret.
Qed.
End WorkingCopy.

Lemma h_new_model_run h :
  h_new_model h =
  (Ok (List.length h + 3)%nat,
   h ++ [OCourses []; OPrereqs []; OSet [];
         OModel (List.length h) (List.length h + 1) (List.length h + 2)]).
Proof.
  unfold h_new_model, hbind, h_alloc. simpl.
  rewrite !length_app. simpl. rewrite <- !app_assoc. simpl.
  replace (List.length h + 1 + 1 + 1)%nat with (List.length h + 3)%nat by lia.
  replace (List.length h + 1 + 1)%nat with (List.length h + 2)%nat by lia.
  reflexivity.
Qed.

Lemma owned_new_model h :
  owned (List.length h) (List.length h + 3) (List.length h) (List.length h + 1)
    (h ++ [OCourses []; OPrereqs []; OSet [];
           OModel (List.length h) (List.length h + 1) (List.length h + 2)]).
Proof.
  exists (List.length h + 2)%nat, [].
  assert (Hnth : forall k o, nth_error [OCourses []; OPrereqs []; OSet [];
             OModel (List.length h) (List.length h + 1) (List.length h + 2)] k = Some o ->
           nth_error (h ++ [OCourses []; OPrereqs []; OSet [];
             OModel (List.length h) (List.length h + 1) (List.length h + 2)])
             (List.length h + k) = Some o).
  { intros k o H. rewrite nth_error_app2 by lia.
    replace (List.length h + k - List.length h)%nat with k by lia. exact H. }
  repeat split; try lia.
  - apply (Hnth 3%nat). reflexivity.
  - apply (Hnth 1%nat). reflexivity.
  - intros k sl [].
Qed.

(** The planner leaves every object that existed before the call as it
    was. *)
Lemma plan_full_frame_heap model cap criterion k h :
  frame (List.length h) h (snd (h_plan_full model cap criterion k h)).
Proof.
  unfold h_plan_full. unfold hbind at 1.
  pose proof (readonly_to_dict model h) as Hro.
  destruct (h_to_dict model h) as [[data|e] h0]; simpl in Hro; subst h0;
    [|apply frame_refl].
  unfold h_from_dict. unfold hbind at 1 2. rewrite h_new_model_run.
  set (h1 := h ++ _).
  pose proof (owned_new_model h) as Ho. fold h1 in Ho.
  assert (Hf1 : frame (List.length h) h h1).
  { split; [unfold h1; rewrite length_app; lia|].
    intros l Hl. unfold h1. now apply nth_error_app1. }
  pose proof (triple_bind _ _ _ _ _ _ _ (fun _ => True)
                (triple_from_dict_fill _ _ _ _ data)
                (fun temp (E : temp = (List.length h + 3)%nat) =>
                   eq_ind_r (fun t => triple _ _ _ _ (h_plan_loop k t cap criterion []) _)
                     (triple_plan_loop _ _ _ _ cap criterion k []) E)
                h1 Ho) as (Hf2 & _ & _).
  unfold hbind in Hf2 at 1.
  eapply frame_trans; [exact Hf1|]. exact Hf2.
Qed.

Lemma frame_extends h h' : frame (List.length h) h h' -> extends h h'.
Proof.
  intros [_ F] l o H. rewrite F; auto. apply nth_error_Some. congruence.
Qed.

Lemma stable_bind {A B} (m : hm A) (k : A -> hm B) :
  readonly m -> stable m -> (forall a, stable (k a)) -> stable (hbind m k).
Proof.
  intros Hr Hm Hk h h' b Hext. unfold hbind.
  pose proof (Hr h) as R1. pose proof (Hr h') as R2.
  pose proof (Hm h h') as S1.
  destruct (m h) as [[a|e] h1]; simpl in *; subst; [|discriminate].
  intros Hb. specialize (S1 a Hext eq_refl).
  destruct (m h') as [r h2]; simpl in *; subst. eapply Hk; eauto.
Qed.

Lemma stable_ret {A} (a : A) : stable (hret a).
Proof. intros h h' b _ H. exact H. Qed.

Lemma stable_model l : stable (h_model l).
Proof.
  intros h h' a Hext. unfold h_model.
  destruct (nth_error h l) as [o|] eqn:E; [|discriminate].
  rewrite (Hext _ _ E). now destruct o.
Qed.

Lemma stable_courses l : stable (h_courses l).
Proof.
  intros h h' a Hext. unfold h_courses.
  destruct (nth_error h l) as [o|] eqn:E; [|discriminate].
  rewrite (Hext _ _ E). now destruct o.
Qed.

Lemma stable_prereqs l : stable (h_prereqs l).
Proof.
  intros h h' a Hext. unfold h_prereqs.
  destruct (nth_error h l) as [o|] eqn:E; [|discriminate].
  rewrite (Hext _ _ E). now destruct o.
Qed.

Lemma stable_set l : stable (h_set l).
Proof.
  intros h h' a Hext. unfold h_set.
  destruct (nth_error h l) as [o|] eqn:E; [|discriminate].
  rewrite (Hext _ _ E). now destruct o.
Qed.

Lemma stable_read_sets d : stable (h_read_sets d).
Proof.
  induction d as [|[k l] d IH]; simpl.
  - apply stable_ret.
  - apply stable_bind; [apply readonly_set|apply stable_set|]. intros s.
    apply stable_bind; [apply readonly_read_sets|exact IH|]. intros r.
    apply stable_ret.
Qed.

Lemma stable_snapshot l : stable (h_snapshot l).
Proof.
  unfold h_snapshot.
  apply stable_bind; [apply readonly_model|apply stable_model|]. intros [[c p] s].
  apply stable_bind; [apply readonly_courses|apply stable_courses|]. intros cs.
  apply stable_bind; [apply readonly_prereqs|apply stable_prereqs|]. intros d.
  apply stable_bind; [apply readonly_read_sets|apply stable_read_sets|]. intros ps.
  apply stable_bind; [apply readonly_set|apply stable_set|]. intros pd.
  apply stable_ret.
Qed.

(** * The planner on the store computes [plan_full] *)

Section SetsRep.
Let R (h : heap) (kl : string * loc) (ks : string * list string) : Prop :=
  fst kl = fst ks /\ nth_error h (snd kl) = Some (OSet (snd ks)).

Lemma sets_rep_heap_set h d ps l o :
  Forall2 (R h) d ps -> ~ In l (map snd d) -> Forall2 (R (heap_set l o h)) d ps.
Proof.
  induction 1 as [|kl ks d ps [Hk Hs] HF IH]; intros Hl; constructor.
  - split; auto. rewrite heap_set_other; auto. intros E. apply Hl. simpl. auto.
  - apply IH. intros H. apply Hl. simpl. auto.
Qed.

Lemma sets_rep_alloc h d ps o : Forall2 (R h) d ps -> Forall2 (R (h ++ [o])) d ps.
Proof.
  induction 1 as [|kl ks d ps [Hk Hs] HF IH]; constructor; auto.
  split; auto. now apply nth_error_snoc_old.
Qed.

Lemma sets_rep_valid h d ps l :
  Forall2 (R h) d ps -> In l (map snd d) -> (l < List.length h)%nat.
Proof.
  induction 1 as [|kl ks d ps [Hk Hs] HF IH]; simpl; [tauto|].
  intros [<-|H]; auto. apply nth_error_Some. congruence.
Qed.

Lemma read_sets_rep h d ps : Forall2 (R h) d ps -> h_read_sets d h = (Ok ps, h).
Proof.
  induction 1 as [|[k l] [k' s] d ps [Hk Hs] HF IH]; simpl in *; auto.
  unfold hbind, h_set. rewrite Hs. fold (h_read_sets d). rewrite IH.
  simpl. now subst.
Qed.

Lemma sets_rep_get h d ps k :
  Forall2 (R h) d ps ->
  match dict_get k d with
  | Some sl => exists s, dict_get k ps = Some s /\ nth_error h sl = Some (OSet s)
  | None => dict_get k ps = None
  end.
Proof.
  induction 1 as [|[k0 l] [k' s] d ps [Hk Hs] HF IH]; simpl in *; auto.
  subst k'. destruct (String.eqb k k0); eauto.
Qed.

Lemma sets_rep_update h d ps k sl new :
  Forall2 (R h) d ps -> NoDup (map snd d) -> dict_get k d = Some sl ->
  Forall2 (R (heap_set sl (OSet new) h)) d (dict_set k new ps).
Proof.
  induction 1 as [|[k0 l] [k' s] d ps [Hk Hs] HF IH]; simpl in *; [discriminate|].
  subst k'. intros Hnd Hget. inversion Hnd as [|? ? Hl Hnd']. subst.
  destruct (String.eqb k k0) eqn:E.
  - inversion Hget. subst l. constructor.
    + split; auto. simpl. apply heap_set_same. apply nth_error_Some. congruence.
    + now apply sets_rep_heap_set.
  - constructor.
    + split; auto. simpl. rewrite heap_set_other; auto.
      intros ->. apply Hl. apply dict_get_In in Hget.
      change sl with (snd (k, sl)). now apply in_map.
    + now apply IH.
Qed.

Lemma sets_rep_snoc h d ps k l s :
  Forall2 (R h) d ps -> nth_error h l = Some (OSet s) ->
  Forall2 (R h) (d ++ [(k, l)]) (ps ++ [(k, s)]).
Proof.
  intros H Hl. apply Forall2_app; auto. constructor; [|constructor].
  split; auto.
Qed.
End SetsRep.

Lemma model_eta T : mkModel (courses T) (prereqs T) (passed T) = T.
Proof. now destruct T. Qed.

Lemma rep_snapshot tl T h : rep tl T h -> h_snapshot tl h = (Ok T, h).
Proof.
  intros (c & p & s & d & Hm & Hc & Hp & Hs & Hd & _).
  unfold h_snapshot, hbind, h_model, h_courses, h_prereqs, h_set.
  rewrite Hm, Hc, Hp. rewrite (read_sets_rep h d (prereqs T) Hd). rewrite Hs.
  unfold hret. now rewrite model_eta.
Qed.

Lemma rep_new_model h :
  rep (List.length h + 3) new_model
    (h ++ [OCourses []; OPrereqs []; OSet [];
           OModel (List.length h) (List.length h + 1) (List.length h + 2)]).
Proof.
  exists (List.length h), (List.length h + 1)%nat, (List.length h + 2)%nat, [].
  assert (Hnth : forall k o, nth_error [OCourses []; OPrereqs []; OSet [];
             OModel (List.length h) (List.length h + 1) (List.length h + 2)] k = Some o ->
           nth_error (h ++ [OCourses []; OPrereqs []; OSet [];
             OModel (List.length h) (List.length h + 1) (List.length h + 2)])
             (List.length h + k) = Some o).
  { intros k o H. rewrite nth_error_app2 by lia.
    replace (List.length h + k - List.length h)%nat with k by lia. exact H. }
  repeat split.
  - apply (Hnth 3%nat). reflexivity.
  - rewrite nth_error_app2 by lia. now rewrite Nat.sub_diag.
  - apply (Hnth 1%nat). reflexivity.
  - apply (Hnth 2%nat). reflexivity.
  - constructor.
  - simpl. repeat constructor. intros [].
Qed.

Section Simulation.
Variable tl : loc.

(** [model.courses] is updated in place. *)
Lemma rep_put_courses T h d' :
  rep tl T h ->
  exists c p s,
    nth_error h tl = Some (OModel c p s) /\
    nth_error h c = Some (OCourses (courses T)) /\
    rep tl (set_courses T d') (heap_set c (OCourses d') h).
Proof.
  intros (c & p & s & d & Hm & Hc & Hp & Hs & Hd & Hnd).
  exists c, p, s. split; auto. split; auto.
  exists c, p, s, d. simpl.
  assert (Hlen : (c < List.length h)%nat) by (apply nth_error_Some; congruence).
  repeat split; auto.
  - rewrite heap_set_other; auto. intros ->. congruence.
  - now apply heap_set_same.
  - rewrite heap_set_other; auto. intros ->. congruence.
  - rewrite heap_set_other; auto. intros ->. congruence.
  - apply sets_rep_heap_set; auto. intros Hin.
    apply in_map_iff in Hin. destruct Hin as ([k l] & E & Hin). simpl in E. subst l.
    clear - Hd Hin Hc. induction Hd as [|kl ks d ps [Hk Hl] HF IH]; [contradiction|].
    destruct Hin as [->|Hin]; auto. simpl in Hl. congruence.
Qed.

Lemma sim_set_course T h k v :
  rep tl T h ->
  exists h', h_set_course tl k v h = (Ok tt, h') /\
             rep tl (set_courses T (dict_set k v (courses T))) h'.
Proof.
  intros Hr.
  destruct (rep_put_courses T h (dict_set k v (courses T)) Hr)
    as (c & p & s & Hm & Hc & Hr').
  eexists. split; [|exact Hr'].
  unfold h_set_course, hbind, h_model, h_put_courses, hbind, h_courses.
  now rewrite Hm, Hc, Hc.
Qed.

Lemma sim_ensure_course T h k :
  rep tl T h ->
  exists h', h_ensure_course tl k h = (Ok tt, h') /\ rep tl (ensure_course k T) h'.
Proof.
  intros Hr.
  destruct (rep_put_courses T h (dict_set k (mkCourse k k 0) (courses T)) Hr)
    as (c & p & s & Hm & Hc & Hr').
  unfold h_ensure_course, ensure_course, hbind, h_model. rewrite Hm.
  unfold h_courses at 1. rewrite Hc.
  destruct (negb (dict_mem k (courses T))).
  - eexists. split; [|exact Hr'].
    unfold h_put_courses, hbind, h_courses. now rewrite Hc.
  - exists h. split; [reflexivity|exact Hr].
Qed.

Lemma sets_rep_kind (h : heap) (d : dict loc) (ps : dict (list string)) l :
  Forall2 (fun kl ks => fst kl = fst ks /\ nth_error h (snd kl) = Some (OSet (snd ks)))
    d ps ->
  In l (map snd d) -> exists s, nth_error h l = Some (OSet s).
Proof.
  induction 1 as [|kl ks d ps [Hk Hs] HF IH]; simpl; [tauto|].
  intros [<-|H]; eauto.
Qed.

Lemma dict_set_app_fresh {V} k (v v0 : V) d :
  ~ In k (dict_keys d) -> dict_set k v (d ++ [(k, v0)]) = d ++ [(k, v)].
Proof.
  induction d as [|[k' v'] d IH]; simpl; intros H.
  - now rewrite String.eqb_refl.
  - destruct (String.eqb_spec k k') as [->|Hne]; [exfalso; auto|].
    f_equal. apply IH. tauto.
Qed.

Lemma prereqs_add_known c' p' ps s0 :
  dict_get c' ps = Some s0 -> prereqs_add c' p' ps = dict_set c' (set_add p' s0) ps.
Proof.
  intros H. unfold prereqs_add.
  rewrite (dict_setdefault_mem c' [] ps) by (eapply dict_get_key; eauto).
  unfold dict_get_default. now rewrite H.
Qed.

Lemma prereqs_add_new c' p' ps :
  dict_get c' ps = None -> prereqs_add c' p' ps = ps ++ [(c', [p'])].
Proof.
  intros H. unfold prereqs_add, dict_setdefault, dict_mem. rewrite H.
  unfold dict_get_default. rewrite dict_get_app, H. simpl.
  rewrite String.eqb_refl. apply dict_set_app_fresh. now apply dict_get_None.
Qed.

Lemma sim_prereqs_add T h c' p' :
  rep tl T h ->
  exists h', h_prereqs_add tl c' p' h = (Ok tt, h') /\
             rep tl (set_prereqs T (prereqs_add c' p' (prereqs T))) h'.
Proof.
  intros (c & p & s & d & Hm & Hc & Hp & Hs & Hd & Hnd).
  inversion Hnd as [|? ? Hsd Hndd]. subst.
  unfold h_prereqs_add, hbind, h_model. rewrite Hm.
  unfold h_prereqs at 1. rewrite Hp.
  pose proof (sets_rep_get h d (prereqs T) c' Hd) as Hget.
  destruct (dict_get c' d) as [sl|] eqn:Eg.
  - destruct Hget as (s0 & Eps & Hsl).
    unfold hret, h_put_set, hbind, h_set. rewrite Hsl. cbv beta iota. rewrite Hsl.
    eexists. split; [reflexivity|].
    assert (Hin : In sl (map snd d)).
    { apply dict_get_In in Eg. change sl with (snd (c', sl)). now apply in_map. }
    exists c, p, s, d. simpl. rewrite (prereqs_add_known c' p' _ s0 Eps).
    repeat split; auto.
    + rewrite heap_set_other; auto. intros ->. congruence.
    + rewrite heap_set_other; auto. intros ->. congruence.
    + rewrite heap_set_other; auto. intros ->. congruence.
    + rewrite heap_set_other; auto. intros ->. contradiction.
    + now apply sets_rep_update.
  - set (sl := List.length h).
    assert (Hold : forall l o, nth_error h l = Some o ->
              l <> sl /\ nth_error (h ++ [OSet []]) l = Some o).
    { intros l o H. split; [|now apply nth_error_snoc_old].
      assert (l < List.length h)%nat by (apply nth_error_Some; congruence).
      unfold sl. lia. }
    assert (Hnew : nth_error (h ++ [OSet []]) sl = Some (OSet [])).
    { unfold sl. rewrite nth_error_app2 by lia. now rewrite Nat.sub_diag. }
    assert (Hfresh : ~ In sl (map snd d)).
    { intros H. apply (sets_rep_valid h d (prereqs T)) in H; auto. unfold sl in H. lia. }
    assert (Hpd : ~ In p (map snd d)).
    { intros H. destruct (sets_rep_kind h d (prereqs T) p Hd H) as (x & Hx). congruence. }
    destruct (Hold _ _ Hm) as [Ntl Hm1]. destruct (Hold _ _ Hc) as [Nc Hc1].
    destruct (Hold _ _ Hp) as [Np Hp1]. destruct (Hold _ _ Hs) as [Ns Hs1].
    unfold h_alloc, h_put_prereqs, h_put_set, hret, hbind, h_prereqs, h_set. fold sl.
    cbv beta iota.
    repeat (first [rewrite Hp1 | rewrite (heap_set_other p sl) by auto | rewrite Hnew];
            cbv beta iota).
    eexists. split; [reflexivity|].
    assert (Hlen1 : (p < List.length (h ++ [OSet []]))%nat)
      by (apply nth_error_Some; congruence).
    assert (Hlen2 : (sl < List.length (heap_set p (OPrereqs (d ++ [(c', sl)])) (h ++ [OSet []])))%nat)
      by (rewrite heap_set_length; apply nth_error_Some; congruence).
    exists c, p, s, (d ++ [(c', sl)]). simpl.
    rewrite (prereqs_add_new c' p' _ Hget).
    repeat split.
    + rewrite !heap_set_other; auto. intros ->. congruence.
    + rewrite !heap_set_other; auto. intros ->. congruence.
    + rewrite heap_set_other by auto. now apply heap_set_same.
    + rewrite !heap_set_other; auto. intros ->. congruence.
    + apply Forall2_app.
      * apply sets_rep_heap_set; auto. apply sets_rep_heap_set; auto.
        now apply sets_rep_alloc.
      * constructor; [|constructor]. split; auto. simpl. now apply heap_set_same.
    + rewrite map_app. simpl. constructor.
      * rewrite in_app_iff. simpl. intros [H|[H|[]]]; auto.
      * apply NoDup_snoc; auto.
Qed.

Lemma sim_bind_passed T h S :
  rep tl T h ->
  exists h',
    (s <~ h_alloc (OSet S) ;; h_bind_passed tl s) h = (Ok tt, h') /\
    rep tl (set_passed T S) h'.
Proof.
  intros (c & p & s & d & Hm & Hc & Hp & Hs & Hd & Hnd).
  inversion Hnd as [|? ? Hsd Hndd]. subst.
  set (sl := List.length h).
  assert (Hold : forall l o, nth_error h l = Some o ->
            l <> sl /\ nth_error (h ++ [OSet S]) l = Some o).
  { intros l o H. split; [|now apply nth_error_snoc_old].
    assert (l < List.length h)%nat by (apply nth_error_Some; congruence).
    unfold sl. lia. }
  assert (Hnew : nth_error (h ++ [OSet S]) sl = Some (OSet S)).
  { unfold sl. rewrite nth_error_app2 by lia. now rewrite Nat.sub_diag. }
  assert (Hfresh : ~ In sl (map snd d)).
  { intros H. apply (sets_rep_valid h d (prereqs T)) in H; auto. unfold sl in H. lia. }
  assert (Htd : ~ In tl (map snd d)).
  { intros H. destruct (sets_rep_kind h d (prereqs T) tl Hd H) as (x & Hx). congruence. }
  destruct (Hold _ _ Hm) as [Ntl Hm1]. destruct (Hold _ _ Hc) as [Nc Hc1].
  destruct (Hold _ _ Hp) as [Np Hp1].
  unfold hbind, h_alloc. fold sl. unfold h_bind_passed, hbind, h_model. rewrite Hm1.
  eexists. split; [reflexivity|].
  exists c, p, sl, d. simpl. repeat split; auto.
  - apply heap_set_same. apply nth_error_Some. congruence.
  - rewrite heap_set_other; auto. intros ->. congruence.
  - rewrite heap_set_other; auto. intros ->. congruence.
  - rewrite heap_set_other; auto.
  - apply sets_rep_heap_set; auto. now apply sets_rep_alloc.
  - constructor; auto.
Qed.

Lemma sim_mark_passed T h code :
  rep tl T h ->
  exists h',
    h_mark_passed tl code h = (fst (mark_passed code T), h') /\
    rep tl (snd (mark_passed code T)) h'.
Proof.
  intros Hr. pose proof Hr as (c & p & s & d & Hm & Hc & Hp & Hs & Hd & Hnd).
  inversion Hnd as [|? ? Hsd Hndd]. subst.
  unfold h_mark_passed, mark_passed, hbind, h_model. rewrite Hm.
  unfold h_courses. rewrite Hc.
  destruct (negb (dict_mem (Str.upper (Str.strip code)) (courses T))).
  - exists h. split; [reflexivity|exact Hr].
  - unfold h_put_set, hbind, h_set. rewrite Hs. cbv beta iota. rewrite Hs.
    eexists. split; [reflexivity|].
    exists c, p, s, d. simpl. repeat split; auto.
    + rewrite heap_set_other; auto. intros ->. congruence.
    + rewrite heap_set_other; auto. intros ->. congruence.
    + rewrite heap_set_other; auto. intros ->. congruence.
    + apply heap_set_same. apply nth_error_Some. congruence.
    + now apply sets_rep_heap_set.
Qed.
End Simulation.

Lemma sim_for {A} tl (body : A -> hm unit) (f : PMaPModel -> A -> PMaPModel) l :
  (forall x T h, rep tl T h ->
     exists h', body x h = (Ok tt, h') /\ rep tl (f T x) h') ->
  forall T h, rep tl T h ->
    exists h', h_for body l h = (Ok tt, h') /\ rep tl (fold_left f l T) h'.
Proof.
  intros Hb. induction l as [|x l IH]; intros T h Hr; simpl.
  - exists h. auto.
  - destruct (Hb x T h Hr) as (h1 & E1 & Hr1).
    destruct (IH _ _ Hr1) as (h2 & E2 & Hr2).
    exists h2. split; auto. unfold hbind. now rewrite E1.
Qed.

Lemma sim_from_dict_fill tl data h :
  rep tl new_model h ->
  exists h', h_from_dict_fill tl data h = (Ok tl, h') /\ rep tl (from_dict data) h'.
Proof.
  intros Hr. unfold h_from_dict_fill, from_dict.
  destruct (sim_for tl
              (fun c => h_set_course tl (Str.upper (e_code c))
                          (mkCourse (Str.upper (e_code c)) (e_name c) (e_credits c)))
              from_dict_course (d_courses data)) with (T := new_model) (h := h)
    as (h1 & E1 & Hr1); auto.
  { intros e T h0 Hr0. apply sim_set_course, Hr0. }
  destruct (sim_for tl
              (fun pc => _ <~ h_prereqs_add tl (Str.upper (snd pc)) (Str.upper (fst pc)) ;;
                         _ <~ h_ensure_course tl (Str.upper (fst pc)) ;;
                         h_ensure_course tl (Str.upper (snd pc)))
              from_dict_edge (d_prerequisites data)) with (T := fold_left from_dict_course (d_courses data) new_model) (h := h1)
    as (h2 & E2 & Hr2); auto.
  { intros pc T h0 Hr0.
    destruct (sim_prereqs_add tl T h0 (Str.upper (snd pc)) (Str.upper (fst pc)) Hr0)
      as (ha & Ea & Hra).
    destruct (sim_ensure_course tl _ ha (Str.upper (fst pc)) Hra) as (hb & Eb & Hrb).
    destruct (sim_ensure_course tl _ hb (Str.upper (snd pc)) Hrb) as (hc & Ec & Hrc).
    exists hc. split; [|exact Hrc].
    unfold hbind. now rewrite Ea, Eb. }
  destruct (sim_bind_passed tl _ h2 (set_of_list (map Str.upper (d_passed data))) Hr2)
    as (h3 & E3 & Hr3).
  exists h3. split; [|exact Hr3].
  unfold hbind at 1. rewrite E1. unfold hbind at 1. rewrite E2.
  unfold hbind in E3. unfold hbind.
  destruct (h_alloc _ h2) as [[s|e] hs]; [|discriminate].
  destruct (h_bind_passed tl s hs) as [[u|e] hb]; inversion E3. reflexivity.
Qed.

Lemma sim_from_dict data h :
  exists h',
    h_from_dict data h = (Ok (List.length h + 3)%nat, h') /\
    rep (List.length h + 3) (from_dict data) h'.
Proof.
  unfold h_from_dict, hbind. rewrite h_new_model_run.
  apply sim_from_dict_fill, rep_new_model.
Qed.

Lemma sim_mark_all tl chosen : forall T h,
  rep tl T h ->
  exists h',
    h_for (h_mark_passed tl) chosen h = (fst (mark_all chosen T), h') /\
    rep tl (snd (mark_all chosen T)) h'.
Proof.
  induction chosen as [|c chosen IH]; intros T h Hr; simpl.
  - exists h. auto.
  - destruct (sim_mark_passed tl T h c Hr) as (h1 & E1 & Hr1).
    unfold hbind. rewrite E1.
    destruct (mark_passed c T) as [[u|e] T1]; simpl in *.
    + apply IH, Hr1.
    + exists h1. auto.
Qed.

Lemma sim_plan_loop tl cap criterion : forall k T h semesters,
  rep tl T h ->
  fst (h_plan_loop k tl cap criterion semesters h) = plan_loop k T cap criterion semesters.
Proof.
  induction k as [|k IH]; intros T h semesters Hr; simpl; auto.
  unfold hbind at 1, h_suggest_next_semester, hbind.
  rewrite (rep_snapshot tl T h Hr).
  destruct (suggest_next_semester T cap criterion) as [sel|e]; simpl; auto.
  destruct (fst (fst sel)) as [|x l]; simpl; auto.
  change (match mark_passed x T with
          | (Ok _, temp') => mark_all l temp'
          | (Raise e, temp') => (Raise e, temp')
          end) with (mark_all (x :: l) T).
  change (_ <~ h_mark_passed tl x ;; h_for (h_mark_passed tl) l)
    with (h_for (h_mark_passed tl) (x :: l)).
  destruct (sim_mark_all tl (x :: l) T h Hr) as (h1 & E1 & Hr1).
  unfold hbind. rewrite E1.
  destruct (mark_all (x :: l) T) as [[u|e] T1]; simpl in *; auto.
Qed.

(** The planner on the store returns what [plan_full] returns on the value
    of the caller's model. *)
Lemma h_plan_full_refines h model M cap criterion k :
  fst (h_snapshot model h) = Ok M ->
  fst (h_plan_full model cap criterion k h) = plan_full M cap criterion k.
Proof.
  intros HM. unfold h_plan_full, h_to_dict, plan_full.
  pose proof (readonly_snapshot model h) as Hro.
  unfold hbind at 1 2.
  destruct (h_snapshot model h) as [r h0]. simpl in *. subst.
  unfold hret. unfold hbind.
  destruct (sim_from_dict (to_dict M) h) as (h1 & E1 & Hr1).
  rewrite E1. now apply sim_plan_loop.
Qed.

(** C8. Whatever the cap, the criterion and the number of terms, and
    whether the planner returns or raises, every object of the store that
    existed before the call to [plan_full] is the same after it; so the
    caller's model reads back as the same catalogue, prerequisites and
    completed set, and the plan is the one computed from that value. *)
Theorem plan_full_frame (h : heap) (model : loc) (credit_cap : Z)
  (criterion : string) (max_semesters : nat) :
  let run := h_plan_full model credit_cap criterion max_semesters h in
  extends h (snd run) /\
  forall M, fst (h_snapshot model h) = Ok M ->
    fst (h_snapshot model (snd run)) = Ok M /\
    fst run = plan_full M credit_cap criterion max_semesters.
Proof.
  intros run.
  assert (Hext : extends h (snd run)) by apply frame_extends, plan_full_frame_heap.
  split; [exact Hext|].
  intros M HM. split.
  - eapply stable_snapshot; eauto.
  - now apply h_plan_full_refines.
Qed.

(** The example data in a store, planned with a cap of 8 credits: three
    terms, and the caller's completed set still holds [MAT101] alone. *)
Example plan_full_example :
  let h := snd (h_from_dict EXAMPLE_DATA []) in
  let run := h_plan_full 3 8 "creditos" 12 h in
  fmap_chosen (fst run) = Ok [["FIS101"; "MAT102"]; ["EDA1"]; ["EDA2"]] /\
  fst (h_snapshot 3 (snd run)) = Ok (from_dict EXAMPLE_DATA).
Proof. split; reflexivity. Qed.

(** * Further properties of the model operations *)

(** ** Normalisation of codes *)

Lemma is_space_upper c : Str.is_space (Str.upper_ascii c) = Str.is_space c.
Proof.
  destruct c as [[] [] [] [] [] [] [] []]; reflexivity.
Qed.

Lemma lstrip_upper s : Str.lstrip (Str.upper s) = Str.upper (Str.lstrip s).
Proof.
  induction s as [|c s IH]; simpl; auto.
  rewrite is_space_upper. now destruct (Str.is_space c).
Qed.

Lemma rstrip_upper s : Str.rstrip (Str.upper s) = Str.upper (Str.rstrip s).
Proof.
  induction s as [|c s IH]; simpl; auto.
  rewrite IH, is_space_upper. destruct (Str.rstrip s); simpl; auto.
  now destruct (Str.is_space c).
Qed.

Lemma strip_upper s : Str.strip (Str.upper s) = Str.upper (Str.strip s).
Proof. unfold Str.strip. now rewrite lstrip_upper, rstrip_upper. Qed.

Lemma rstrip_idem s : Str.rstrip (Str.rstrip s) = Str.rstrip s.
Proof.
  induction s as [|c s IH]; simpl; auto.
  destruct (Str.rstrip s) as [|c' r] eqn:E.
  - destruct (Str.is_space c) eqn:Ec; simpl; auto. now rewrite Ec.
  - simpl. simpl in IH. now rewrite IH.
Qed.

Lemma lstrip_head s :
  match Str.lstrip s with
  | EmptyString => True
  | String c _ => Str.is_space c = false
  end.
Proof.
  induction s as [|c s IH]; simpl; auto.
  destruct (Str.is_space c) eqn:E; auto.
Qed.

Lemma rstrip_head c s :
  Str.is_space c = false -> exists r, Str.rstrip (String c s) = String c r.
Proof.
  intros H. simpl. destruct (Str.rstrip s); [rewrite H|]; eauto.
Qed.

Lemma strip_idem s : Str.strip (Str.strip s) = Str.strip s.
Proof.
  unfold Str.strip. pose proof (lstrip_head s) as H.
  destruct (Str.lstrip s) as [|c t] eqn:E; [reflexivity|].
  destruct (rstrip_head c t H) as (r & Er). rewrite Er.
  cbn [Str.lstrip]. rewrite H. rewrite <- Er. apply rstrip_idem.
Qed.

Lemma normalise_idem s :
  Str.upper (Str.strip (Str.upper (Str.strip s))) = Str.upper (Str.strip s).
Proof. now rewrite strip_upper, strip_idem, upper_idem. Qed.

(** X1. Codes are case- and blank-insensitive: each method gives the same
    outcome and the same model for a code and for its normal form. *)
Theorem methods_normalise (m : PMaPModel) :
  (forall code name credits,
     add_course code name credits m =
     add_course (Str.upper (Str.strip code)) name credits m) /\
  (forall prereq course,
     add_prereq prereq course m =
     add_prereq (Str.upper (Str.strip prereq)) (Str.upper (Str.strip course)) m) /\
  (forall code,
     mark_passed code m = mark_passed (Str.upper (Str.strip code)) m).
Proof.
  repeat split; intros.
  - unfold add_course. now rewrite normalise_idem.
  - unfold add_prereq. now rewrite !normalise_idem.
  - unfold mark_passed. now rewrite normalise_idem.
Qed.

(** ** [add_course] *)

Lemma dict_set_set {V} k (v1 v2 : V) d :
  dict_set k v2 (dict_set k v1 d) = dict_set k v2 d.
Proof.
  induction d as [|[k' v'] d IH]; simpl.
  - now rewrite String.eqb_refl.
  - destruct (String.eqb k k') eqn:E; simpl; rewrite E; auto. now rewrite IH.
Qed.

Lemma dict_setdefault_idem {V} k (v : V) d :
  dict_setdefault k v (dict_setdefault k v d) = dict_setdefault k v d.
Proof.
  apply dict_setdefault_mem. apply dict_keys_setdefault_In. auto.
Qed.

(** X2. [add_course] is an upsert.  The course stored under the normalised code
    is the new one; every other course is as before; a known code keeps its
    place in the catalogue and a new one goes to its end; the prerequisite
    edges and the completed set are untouched. *)
Theorem add_course_upsert (code name : string) (credits : Z) (m : PMaPModel) :
  let k := Str.upper (Str.strip code) in
  let m' := add_course code name credits m in
  dict_get k (courses m') = Some (mkCourse k (Str.strip name) credits) /\
  (forall k', k' <> k -> dict_get k' (courses m') = dict_get k' (courses m)) /\
  catalog m' = (if dict_mem k (courses m) then catalog m else catalog m ++ [k]) /\
  (forall p c, is_prereq m' p c <-> is_prereq m p c) /\
  passed m' = passed m.
Proof.
  intros k m'. unfold m', add_course. fold k. simpl.
  split; [apply dict_get_set_eq|].
  split; [intros k' Hk'; apply dict_get_set_neq; congruence|].
  split; [apply dict_keys_set|]. split; [|reflexivity].
  intros p c. unfold is_prereq, prereqs_of. simpl.
  now rewrite dict_get_default_setdefault.
Qed.

(** X3. Adding the same code again replaces the earlier entry: the last call
    wins, and nothing else remembers the first. *)
Theorem add_course_last_wins code code' n1 n2 c1 c2 (m : PMaPModel) :
  Str.upper (Str.strip code) = Str.upper (Str.strip code') ->
  add_course code' n2 c2 (add_course code n1 c1 m) = add_course code' n2 c2 m.
Proof.
  intros E. unfold add_course, set_courses, set_prereqs. simpl.
  rewrite E, dict_set_set, dict_setdefault_idem. reflexivity.
Qed.

Lemma add_course_last_wins_witness :
  add_course "EDA1 " "Estructuras" 4 (add_course "eda1" "Datos" 3 new_model)
  = add_course "EDA1 " "Estructuras" 4 new_model.
Proof.
  apply (add_course_last_wins "eda1" "EDA1 " "Datos" "Estructuras" 3 4 new_model).
  reflexivity.
Defined.

(** ** [mark_passed] *)

Lemma set_add_idem x s : set_add x (set_add x s) = set_add x s.
Proof.
  unfold set_add at 1.
  assert (H : set_mem x (set_add x s) = true) by (apply set_mem_In, In_set_add; auto).
  now rewrite H.
Qed.

(** X4. Marking a catalogue code succeeds and adds exactly the normalised
    code to the completed set; marking any other code raises [KeyError] and
    leaves the model as it was.  Either way catalogue and edges are
    untouched, and a second call with the same code has the same outcome
    and changes nothing more. *)
Theorem mark_passed_idempotent (code : string) (m : PMaPModel) :
  let k := Str.upper (Str.strip code) in
  let m' := snd (mark_passed code m) in
  mark_passed code m' = (fst (mark_passed code m), m') /\
  courses m' = courses m /\ prereqs m' = prereqs m /\
  (In k (catalog m) ->
   fst (mark_passed code m) = Ok tt /\
   forall c, In c (passed m') <-> c = k \/ In c (passed m)) /\
  (~ In k (catalog m) ->
   (exists msg, fst (mark_passed code m) = Raise (KeyError msg)) /\ m' = m).
Proof.
  intros k m'. unfold m', k, mark_passed.
  destruct (dict_mem (Str.upper (Str.strip code)) (courses m)) eqn:E; simpl.
  - rewrite E. simpl. unfold set_passed. simpl. rewrite set_add_idem.
    split; [reflexivity|]. split; [reflexivity|]. split; [reflexivity|]. split.
    + intros _. split; [reflexivity|]. intros c. apply In_set_add.
    + intros H. exfalso. apply H. now apply dict_mem_In.
  - rewrite E. simpl.
    split; [reflexivity|]. split; [reflexivity|]. split; [reflexivity|]. split.
    + intros H. apply dict_mem_In in H. unfold catalog in H. congruence.
    + intros _. split; [eexists; reflexivity|reflexivity].
Qed.

Lemma mark_passed_idempotent_witness :
  let k := Str.upper (Str.strip " b ") in
  let m' := snd (mark_passed " b " test_model) in
  mark_passed " b " m' = (fst (mark_passed " b " test_model), m') /\
  courses m' = courses test_model /\ prereqs m' = prereqs test_model /\
  (In k (catalog test_model) ->
   fst (mark_passed " b " test_model) = Ok tt /\
   forall c, In c (passed m') <-> c = k \/ In c (passed test_model)) /\
  (~ In k (catalog test_model) ->
   (exists msg, fst (mark_passed " b " test_model) = Raise (KeyError msg)) /\
   m' = test_model).
Proof.
  apply (mark_passed_idempotent " b " test_model).
Defined.

(** ** [from_dict] and [to_dict] *)

Lemma find_snoc {A} (f : A -> bool) l x :
  find f (l ++ [x]) =
  match find f l with Some y => Some y | None => if f x then Some x else None end.
Proof.
  induction l as [|a l IH]; simpl; auto. now destruct (f a).
Qed.

Lemma from_dict_courses_get k : forall l m,
  dict_get k (courses (fold_left from_dict_course l m)) =
  match last_entry k l with
  | Some e => Some (mkCourse k (e_name e) (e_credits e))
  | None => dict_get k (courses m)
  end.
Proof.
  unfold last_entry. induction l as [|e l IH]; intros m; simpl; auto.
  rewrite IH, find_snoc.
  destruct (find _ (rev l)); auto.
  unfold from_dict_course. simpl.
  destruct (String.eqb_spec (Str.upper (e_code e)) k) as [<-|Hne].
  - apply dict_get_set_eq.
  - now apply dict_get_set_neq.
Qed.

Lemma ensure_course_get k k' m :
  dict_get k' (courses (ensure_course k m)) =
  match dict_get k' (courses m) with
  | Some c => Some c
  | None => if String.eqb k k' then Some (mkCourse k k 0) else None
  end.
Proof.
  destruct (dict_get k' (courses m)) as [c|] eqn:E.
  - rewrite ensure_course_get_old; auto. eapply dict_get_key; eauto.
  - apply dict_get_None in E. destruct (String.eqb_spec k k') as [->|Hne].
    + now apply ensure_course_get_new.
    + apply dict_get_None. intros H. apply ensure_course_cases in H.
      destruct H; [congruence|contradiction].
Qed.

Lemma from_dict_edges_get k : forall l m,
  dict_get k (courses (fold_left from_dict_edge l m)) =
  match dict_get k (courses m) with
  | Some c => Some c
  | None => if endpoint k l then Some (mkCourse k k 0) else None
  end.
Proof.
  unfold endpoint. induction l as [|[p c] l IH]; intros m; simpl.
  - now destruct (dict_get k (courses m)).
  - rewrite IH, from_dict_edge_eq. simpl. rewrite !ensure_course_get.
    destruct (dict_get k (courses m)); auto.
    destruct (String.eqb_spec (Str.upper p) k) as [->|Hp]; simpl; auto.
    destruct (String.eqb_spec (Str.upper c) k) as [->|Hc]; simpl; auto.
Qed.

(** The edges [from_dict] loads are the listed pairs, in upper case. *)
Lemma from_dict_is_prereq (data : ModelData) p c :
  is_prereq (from_dict data) p c <->
  In (p, c) (map (fun pc => (Str.upper (fst pc), Str.upper (snd pc)))
               (d_prerequisites data)).
Proof.
  unfold from_dict.
  change (is_prereq (set_passed ?x ?s) p c) with (is_prereq x p c).
  rewrite from_dict_edges_prereqs.
  unfold is_prereq at 1, prereqs_of. rewrite from_dict_courses_prereqs. simpl.
  tauto.
Qed.

(** X5. What [from_dict] loads.  A code is in the catalogue when it is listed
    as a course or is an endpoint of a listed edge; a listed code carries
    the name and credits of its last entry, an endpoint that is not listed
    is a placeholder; the edges are the listed pairs and the completed set
    the listed codes, all in upper case. *)
Theorem from_dict_contents (data : ModelData) :
  let m := from_dict data in
  (forall k, dict_get k (courses m) =
     match last_entry k (d_courses data) with
     | Some e => Some (mkCourse k (e_name e) (e_credits e))
     | None =>
         if endpoint k (d_prerequisites data) then Some (mkCourse k k 0) else None
     end) /\
  (forall p c, is_prereq m p c <->
     In (p, c) (map (fun pc => (Str.upper (fst pc), Str.upper (snd pc)))
                  (d_prerequisites data))) /\
  (forall k, In k (passed m) <-> In k (map Str.upper (d_passed data))).
Proof.
  intros m. unfold m, from_dict. split; [|split].
  - intros k. change (courses (set_passed ?x ?s)) with (courses x).
    rewrite from_dict_edges_get, from_dict_courses_get. simpl.
    now destruct (last_entry k (d_courses data)).
  - intros p c. apply (from_dict_is_prereq data).
  - intros k. simpl. apply In_set_of_list.
Qed.

Lemma fold_left_map_ext {A B} (f : A -> B -> A) (g : B -> B) l :
  (forall a x, f a (g x) = f a x) ->
  forall a, fold_left f (map g l) a = fold_left f l a.
Proof.
  intros H. induction l as [|x l IH]; intros a; simpl; auto.
  now rewrite H, IH.
Qed.

(** X6. Loading is case-insensitive: a document and its upper-cased form give
    the same model. *)
Theorem from_dict_upper (data : ModelData) : from_dict (upper_data data) = from_dict data.
Proof.
  unfold from_dict, upper_data. simpl.
  rewrite map_map.
  rewrite (map_ext (fun x => Str.upper (Str.upper x)) Str.upper) by apply upper_idem.
  f_equal. rewrite !fold_left_map_ext; auto.
  - intros a e. unfold from_dict_course. cbn [e_code e_name e_credits].
    now rewrite !upper_idem.
  - intros a [p c]. unfold from_dict_edge. cbn [fst snd]. now rewrite !upper_idem.
Qed.

(** X7. [from_dict] has no check for a course that is its own prerequisite:
    an edge whose two codes agree after upper-casing is loaded and the
    model has a directed cycle; [topo_sort] reports it, flag and closed
    walk, when the interpreter allows more nested calls than the catalogue
    has codes. *)
Theorem from_dict_self_edge (depth : nat) (data : ModelData) (a b : string) :
  In (a, b) (d_prerequisites data) -> Str.upper a = Str.upper b ->
  (List.length (catalog (from_dict data)) < depth)%nat ->
  is_prereq (from_dict data) (Str.upper a) (Str.upper a) /\
  has_directed_cycle (from_dict data) /\
  exists order c,
    topo_sort depth (from_dict data) = Ok (order, true, Some c) /\
    closed_walk (from_dict data) c.
Proof.
  intros Hin E Hd.
  assert (Hself : is_prereq (from_dict data) (Str.upper a) (Str.upper a)).
  { apply (from_dict_is_prereq data). apply in_map_iff.
    exists (a, b). simpl. split; auto. now rewrite E. }
  assert (Hhas : has_directed_cycle (from_dict data)).
  { exists (Str.upper a). now apply path_edge. }
  split; [exact Hself|]. split; [exact Hhas|].
  destruct (reachable_ok _ (reach_from_dict data)) as [Hwf Hcl _ _].
  rewrite <- (build_graph_size _ Hwf Hcl) in Hd.
  destruct (topo_sort_spec depth _ Hwf Hd)
    as (order & flag & cyc & Et & _ & _ & _ & _ & Hflag & Hcyc & _).
  assert (Hf : flag = true) by now apply Hflag.
  subst flag. destruct (Hcyc eq_refl) as (c & -> & Hc).
  exists order, c. auto.
Qed.

Lemma from_dict_self_edge_witness :
  is_prereq (from_dict (mkData [] [("eda1", "EDA1")] [])) "EDA1" "EDA1" /\
  has_directed_cycle (from_dict (mkData [] [("eda1", "EDA1")] [])) /\
  exists order c,
    topo_sort 2 (from_dict (mkData [] [("eda1", "EDA1")] [])) = Ok (order, true, Some c) /\
    closed_walk (from_dict (mkData [] [("eda1", "EDA1")] [])) c.
Proof.
  apply (from_dict_self_edge 2 (mkData [] [("eda1", "EDA1")] []) "eda1" "EDA1").
  - simpl. auto.
  - reflexivity.
  - vm_compute. lia.
Defined.

(** X8. What [to_dict] writes for a model built by the public operations: one
    course entry per catalogue code, in catalogue order; every prerequisite
    edge once; the completed codes once each, in ascending order. *)
Theorem to_dict_contents (m : PMaPModel) :
  reachable m ->
  let d := to_dict m in
  map e_code (d_courses d) = catalog m /\
  (forall e, In e (d_courses d) ->
     dict_get (e_code e) (courses m) = Some (mkCourse (e_code e) (e_name e) (e_credits e))) /\
  NoDup (d_prerequisites d) /\
  (forall p c, In (p, c) (d_prerequisites d) <-> is_prereq m p c) /\
  NoDup (d_passed d) /\
  (forall c, In c (d_passed d) <-> In c (passed m)) /\
  StronglySorted (fun a b => String.leb a b = true) (d_passed d).
Proof.
  intros Hr d. apply reachable_ok in Hr. destruct Hr as [Hwf Hcl Hk Hcan].
  unfold d, to_dict. simpl. repeat split.
  - unfold dict_values, catalog, dict_keys. rewrite !map_map. apply map_ext_in.
    intros [k c] Hin. simpl. now apply Hk.
  - intros e He. unfold dict_values in He. rewrite map_map in He.
    apply in_map_iff in He. destruct He as ([k c] & <- & Hin). simpl.
    rewrite course_eta, (Hk _ _ Hin). apply In_dict_get; auto. apply Hwf.
  - now apply NoDup_edge_list.
  - now apply (In_edge_list m p c Hwf).
  - now apply (In_edge_list m p c Hwf).
  - eapply Permutation_NoDup; [symmetry; apply sorted_by_perm|]. apply Hwf.
  - now apply In_sorted.
  - now apply In_sorted.
  - apply sorted_ascending.
Qed.

Lemma to_dict_contents_witness :
  let d := to_dict test_model in
  map e_code (d_courses d) = catalog test_model /\
  (forall e, In e (d_courses d) ->
     dict_get (e_code e) (courses test_model)
     = Some (mkCourse (e_code e) (e_name e) (e_credits e))) /\
  NoDup (d_prerequisites d) /\
  (forall p c, In (p, c) (d_prerequisites d) <-> is_prereq test_model p c) /\
  NoDup (d_passed d) /\
  (forall c, In c (d_passed d) <-> In c (passed test_model)) /\
  StronglySorted (fun a b => String.leb a b = true) (d_passed d).
Proof.
  apply (to_dict_contents test_model). apply reach_from_dict.
Defined.

(** ** [build_graph] and the counts of [action_metrics] *)

Lemma build_edge_keys base adj ind p c :
  dict_keys adj = base -> dict_keys ind = base -> In p base -> In c base ->
  dict_keys (fst (build_edge c (adj, ind) p)) = base /\
  dict_keys (snd (build_edge c (adj, ind) p)) = base.
Proof.
  intros Ha Hi Hp Hc. unfold build_edge. simpl.
  rewrite (dict_setdefault_mem p [] adj) by now rewrite Ha.
  rewrite dict_keys_set_mem by now rewrite Ha.
  rewrite dict_setdefault_mem; rewrite dict_keys_set_mem; rewrite ?Hi; auto.
Qed.

Lemma build_edges_keys base : forall es adj ind,
  dict_keys adj = base -> dict_keys ind = base ->
  (forall p c, In (p, c) es -> In p base /\ In c base) ->
  let g := fold_left (fun g e => build_edge (snd e) g (fst e)) es (adj, ind) in
  dict_keys (fst g) = base /\ dict_keys (snd g) = base.
Proof.
  induction es as [|[p c] es IH]; intros adj ind Ha Hi Hes; cbn [fold_left fst snd].
  - auto.
  - destruct (Hes p c) as [Hp Hc]; [simpl; auto|].
    destruct (build_edge_keys base adj ind p c Ha Hi Hp Hc) as [Ha' Hi'].
    destruct (build_edge c (adj, ind) p) as [adj' ind']. cbn [fst snd] in *.
    apply IH; auto. intros p' c' H. apply Hes. simpl. auto.
Qed.

Lemma build_courses_keys base : forall l g,
  dict_keys (fst g) = base -> dict_keys (snd g) = base ->
  (forall c, In c l -> In c base) ->
  dict_keys (fst (fold_left build_course l g)) = base /\
  dict_keys (snd (fold_left build_course l g)) = base.
Proof.
  induction l as [|c l IH]; intros g Ha Hi Hl; simpl; auto.
  apply IH.
  - simpl. rewrite dict_setdefault_mem; auto. rewrite Ha. apply Hl. simpl. auto.
  - simpl. rewrite dict_setdefault_mem; auto. rewrite Hi. apply Hl. simpl. auto.
  - intros c' H. apply Hl. simpl. auto.
Qed.

Lemma build_graph_keys m :
  well_formed m -> prereqs_closed m ->
  dict_keys (fst (build_graph m)) = catalog m /\
  dict_keys (snd (build_graph m)) = catalog m.
Proof.
  intros Hwf Hcl. unfold build_graph. rewrite fold_edges_flat.
  fold (edge_list m). fold (catalog m).
  destruct (build_edges_keys (catalog m) (edge_list m)
              (map (fun c => (c, [])) (catalog m)) (map (fun c => (c, 0%Z)) (catalog m)))
    as [Ha Hi]; try apply dict_keys_const_map.
  { intros p c H. apply (In_edge_list m p c Hwf) in H.
    destruct (prereqs_of_closed _ _ _ Hcl H). auto. }
  apply build_courses_keys; auto.
Qed.

Lemma preds_edge_list_length m v :
  well_formed m ->
  List.length (preds (edge_list m) v) = List.length (prereqs_of m v).
Proof.
  intros Hwf. apply Permutation_length, NoDup_Permutation.
  - apply NoDup_preds, NoDup_edge_list, Hwf.
  - now apply prereqs_of_NoDup.
  - intros u. rewrite In_preds. apply (In_edge_list m u v Hwf).
Qed.

(** X9. The derived graph of a model built by the public operations: both
    mappings have exactly the catalogue codes as keys, in catalogue order,
    isolated courses included; [v] is in the adjacency set of [u] exactly
    when [u] is a prerequisite of [v], each set without repetition; and the
    indegree of a course is the number of its prerequisites. *)
Theorem build_graph_contents (m : PMaPModel) :
  reachable m ->
  let adjacency := fst (build_graph m) in
  let indegree := snd (build_graph m) in
  dict_keys adjacency = catalog m /\
  dict_keys indegree = catalog m /\
  (forall u v, In v (dict_get_default u [] adjacency) <-> is_prereq m u v) /\
  (forall u, NoDup (dict_get_default u [] adjacency)) /\
  (forall v, In v (catalog m) ->
     dict_get v indegree = Some (Z.of_nat (List.length (prereqs_of m v)))).
Proof.
  intros Hr adjacency indegree. apply reachable_ok in Hr.
  destruct Hr as [Hwf Hcl _ _].
  pose proof (build_graph_spec m Hwf) as Hg.
  destruct (build_graph_keys m Hwf Hcl) as [Ka Ki].
  split; [exact Ka|]. split; [exact Ki|]. split; [|split].
  - intros u v. unfold adjacency. rewrite (gs_adj _ _ _ _ Hg), In_succs.
    apply (In_edge_list m u v Hwf).
  - intros u. unfold adjacency. rewrite (gs_adj _ _ _ _ Hg).
    apply NoDup_succs, NoDup_edge_list, Hwf.
  - intros v Hv. pose proof (gs_ind _ _ _ _ Hg v) as Hi.
    unfold dict_get_default in Hi. fold indegree in Hi.
    destruct (dict_get v indegree) eqn:E.
    + now rewrite Hi, preds_edge_list_length.
    + apply dict_get_None in E. unfold indegree in E. rewrite Ki in E. contradiction.
Qed.

Lemma build_graph_contents_witness :
  let adjacency := fst (build_graph test_model) in
  let indegree := snd (build_graph test_model) in
  dict_keys adjacency = catalog test_model /\
  dict_keys indegree = catalog test_model /\
  (forall u v, In v (dict_get_default u [] adjacency) <-> is_prereq test_model u v) /\
  (forall u, NoDup (dict_get_default u [] adjacency)) /\
  (forall v, In v (catalog test_model) ->
     dict_get v indegree = Some (Z.of_nat (List.length (prereqs_of test_model v)))).
Proof.
  apply (build_graph_contents test_model). apply reach_from_dict.
Defined.

Lemma count_one (a : string) ks :
  NoDup ks -> In a ks ->
  fold_right Z.add 0%Z (map (fun u => if String.eqb a u then 1 else 0)%Z ks) = 1%Z.
Proof.
  induction 1 as [|k ks Hk Hnd IH]; intros Hin; [contradiction|]. simpl.
  destruct (String.eqb_spec a k) as [->|Hne].
  - assert (E : fold_right Z.add 0%Z (map (fun u => if String.eqb k u then 1 else 0)%Z ks) = 0%Z).
    { clear - Hk. induction ks as [|x ks IH]; simpl; auto.
      destruct (String.eqb_spec k x) as [->|_]; [exfalso; apply Hk; simpl; auto|].
      rewrite IH; auto. intros H. apply Hk. simpl. auto. }
    rewrite E. reflexivity.
  - destruct Hin as [->|Hin]; [congruence|]. rewrite IH; auto.
Qed.

Lemma sum_succs_cons p c es ks :
  (fold_right Z.add 0 (map (fun u => Z.of_nat (List.length (succs ((p, c) :: es) u))) ks)
   = fold_right Z.add 0 (map (fun u => if String.eqb p u then 1 else 0) ks)
     + fold_right Z.add 0 (map (fun u => Z.of_nat (List.length (succs es u))) ks))%Z.
Proof.
  induction ks as [|k ks IH]; cbn [map fold_right]; auto.
  rewrite IH.
  assert (E : succs ((p, c) :: es) k =
              if String.eqb p k then c :: succs es k else succs es k).
  { unfold succs. simpl. now destruct (String.eqb p k). }
  rewrite E. destruct (String.eqb p k); cbn [List.length]; lia.
Qed.

Lemma sum_succs ks : NoDup ks -> forall es,
  (forall p c, In (p, c) es -> In p ks) ->
  fold_right Z.add 0%Z (map (fun u => Z.of_nat (List.length (succs es u))) ks)
  = Z.of_nat (List.length es).
Proof.
  intros Hnd. induction es as [|[p c] es IH]; intros Hes.
  - simpl. clear. induction ks; simpl; auto.
  - assert (Hp : In p ks) by (apply (Hes p c); simpl; auto).
    assert (Hes' : forall p' c', In (p', c') es -> In p' ks)
      by (intros p' c' H; apply (Hes p' c'); simpl; auto).
    rewrite sum_succs_cons, (IH Hes'), (count_one p ks Hnd Hp).
    cbn [List.length]. lia.
Qed.

(** X10. The counts printed by [action_metrics] on a model built by the public
    operations: [V] is the number of catalogue courses and [E] the number
    of prerequisite edges. *)
Theorem metrics_counts_spec (m : PMaPModel) :
  reachable m ->
  metrics_counts m =
  (Z.of_nat (List.length (catalog m)), Z.of_nat (List.length (edge_list m))).
Proof.
  intros Hr. apply reachable_ok in Hr. destruct Hr as [Hwf Hcl _ _].
  pose proof (build_graph_spec m Hwf) as Hg.
  destruct (build_graph_keys m Hwf Hcl) as [Ka _].
  unfold metrics_counts. destruct (build_graph m) as [adj ind]. cbn [fst snd] in *.
  f_equal.
  - rewrite <- Ka. unfold dict_keys. now rewrite length_map.
  - rewrite <- (sum_succs (catalog m) (wf_courses _ Hwf) (edge_list m)).
    + rewrite <- Ka. unfold dict_values, dict_keys. rewrite !map_map.
      f_equal. apply map_ext_in. intros [u s] Hin. simpl.
      rewrite <- (gs_adj _ _ _ _ Hg u).
      assert (Hnd : NoDup (dict_keys adj)) by (rewrite Ka; apply Hwf).
      now rewrite (dict_get_default_Some u s [] adj (In_dict_get _ _ _ Hnd Hin)).
    + intros p c H. apply (In_edge_list m p c Hwf) in H.
      now destruct (prereqs_of_closed _ _ _ Hcl H).
Qed.

Lemma metrics_counts_spec_witness :
  metrics_counts (from_dict EXAMPLE_DATA) =
  (Z.of_nat (List.length (catalog (from_dict EXAMPLE_DATA))),
   Z.of_nat (List.length (edge_list (from_dict EXAMPLE_DATA)))).
Proof.
  apply (metrics_counts_spec (from_dict EXAMPLE_DATA)). apply reach_from_dict.
Defined.

(** ** [topo_sort] on a model with a cycle *)

Lemma split_unique {A} (l1 l1' l2 l2' : list A) v :
  ~ In v l1 -> ~ In v l1' -> l1 ++ v :: l2 = l1' ++ v :: l2' -> l1 = l1'.
Proof.
  revert l1'. induction l1 as [|a l1 IH]; intros [|a' l1'] H1 H2 E; simpl in *; auto.
  - inversion E. subst. exfalso. auto.
  - inversion E. subst. exfalso. auto.
  - inversion E. subst. f_equal. apply IH with (l1' := l1'); auto.
Qed.

Lemma before_topological (E : string -> string -> Prop) order :
  NoDup order ->
  (forall u v, E u v -> In v order -> before u v order) ->
  forall l1 v l2, order = l1 ++ v :: l2 -> forall u, E u v -> In u l1.
Proof.
  intros Hnd Hb l1 v l2 Hs u Huv.
  destruct (Hb u v Huv) as (l1' & l2' & Hs' & Hu).
  { rewrite Hs. apply in_or_app. simpl. auto. }
  assert (H1 : ~ In v l1).
  { rewrite Hs in Hnd. apply NoDup_remove_2 in Hnd.
    intros H. apply Hnd, in_or_app. auto. }
  assert (H2 : ~ In v l1').
  { rewrite Hs' in Hnd. apply NoDup_remove_2 in Hnd.
    intros H. apply Hnd, in_or_app. auto. }
  rewrite Hs in Hs'. rewrite (split_unique l1 l1' l2 l2' v H1 H2 Hs'). exact Hu.
Qed.

Lemma chain_suffix (E : string -> string -> Prop) l1 l2 : chain E (l1 ++ l2) -> chain E l2.
Proof.
  induction l1 as [|a l1 IH]; simpl; auto.
  intros H. apply IH. eapply chain_tail; eauto.
Qed.

(** Every code of a closed walk lies on a cycle. *)
Lemma closed_walk_cycle (E : string -> string -> Prop) v mid x :
  chain E (v :: mid ++ [v]) -> In x (v :: mid ++ [v]) -> path E x x.
Proof.
  intros Hc Hx.
  assert (Hv : path E v v).
  { eapply chain_path; eauto. apply in_or_app. simpl. auto. }
  destruct Hx as [<-|Hx]; auto.
  apply in_app_iff in Hx. destruct Hx as [Hx|[<-|[]]]; auto.
  apply in_split in Hx. destruct Hx as (a & b & ->).
  assert (Hvx : path E v x).
  { eapply chain_path; eauto. rewrite <- app_assoc. apply in_or_app. simpl. auto. }
  assert (Hxv : path E x v).
  { assert (Hs : chain E (x :: b ++ [v])).
    { apply (chain_suffix E (v :: a)). simpl. now rewrite <- app_assoc in Hc. }
    eapply chain_path; eauto. apply in_or_app. simpl. auto. }
  eapply path_trans; eauto.
Qed.

(** X11. Also when it finds a cycle, [topo_sort] returns a usable partial order:
    no code twice, every listed code after all its prerequisites, and no
    code that lies on a cycle, in particular none of the reported cycle.
    This holds of whatever [topo_sort] returns, at every depth; and it does
    return when the interpreter allows more nested calls than the catalogue
    has codes. *)
Theorem topo_sort_partial_order (depth : nat) (m : PMaPModel) :
  well_formed m -> prereqs_closed m ->
  (forall order flag cyc,
     topo_sort depth m = Ok (order, flag, cyc) ->
     NoDup order /\
     (forall p c, is_prereq m p c -> In c order -> before p c order) /\
     (forall x, path (is_prereq m) x x -> ~ In x order) /\
     (forall c x, cyc = Some c -> In x c -> ~ In x order)) /\
  ((List.length (catalog m) < depth)%nat ->
   exists order flag cyc, topo_sort depth m = Ok (order, flag, cyc)).
Proof.
  intros Hwf Hcl. split.
  - intros order flag cyc E.
    destruct (topo_sort_any depth m Hwf) as [Eany|(Er & _)]; [|congruence].
    destruct (topo_sort_spec _ m Hwf
                (Nat.lt_lt_add_l _ _ depth (Nat.lt_succ_diag_r _)))
      as (order' & flag' & cyc' & E' & Hnd & _ & _ & Hbef & Hflag & Hcyc & Hnone).
    rewrite <- Eany, E in E'. inversion E'. subst order' flag' cyc'.
    split; [exact Hnd|]. split; [exact Hbef|].
    assert (Hout : forall x, path (is_prereq m) x x -> ~ In x order).
    { intros x Hp Hx.
      exact (topological_no_cycle (is_prereq m) order
               (before_topological (is_prereq m) order Hnd Hbef) x Hnd Hx Hp). }
    split; [exact Hout|].
    intros c x -> Hx. apply Hout.
    destruct flag; [|now specialize (Hnone eq_refl)].
    destruct (Hcyc eq_refl) as (c' & Ec & (v & mid & ->) & Hch).
    inversion Ec. subst. eapply closed_walk_cycle; eauto.
  - intros Hd. rewrite <- (build_graph_size m Hwf Hcl) in Hd.
    destruct (topo_sort_spec depth m Hwf Hd) as (order & flag & cyc & E & _).
    exists order, flag, cyc. exact E.
Qed.

Lemma topo_sort_partial_order_witness :
  (forall order flag cyc,
     topo_sort 5 (snd (add_prereq "C" "A" test_model)) = Ok (order, flag, cyc) ->
     NoDup order /\
     (forall p c, is_prereq (snd (add_prereq "C" "A" test_model)) p c ->
                  In c order -> before p c order) /\
     (forall x, path (is_prereq (snd (add_prereq "C" "A" test_model))) x x ->
                ~ In x order) /\
     (forall c x, cyc = Some c -> In x c -> ~ In x order)) /\
  ((List.length (catalog (snd (add_prereq "C" "A" test_model))) < 5)%nat ->
   exists order flag cyc,
     topo_sort 5 (snd (add_prereq "C" "A" test_model)) = Ok (order, flag, cyc)).
Proof.
  apply (topo_sort_partial_order 5 (snd (add_prereq "C" "A" test_model)));
    apply reachable_ok, reach_add_prereq, reach_from_dict.
Defined.

(** ** Eligibility: candidates, blocked courses and completion *)

(** The candidates of a closed, well-formed model. *)
Lemma candidates_char m :
  well_formed m -> prereqs_closed m ->
  exists l,
    candidates m = Ok l /\
    forall c, In c l <->
      In c (catalog m) /\ ~ In c (passed m) /\
      (forall p, is_prereq m p c -> In p (passed m)).
Proof.
  intros Hwf Hcl.
  destruct (current_indegree_effective_spec m Hwf Hcl) as (indeg & E & K & G).
  assert (Hnd : NoDup (dict_keys indeg)) by (rewrite K; apply Hwf).
  unfold candidates. rewrite E. simpl. eexists. split; [reflexivity|].
  intros c. rewrite In_sorted, in_map_iff. split.
  - intros ([c' d] & <- & Hin). apply filter_In in Hin. simpl in *.
    destruct Hin as [Hin Hb]. apply andb_true_iff in Hb. destruct Hb as [Hd Hp].
    apply Z.eqb_eq in Hd. subst d.
    assert (Hc : In c' (catalog m)).
    { rewrite <- K. change c' with (fst (c', 0%Z)). now apply in_map. }
    split; [exact Hc|]. split; [now apply set_mem_false, negb_true_iff|].
    apply In_dict_get in Hin; auto. rewrite (G _ Hc) in Hin. inversion Hin as [Hz].
    apply missing_nil, length_zero_iff_nil. lia.
  - intros (Hc & Hp & Hall). exists (c, 0%Z). split; [reflexivity|].
    apply filter_In. split.
    + apply dict_get_In. rewrite (G _ Hc). apply missing_nil in Hall.
      unfold is_prereq in Hall. now rewrite Hall.
    + simpl. now apply negb_true_iff, set_mem_false.
Qed.

Lemma missing_prereqs_In m c p :
  In p (missing_prereqs m c) <-> is_prereq m p c /\ ~ In p (passed m).
Proof.
  unfold missing_prereqs, is_prereq, prereqs_of.
  rewrite filter_In, negb_true_iff, set_mem_false. tauto.
Qed.

(** The blocked courses of a closed, well-formed model. *)
Lemma blocked_char m :
  well_formed m -> prereqs_closed m ->
  exists l,
    blocked_courses m = Ok l /\ NoDup l /\
    forall c, In c l <->
      In c (catalog m) /\ ~ In c (passed m) /\ missing_prereqs m c <> [].
Proof.
  intros Hwf Hcl.
  destruct (current_indegree_effective_spec m Hwf Hcl) as (indeg & E & K & G).
  assert (Hnd : NoDup (dict_keys indeg)) by (rewrite K; apply Hwf).
  unfold blocked_courses. rewrite E. simpl. eexists. split; [reflexivity|]. split.
  - clear - Hnd. unfold dict_keys in Hnd.
    induction indeg as [|[k d] l IH]; simpl in *; [constructor|].
    inversion Hnd as [|? ? Hk Hnd']. subst.
    destruct (negb (set_mem k (passed m)) && (0 <? d)%Z); simpl; auto.
    constructor; auto. intros H. apply in_map_iff in H.
    destruct H as (x & <- & Hx). apply filter_In in Hx. destruct Hx as [Hx _].
    apply Hk. now apply in_map.
  - intros c. rewrite in_map_iff. split.
    + intros ([c' d] & <- & Hin). apply filter_In in Hin. simpl in *.
      destruct Hin as [Hin Hb]. apply andb_true_iff in Hb. destruct Hb as [Hp Hd].
      apply Z.ltb_lt in Hd.
      assert (Hc : In c' (catalog m)).
      { rewrite <- K. change c' with (fst (c', d)). now apply in_map. }
      split; [exact Hc|]. split; [now apply set_mem_false, negb_true_iff|].
      apply In_dict_get in Hin; auto. rewrite (G _ Hc) in Hin. inversion Hin as [Hz].
      unfold missing_prereqs. fold (prereqs_of m c'). fold (missing (passed m) (prereqs_of m c')).
      intros Hnil. rewrite Hnil in Hz. simpl in Hz. lia.
    + intros (Hc & Hp & Hmiss).
      exists (c, Z.of_nat (List.length (missing (passed m) (prereqs_of m c)))).
      split; [reflexivity|]. apply filter_In. split.
      * apply dict_get_In. now rewrite (G _ Hc).
      * simpl. apply andb_true_iff. split; [now apply negb_true_iff, set_mem_false|].
        apply Z.ltb_lt. unfold missing_prereqs in Hmiss.
        fold (prereqs_of m c) in Hmiss. fold (missing (passed m) (prereqs_of m c)) in Hmiss.
        destruct (missing (passed m) (prereqs_of m c)); [congruence|simpl; lia].
Qed.

(** X12. Every catalogue course of a model built by the public operations is in
    exactly one of three states: completed, candidate, or blocked; and the
    candidates and the blocked courses are catalogue courses. *)
Theorem course_states (m : PMaPModel) :
  reachable m ->
  exists cand blocked,
    candidates m = Ok cand /\ blocked_courses m = Ok blocked /\
    (forall c, In c (catalog m) -> In c (passed m) \/ In c cand \/ In c blocked) /\
    (forall c, In c cand -> In c (catalog m) /\ ~ In c (passed m) /\ ~ In c blocked) /\
    (forall c, In c blocked -> In c (catalog m) /\ ~ In c (passed m)).
Proof.
  intros Hr. apply reachable_ok in Hr. destruct Hr as [Hwf Hcl _ _].
  destruct (candidates_char m Hwf Hcl) as (cand & Ec & Hc).
  destruct (blocked_char m Hwf Hcl) as (blocked & Eb & _ & Hb).
  exists cand, blocked. split; [exact Ec|]. split; [exact Eb|]. split; [|split].
  - intros c Hin.
    destruct (in_dec string_dec c (passed m)) as [Hp|Hp]; auto. right.
    destruct (missing_prereqs m c) as [|p l] eqn:Em.
    + left. apply Hc. repeat split; auto. intros p Hpc.
      destruct (in_dec string_dec p (passed m)) as [H|H]; auto.
      exfalso. assert (Hin' : In p (missing_prereqs m c)) by now apply missing_prereqs_In.
      rewrite Em in Hin'. contradiction.
    + right. apply Hb. repeat split; auto. rewrite Em. discriminate.
  - intros c H. apply Hc in H. destruct H as (H1 & H2 & H3). repeat split; auto.
    intros Hbl. apply Hb in Hbl. destruct Hbl as (_ & _ & Hne).
    destruct (missing_prereqs m c) as [|p l] eqn:Em; [congruence|].
    assert (Hin' : In p (missing_prereqs m c)) by (rewrite Em; simpl; auto).
    apply missing_prereqs_In in Hin'. destruct Hin' as [Hpc Hnp]. auto.
  - intros c H. apply Hb in H. tauto.
Qed.

Lemma course_states_witness :
  exists cand blocked,
    candidates test_model = Ok cand /\ blocked_courses test_model = Ok blocked /\
    (forall c, In c (catalog test_model) ->
       In c (passed test_model) \/ In c cand \/ In c blocked) /\
    (forall c, In c cand ->
       In c (catalog test_model) /\ ~ In c (passed test_model) /\ ~ In c blocked) /\
    (forall c, In c blocked -> In c (catalog test_model) /\ ~ In c (passed test_model)).
Proof.
  apply (course_states test_model). apply reach_from_dict.
Defined.

(** X13. What the report of blocked courses prints on a model built by the
    public operations.  The first line is the header.  When no course is
    blocked the only other line is "(ninguna)".  Otherwise there is one
    line per blocked course, in ascending order of the codes, that names
    the course and then lists, separated by commas, each of its
    prerequisites that is not completed, once.  A course is blocked exactly
    when it is in the catalogue, not completed, and has a prerequisite that
    is not completed. *)
Theorem report_blocked_spec (m : PMaPModel) :
  reachable m ->
  exists blocked body,
    action_report_blocked m
    = Ok ((newline ++ "Materias bloqueadas (faltan prerequisitos):")%string :: body) /\
    NoDup blocked /\
    StronglySorted (fun a b => String.leb a b = true) blocked /\
    (forall c, In c blocked <->
       In c (catalog m) /\ ~ In c (passed m) /\
       exists p, is_prereq m p c /\ ~ In p (passed m)) /\
    (blocked = [] -> body = [" (ninguna)"]) /\
    (blocked <> [] ->
     Forall2
       (fun c line =>
          exists missing,
            NoDup missing /\
            (forall p, In p missing <-> is_prereq m p c /\ ~ In p (passed m)) /\
            line = ("  " ++ c ++ " necesita: " ++ join ", " missing)%string)
       blocked body).
Proof.
  intros Hr. apply reachable_ok in Hr. destruct Hr as [Hwf Hcl _ _].
  destruct (blocked_char m Hwf Hcl) as (blocked & Eb & Hnd & Hb).
  unfold action_report_blocked. rewrite Eb. cbn [bind].
  exists (sorted blocked).
  exists (match blocked with
          | [] => [" (ninguna)"]
          | _ :: _ =>
              map (fun c =>
                     ("  " ++ c ++ " necesita: " ++ join ", " (missing_prereqs m c))%string)
                (sorted blocked)
          end).
  split; [destruct blocked; reflexivity|].
  split; [eapply Permutation_NoDup; [symmetry; apply sorted_by_perm|exact Hnd]|].
  split; [apply sorted_ascending|].
  split.
  { intros c. rewrite In_sorted, Hb. split.
    - intros (H1 & H2 & H3). repeat split; auto.
      destruct (missing_prereqs m c) as [|p l] eqn:Em; [congruence|].
      exists p. apply missing_prereqs_In. rewrite Em. simpl. auto.
    - intros (H1 & H2 & p & H3). repeat split; auto.
      apply missing_prereqs_In in H3. intros Em. rewrite Em in H3. contradiction. }
  split.
  { intros Hs. destruct blocked as [|b l]; [reflexivity|]. exfalso.
    assert (Hin : In b (sorted (b :: l))) by (apply In_sorted; now left).
    rewrite Hs in Hin. contradiction. }
  intros Hs. destruct blocked as [|b l]; [now contradiction Hs|].
  clear Hs. induction (sorted (b :: l)) as [|c cs IH]; simpl; constructor; [|exact IH].
  exists (missing_prereqs m c). split; [|split; [|reflexivity]].
  - unfold missing_prereqs. apply NoDup_filter. apply (prereqs_of_NoDup m c Hwf).
  - intros p. apply missing_prereqs_In.
Qed.

Lemma report_blocked_spec_witness :
  exists blocked body,
    action_report_blocked test_model
    = Ok ((newline ++ "Materias bloqueadas (faltan prerequisitos):")%string :: body) /\
    NoDup blocked /\
    StronglySorted (fun a b => String.leb a b = true) blocked /\
    (forall c, In c blocked <->
       In c (catalog test_model) /\ ~ In c (passed test_model) /\
       exists p, is_prereq test_model p c /\ ~ In p (passed test_model)) /\
    (blocked = [] -> body = [" (ninguna)"]) /\
    (blocked <> [] ->
     Forall2
       (fun c line =>
          exists missing,
            NoDup missing /\
            (forall p, In p missing <->
               is_prereq test_model p c /\ ~ In p (passed test_model)) /\
            line = ("  " ++ c ++ " necesita: " ++ join ", " missing)%string)
       blocked body).
Proof.
  apply (report_blocked_spec test_model). apply reach_from_dict.
Defined.

Example report_blocked_example :
  action_report_blocked test_model
  = Ok [(newline ++ "Materias bloqueadas (faltan prerequisitos):")%string;
        "  C necesita: B"].
Proof. reflexivity. Qed.

(** X14. Completing a course never disqualifies another candidate, removes the
    course itself from the candidates, and can only make direct dependents
    of that course newly eligible. *)
Theorem candidates_after_mark_passed (m : PMaPModel) (code : string) :
  reachable m ->
  exists l l',
    candidates m = Ok l /\
    candidates (snd (mark_passed code m)) = Ok l' /\
    ~ In (Str.upper (Str.strip code)) l' /\
    (forall c, In c l -> c <> Str.upper (Str.strip code) -> In c l') /\
    (forall c, In c l' -> ~ In c l -> is_prereq m (Str.upper (Str.strip code)) c).
Proof.
  intros Hr.
  assert (Hr' : reachable (snd (mark_passed code m))) by now constructor.
  apply reachable_ok in Hr, Hr'.
  destruct Hr as [Hwf Hcl _ _]. destruct Hr' as [Hwf' Hcl' _ _].
  destruct (candidates_char m Hwf Hcl) as (l & El & Hl).
  destruct (candidates_char _ Hwf' Hcl') as (l' & El' & Hl').
  exists l, l'. split; [exact El|]. split; [exact El'|].
  destruct (mark_passed_spec code m) as [Hout Hin].
  set (k := Str.upper (Str.strip code)) in *.
  destruct (in_dec string_dec k (catalog m)) as [Hk|Hk].
  - rewrite (Hin Hk) in Hl'. cbn [snd] in Hl'.
    assert (Hp : forall x, In x (passed (set_passed m (set_add k (passed m))))
                           <-> x = k \/ In x (passed m)).
    { intros x. apply In_set_add. }
    split; [|split].
    + intros H. apply Hl' in H. destruct H as (_ & H & _). apply H, Hp. now left.
    + intros c Hc Hne. apply Hl in Hc. destruct Hc as (H1 & H2 & H3).
      apply Hl'. split; [exact H1|]. split.
      * intros H. apply Hp in H. destruct H; auto.
      * intros p Hpc. apply Hp. right. now apply H3.
    + intros c Hc Hnc. apply Hl' in Hc. destruct Hc as (H1 & H2 & H3).
      destruct (in_dec string_dec k (prereqs_of m c)) as [Hkc|Hkc]; [exact Hkc|].
      exfalso. apply Hnc, Hl. split; [exact H1|]. split.
      * intros H. apply H2, Hp. now right.
      * intros p Hpc. pose proof (H3 p Hpc) as H. apply Hp in H.
        destruct H as [H|H]; [|exact H]. subst p. contradiction.
  - rewrite (Hout Hk) in El'. cbn [snd] in El'.
    assert (l' = l) by congruence. subst l'.
    split; [|split].
    + intros H. apply Hl in H. now apply Hk.
    + auto.
    + intros c H1 H2. contradiction.
Qed.

Lemma candidates_after_mark_passed_witness :
  exists l l',
    candidates test_model = Ok l /\
    candidates (snd (mark_passed "b" test_model)) = Ok l' /\
    ~ In (Str.upper (Str.strip "b")) l' /\
    (forall c, In c l -> c <> Str.upper (Str.strip "b") -> In c l') /\
    (forall c, In c l' -> ~ In c l -> is_prereq test_model (Str.upper (Str.strip "b")) c).
Proof.
  apply (candidates_after_mark_passed test_model "b"). apply reach_from_dict.
Defined.

(** In a chain, every code after the first has its predecessor in the chain. *)
Lemma chain_pred (E : string -> string -> Prop) x : forall a l,
  chain E (a :: l) -> In x l -> exists p, In p (a :: l) /\ E p x.
Proof.
  intros a l. revert a. induction l as [|b l IH]; intros a Hc Hin; [contradiction|].
  inversion Hc as [| |? ? ? Hab Hc']; subst.
  destruct Hin as [<-|Hin].
  - exists a. split; [now left|exact Hab].
  - destruct (IH b Hc' Hin) as (p & Hp & Hpx). exists p. split; [now right|exact Hpx].
Qed.

(** X15. The courses of a prerequisite cycle none of which is completed are all
    blocked, and none of them is a candidate: such a cycle can never be
    entered. *)
Theorem cycle_blocked (m : PMaPModel) (cyc : list string) :
  reachable m -> closed_walk m cyc ->
  (forall x, In x cyc -> ~ In x (passed m)) ->
  exists cand blocked,
    candidates m = Ok cand /\ blocked_courses m = Ok blocked /\
    forall x, In x cyc -> In x blocked /\ ~ In x cand.
Proof.
  intros Hr [(v & mid & ->) Hch] Hnp.
  apply reachable_ok in Hr. destruct Hr as [Hwf Hcl _ _].
  destruct (candidates_char m Hwf Hcl) as (cand & Ec & Hc).
  destruct (blocked_char m Hwf Hcl) as (blocked & Eb & _ & Hb).
  exists cand, blocked. split; [exact Ec|]. split; [exact Eb|].
  intros x Hx.
  assert (Hx' : In x (mid ++ [v])).
  { destruct Hx as [<-|Hx]; [|exact Hx]. apply in_or_app. right. now left. }
  destruct (chain_pred _ x v (mid ++ [v]) Hch Hx') as (p & Hp & Hpx).
  split.
  - apply Hb. split; [|split].
    + unfold is_prereq, prereqs_of, dict_get_default in Hpx.
      destruct (dict_get x (prereqs m)) as [s|] eqn:E; [|contradiction].
      apply dict_get_In in E. now destruct (Hcl _ _ E).
    + now apply Hnp.
    + intros Em.
      assert (H : In p (missing_prereqs m x)).
      { apply missing_prereqs_In. split; [exact Hpx|]. now apply Hnp. }
      rewrite Em in H. contradiction.
  - intros H. apply Hc in H. destruct H as (_ & _ & H).
    apply (Hnp p Hp). now apply H.
Qed.

Lemma cycle_blocked_witness :
  exists cand blocked,
    candidates (snd (add_prereq "B" "A" (snd (add_prereq "A" "B" new_model)))) = Ok cand /\
    blocked_courses (snd (add_prereq "B" "A" (snd (add_prereq "A" "B" new_model))))
    = Ok blocked /\
    forall x, In x ["A"; "B"; "A"] -> In x blocked /\ ~ In x cand.
Proof.
  apply (cycle_blocked (snd (add_prereq "B" "A" (snd (add_prereq "A" "B" new_model))))
           ["A"; "B"; "A"]).
  - apply reach_add_prereq, reach_add_prereq, reach_new.
  - split.
    + exists "A", ["B"]. reflexivity.
    + apply chain_cons; [cbv; auto|]. apply chain_cons; [cbv; auto|]. apply chain_one.
  - intros x _ H. exact H.
Defined.

(** * The suggestion for the next term *)

Lemma subseq_In {A} (s l : list A) x : subseq s l -> In x s -> In x l.
Proof.
  induction 1 as [|y s l _ IH|y s l _ IH]; simpl; auto.
  intros [->|H]; auto.
Qed.

Lemma subseq_NoDup {A} (s l : list A) : subseq s l -> NoDup l -> NoDup s.
Proof.
  induction 1 as [|y s l Hs IH|y s l Hs IH]; intros Hnd; auto.
  - inversion Hnd. auto.
  - inversion Hnd as [|? ? Hy Hl]. subst. constructor; auto.
    intros H. apply Hy. eapply subseq_In; eauto.
Qed.

Lemma subseq_StronglySorted {A} (R : A -> A -> Prop) (s l : list A) :
  subseq s l -> StronglySorted R l -> StronglySorted R s.
Proof.
  induction 1 as [|y s l Hs IH|y s l Hs IH]; intros Hss; auto.
  - inversion Hss. auto.
  - inversion Hss as [|? ? Hl Hall]. subst. constructor; auto.
    rewrite Forall_forall in *. intros x Hx. apply Hall. eapply subseq_In; eauto.
Qed.

Lemma StronglySorted_before (R : string -> string -> Prop) l u v :
  StronglySorted R l -> before u v l -> R u v.
Proof.
  intros Hss (l1 & l2 & -> & Hin).
  induction l1 as [|a l1 IH]; [contradiction|].
  simpl in Hss. inversion Hss as [|? ? Hl Hall]. subst.
  destruct Hin as [->|Hin]; [|auto].
  rewrite Forall_forall in Hall. apply Hall, in_or_app. right. now left.
Qed.

Lemma StronglySorted_map_snd {K} (R' : K * string -> K * string -> Prop)
  (R : string -> string -> Prop) (kl : list (K * string)) :
  (forall p q, In p kl -> In q kl -> R' p q -> R (snd p) (snd q)) ->
  StronglySorted R' kl -> StronglySorted R (map snd kl).
Proof.
  intros HR Hss. induction Hss as [|p kl Hss IH Hall]; simpl; constructor.
  - apply IH. intros; apply HR; simpl; auto.
  - rewrite Forall_forall in *. intros x Hx. apply in_map_iff in Hx.
    destruct Hx as (q & <- & Hq). apply HR; simpl; auto.
Qed.

Lemma sorted_by_id {A} (le : A -> A -> bool) l :
  Sorted (fun a b => le a b = true) l -> sorted_by le l = l.
Proof.
  induction 1 as [|x l Hs IH Hhd]; simpl; [reflexivity|].
  rewrite IH. destruct Hhd as [|y t Hxy]; simpl; [reflexivity|]. now rewrite Hxy.
Qed.

Lemma NoDup_keys_filter {V} (f : string * V -> bool) (d : dict V) :
  NoDup (dict_keys d) -> NoDup (map fst (filter f d)).
Proof.
  unfold dict_keys. induction d as [|[k v] d IH]; simpl; intros Hnd; [constructor|].
  inversion Hnd as [|? ? Hk Hnd']. subst.
  destruct (f (k, v)); simpl; auto.
  constructor; auto. intros H. apply in_map_iff in H.
  destruct H as (x & Hx & Hin). apply filter_In in Hin. destruct Hin as [Hin _].
  apply Hk. rewrite <- Hx. now apply in_map.
Qed.

Lemma candidates_NoDup m l :
  well_formed m -> prereqs_closed m -> candidates m = Ok l -> NoDup l.
Proof.
  intros Hwf Hcl.
  destruct (current_indegree_effective_spec m Hwf Hcl) as (indeg & E & K & _).
  unfold candidates. rewrite E. simpl. intros H. inversion H. subst l.
  eapply Permutation_NoDup; [symmetry; apply sorted_by_perm|].
  apply NoDup_keys_filter. rewrite K. apply Hwf.
Qed.

Lemma candidates_sorted m l :
  candidates m = Ok l -> StronglySorted (fun a b => String.leb a b = true) l.
Proof.
  unfold candidates. destruct (current_indegree_effective m); simpl; [|discriminate].
  intros H. inversion H. apply sorted_ascending.
Qed.

(** The three stages of [suggest_next_semester]. *)
Lemma suggest_stages m cap criterion sel :
  suggest_next_semester m cap criterion = Ok sel ->
  exists cand cs,
    candidates m = Ok cand /\
    sorted_key pkey_leb (priority_key m criterion) cand = Ok cs /\
    greedy m cap cs ([], 0%Z, []) = Ok sel.
Proof.
  unfold suggest_next_semester.
  destruct (candidates m) as [cand|]; cbn [bind]; [|discriminate].
  destruct (sorted_key pkey_leb (priority_key m criterion) cand) as [cs|] eqn:Es;
    cbn [bind]; [|discriminate].
  intros H. exists cand, cs. auto.
Qed.

(** The codes the greedy scan adds are a subsequence of the scanned list,
    with one reason each, and the total grows by their credits. *)
Lemma greedy_subseq m cap : forall l chosen total reasons chosen' total' reasons',
  greedy m cap l (chosen, total, reasons) = Ok (chosen', total', reasons') ->
  exists sub,
    chosen' = chosen ++ sub /\ subseq sub l /\
    reasons' = reasons ++ map (fun c => reason m c (credits_of m c)) sub /\
    total' = (total + credit_sum m sub)%Z.
Proof.
  induction l as [|c l IH]; intros chosen total reasons chosen' total' reasons' H;
    simpl in H.
  - inversion H. subst. exists []. rewrite !app_nil_r. unfold credit_sum. simpl.
    rewrite Z.add_0_r. repeat split. constructor.
  - unfold dict_item in H. destruct (dict_get c (courses m)) as [crs|] eqn:E;
      simpl in H; [|discriminate].
    assert (Ec : credits_of m c = credits crs) by (unfold credits_of; now rewrite E).
    destruct (total + credits crs <=? cap)%Z.
    + apply IH in H. destruct H as (sub & -> & Hs & -> & ->).
      exists (c :: sub). rewrite <- !app_assoc. cbn [map app].
      change (credit_sum m (c :: sub)) with (credits_of m c + credit_sum m sub)%Z.
      rewrite Ec, Z.add_assoc. repeat split. now constructor.
    + apply IH in H. destruct H as (sub & -> & Hs & -> & ->).
      exists sub. repeat split. now constructor.
Qed.

Lemma credits_of_nonneg m :
  (forall k c, In (k, c) (courses m) -> (0 <= credits c)%Z) ->
  forall c, (0 <= credits_of m c)%Z.
Proof.
  intros H c. unfold credits_of. destruct (dict_get c (courses m)) eqn:E; [|lia].
  apply dict_get_In in E. eauto.
Qed.

Lemma credit_sum_nonneg m l :
  (forall c, (0 <= credits_of m c)%Z) -> (0 <= credit_sum m l)%Z.
Proof.
  intros H. unfold credit_sum. induction l as [|a l IH]; simpl; [lia|].
  specialize (H a). lia.
Qed.

Lemma credit_sum_perm m l l' :
  Permutation l l' -> credit_sum m l = credit_sum m l'.
Proof.
  unfold credit_sum. induction 1; simpl; lia.
Qed.

(** With credits that are not negative the running total only grows, so a
    code the scan passed over does not fit the final total either. *)
Lemma greedy_maximal m cap :
  (forall c, (0 <= credits_of m c)%Z) ->
  forall l chosen total reasons chosen' total' reasons',
  greedy m cap l (chosen, total, reasons) = Ok (chosen', total', reasons') ->
  (total <= total')%Z /\
  forall c, In c l -> In c chosen' \/ (cap < total' + credits_of m c)%Z.
Proof.
  intros Hnn.
  induction l as [|c l IH]; intros chosen total reasons chosen' total' reasons' H.
  - simpl in H. inversion H. subst. split; [lia|]. intros c [].
  - pose proof H as H0. simpl in H. unfold dict_item in H.
    destruct (dict_get c (courses m)) as [crs|] eqn:E; simpl in H; [|discriminate].
    assert (Ec : credits_of m c = credits crs) by (unfold credits_of; now rewrite E).
    pose proof (Hnn c) as Hc.
    destruct (total + credits crs <=? cap)%Z eqn:Hle.
    + pose proof H as H1. apply IH in H. destruct H as [Ht Hall].
      split; [lia|]. intros x [<-|Hx]; [|auto].
      left. apply greedy_subseq in H1. destruct H1 as (sub & -> & _).
      apply in_or_app. left. apply in_or_app. right. now left.
    + apply Z.leb_gt in Hle. apply IH in H. destruct H as [Ht Hall].
      split; [lia|]. intros x [<-|Hx]; [|auto]. right. lia.
Qed.

(** When everything scanned fits, everything is chosen. *)
Lemma greedy_all m cap :
  (forall c, (0 <= credits_of m c)%Z) ->
  forall l chosen total reasons,
  (forall c, In c l -> In c (catalog m)) ->
  (total + credit_sum m l <= cap)%Z ->
  greedy m cap l (chosen, total, reasons)
  = Ok (chosen ++ l, (total + credit_sum m l)%Z,
        reasons ++ map (fun c => reason m c (credits_of m c)) l).
Proof.
  intros Hnn.
  induction l as [|c l IH]; intros chosen total reasons Hcat Hle.
  - simpl. rewrite !app_nil_r. unfold credit_sum. simpl. now rewrite Z.add_0_r.
  - simpl. unfold dict_item.
    destruct (dict_get c (courses m)) as [crs|] eqn:E.
    2:{ apply dict_get_None in E. exfalso. apply E, Hcat. now left. }
    simpl.
    assert (Ec : credits_of m c = credits crs) by (unfold credits_of; now rewrite E).
    assert (Hs : credit_sum m (c :: l) = (credits_of m c + credit_sum m l)%Z)
      by reflexivity.
    pose proof (credit_sum_nonneg m l Hnn) as Hl.
    pose proof (Hnn c) as Hc.
    replace (total + credits crs <=? cap)%Z with true
      by (symmetry; apply Z.leb_le; lia).
    rewrite IH.
    + rewrite Hs, <- !app_assoc. cbn [map app]. rewrite Ec, Z.add_assoc. reflexivity.
    + intros x Hx. apply Hcat. now right.
    + lia.
Qed.

(** What [suggest_next_semester] returns on a closed, well-formed model. *)
Lemma suggest_chosen m cap criterion :
  well_formed m -> prereqs_closed m ->
  exists chosen total reasons,
    suggest_next_semester m cap criterion = Ok (chosen, total, reasons) /\
    NoDup chosen /\
    (forall c, In c chosen ->
       In c (catalog m) /\ ~ In c (passed m) /\
       forall p, is_prereq m p c -> In p (passed m)) /\
    reasons = map (fun c => reason m c (credits_of m c)) chosen /\
    total = credit_sum m chosen.
Proof.
  intros Hwf Hcl.
  destruct (suggest_total m cap criterion Hwf Hcl) as ([[chosen total] reasons] & E).
  exists chosen, total, reasons. split; [exact E|].
  destruct (suggest_stages _ _ _ _ E) as (cand & cs & Ec & Es & Eg).
  apply greedy_subseq in Eg. destruct Eg as (sub & Hch & Hsub & Hre & Ht).
  simpl in Hch, Hre, Ht. subst chosen reasons total.
  pose proof (sorted_key_perm _ _ _ _ Es) as Hperm.
  destruct (candidates_char m Hwf Hcl) as (cand' & Ec' & Hcand).
  assert (cand' = cand) by congruence. subst cand'.
  split; [|split; [|split]].
  - eapply subseq_NoDup; [exact Hsub|].
    eapply Permutation_NoDup; [symmetry; exact Hperm|].
    eapply candidates_NoDup; eauto.
  - intros c Hc. apply Hcand. eapply Permutation_in; [exact Hperm|].
    eapply subseq_In; eauto.
  - reflexivity.
  - reflexivity.
Qed.

(** X16. What is suggested: courses of the catalogue that are not completed and
    whose prerequisites are all completed, no course twice, with one reason
    line per course, for that course. *)
Theorem suggest_selection (m : PMaPModel) (credit_cap : Z) (criterion : string) :
  reachable m ->
  exists chosen total reasons,
    suggest_next_semester m credit_cap criterion = Ok (chosen, total, reasons) /\
    NoDup chosen /\
    (forall c, In c chosen ->
       In c (catalog m) /\ ~ In c (passed m) /\
       forall p, is_prereq m p c -> In p (passed m)) /\
    reasons = map (fun c => reason m c (credits_of m c)) chosen.
Proof.
  intros Hr. apply reachable_ok in Hr. destruct Hr as [Hwf Hcl _ _].
  destruct (suggest_chosen m credit_cap criterion Hwf Hcl)
    as (chosen & total & reasons & E & Hnd & Hc & Hre & _).
  exists chosen, total, reasons. auto.
Qed.

Lemma suggest_selection_witness :
  exists chosen total reasons,
    suggest_next_semester test_model 1 "creditos" = Ok (chosen, total, reasons) /\
    NoDup chosen /\
    (forall c, In c chosen ->
       In c (catalog test_model) /\ ~ In c (passed test_model) /\
       forall p, is_prereq test_model p c -> In p (passed test_model)) /\
    reasons = map (fun c => reason test_model c (credits_of test_model c)) chosen.
Proof.
  apply (suggest_selection test_model 1 "creditos"). apply reach_from_dict.
Defined.

(** X17. The suggestion is maximal: when no course has negative credits, a
    candidate that was not chosen does not fit in what is left of the cap. *)
Theorem suggest_maximal (m : PMaPModel) (credit_cap : Z) (criterion : string) :
  reachable m ->
  (forall k c, In (k, c) (courses m) -> (0 <= credits c)%Z) ->
  exists cand chosen total reasons,
    candidates m = Ok cand /\
    suggest_next_semester m credit_cap criterion = Ok (chosen, total, reasons) /\
    forall c, In c cand -> ~ In c chosen ->
      (credit_cap < total + credits_of m c)%Z.
Proof.
  intros Hr Hnn. apply reachable_ok in Hr. destruct Hr as [Hwf Hcl _ _].
  destruct (suggest_total m credit_cap criterion Hwf Hcl) as ([[chosen total] reasons] & E).
  destruct (suggest_stages _ _ _ _ E) as (cand & cs & Ec & Es & Eg).
  exists cand, chosen, total, reasons. split; [exact Ec|]. split; [exact E|].
  intros c Hc Hnc.
  pose proof (sorted_key_perm _ _ _ _ Es) as Hperm.
  destruct (greedy_maximal m credit_cap (credits_of_nonneg m Hnn) _ _ _ _ _ _ _ Eg)
    as [_ Hall].
  destruct (Hall c) as [H|H]; [|contradiction|exact H].
  eapply Permutation_in; [symmetry; exact Hperm|exact Hc].
Qed.

Lemma suggest_maximal_witness :
  exists cand chosen total reasons,
    candidates test_model = Ok cand /\
    suggest_next_semester test_model 1 "desbloqueo" = Ok (chosen, total, reasons) /\
    forall c, In c cand -> ~ In c chosen ->
      (1 < total + credits_of test_model c)%Z.
Proof.
  apply (suggest_maximal test_model 1 "desbloqueo").
  - apply reach_from_dict.
  - intros k c H. cbv in H.
    repeat (destruct H as [H|H]; [inversion H; cbv; discriminate|]). contradiction.
Defined.

(** X18. A cap that all candidates fit under together gets all of them
    suggested, whatever the criterion (credits not negative). *)
Theorem suggest_generous_cap (m : PMaPModel) (credit_cap : Z) (criterion : string) :
  reachable m ->
  (forall k c, In (k, c) (courses m) -> (0 <= credits c)%Z) ->
  (forall cand, candidates m = Ok cand -> (credit_sum m cand <= credit_cap)%Z) ->
  exists cand chosen reasons,
    candidates m = Ok cand /\
    suggest_next_semester m credit_cap criterion
    = Ok (chosen, credit_sum m cand, reasons) /\
    Permutation chosen cand.
Proof.
  intros Hr Hnn Hcap. apply reachable_ok in Hr. destruct Hr as [Hwf Hcl _ _].
  destruct (candidates_char m Hwf Hcl) as (cand & Ec & Hcand).
  destruct (sorted_key_total pkey_leb (priority_key m criterion) cand) as (cs & Es).
  { intros c Hc. apply priority_key_total. now apply Hcand. }
  pose proof (sorted_key_perm _ _ _ _ Es) as Hperm.
  exists cand, cs. eexists. split; [exact Ec|]. split; [|exact Hperm].
  unfold suggest_next_semester. rewrite Ec. simpl. rewrite Es. simpl.
  rewrite (greedy_all m credit_cap (credits_of_nonneg m Hnn)).
  - simpl. rewrite (credit_sum_perm m cs cand Hperm). reflexivity.
  - intros c Hc. apply Hcand. eapply Permutation_in; eauto.
  - rewrite (credit_sum_perm m cs cand Hperm). specialize (Hcap cand Ec). lia.
Qed.

Lemma suggest_generous_cap_witness :
  exists cand chosen reasons,
    candidates test_model = Ok cand /\
    suggest_next_semester test_model 2 "nivel"
    = Ok (chosen, credit_sum test_model cand, reasons) /\
    Permutation chosen cand.
Proof.
  apply (suggest_generous_cap test_model 2 "nivel").
  - apply reach_from_dict.
  - intros k c H. cbv in H.
    repeat (destruct H as [H|H]; [inversion H; cbv; discriminate|]). contradiction.
  - intros cand H. cbv in H. inversion H. cbv. discriminate.
Defined.

(** ** The order of the suggestion *)

Lemma pkey_leb_total a b : pkey_leb a b = true \/ pkey_leb b a = true.
Proof.
  destruct a as [a1 b1 c1|a1 c1], b as [a2 b2 c2|a2 c2]; simpl; auto.
  - destruct (Z.ltb_spec a1 a2), (Z.ltb_spec a2 a1); auto; try lia.
    destruct (Z.ltb_spec b1 b2), (Z.ltb_spec b2 b1); auto; try lia.
    apply String.leb_total.
  - destruct (Z.ltb_spec a1 a2), (Z.ltb_spec a2 a1); auto; try lia.
    apply String.leb_total.
Qed.

Lemma pkey_leb_trans a b c :
  pkey_leb a b = true -> pkey_leb b c = true -> pkey_leb a c = true.
Proof.
  destruct a as [a1 b1 c1|a1 c1], b as [a2 b2 c2|a2 c2], c as [a3 b3 c3|a3 c3];
    simpl; try discriminate; auto.
  - destruct (Z.ltb_spec a1 a2), (Z.ltb_spec a2 a1), (Z.ltb_spec a2 a3),
      (Z.ltb_spec a3 a2), (Z.ltb_spec a1 a3), (Z.ltb_spec a3 a1);
      try discriminate; try lia; auto.
    destruct (Z.ltb_spec b1 b2), (Z.ltb_spec b2 b1), (Z.ltb_spec b2 b3),
      (Z.ltb_spec b3 b2), (Z.ltb_spec b1 b3), (Z.ltb_spec b3 b1);
      try discriminate; try lia; auto.
    apply string_leb_trans.
  - destruct (Z.ltb_spec a1 a2), (Z.ltb_spec a2 a1), (Z.ltb_spec a2 a3),
      (Z.ltb_spec a3 a2), (Z.ltb_spec a1 a3), (Z.ltb_spec a3 a1);
      try discriminate; try lia; auto.
    apply string_leb_trans.
Qed.

Lemma keyed_In {A K} (key : A -> result K) l : forall kl k x,
  keyed key l = Ok kl -> In (k, x) kl -> key x = Ok k.
Proof.
  induction l as [|a l IH]; intros kl k x H Hin; simpl in H.
  - inversion H. subst. contradiction.
  - destruct (key a) as [ka|] eqn:Ea; cbn [bind] in H; [|discriminate].
    destruct (keyed key l) as [r|] eqn:Er; cbn [bind] in H; [|discriminate].
    inversion H. subst. destruct Hin as [Hin|Hin].
    + inversion Hin. subst. exact Ea.
    + eapply IH; eauto.
Qed.

(** [sorted(l, key=priority_key)] is in ascending order of the keys. *)
Lemma sorted_key_sorted (key : string -> result pkey) l l' :
  sorted_key pkey_leb key l = Ok l' ->
  StronglySorted
    (fun a b => exists ka kb, key a = Ok ka /\ key b = Ok kb /\ pkey_leb ka kb = true) l'.
Proof.
  unfold sorted_key. destruct (keyed key l) as [kl|] eqn:Ek; cbn [bind]; [|discriminate].
  intros H. inversion H. subst l'. clear H.
  apply StronglySorted_map_snd
    with (R' := fun x y : pkey * string => pkey_leb (fst x) (fst y) = true).
  - intros [ka a] [kb b] Ha Hb Hle. simpl in *.
    apply In_sorted_by in Ha, Hb. exists ka, kb.
    split; [eapply keyed_In; eauto|]. split; [eapply keyed_In; eauto|]. exact Hle.
  - apply Sorted_StronglySorted.
    + intros x y z. apply pkey_leb_trans.
    + apply sorted_by_Sorted. intros x y. apply pkey_leb_total.
Qed.

(** X19. The chosen courses are listed in the order of the criterion: by
    "desbloqueo" a course never stands before one that unlocks more, and
    among courses that unlock equally many, never before one with fewer
    credits; by "creditos" a course never stands before one with fewer
    credits. *)
Theorem suggest_order (m : PMaPModel) (credit_cap : Z) :
  reachable m ->
  (exists chosen total reasons,
     suggest_next_semester m credit_cap "desbloqueo" = Ok (chosen, total, reasons) /\
     forall a b, before a b chosen ->
       (unlock_count m b <= unlock_count m a)%Z /\
       (unlock_count m b = unlock_count m a -> (credits_of m a <= credits_of m b)%Z)) /\
  (exists chosen total reasons,
     suggest_next_semester m credit_cap "creditos" = Ok (chosen, total, reasons) /\
     forall a b, before a b chosen -> (credits_of m a <= credits_of m b)%Z).
Proof.
  intros Hr. apply reachable_ok in Hr. destruct Hr as [Hwf Hcl _ _].
  assert (Hgen : forall criterion, exists chosen total reasons,
    suggest_next_semester m credit_cap criterion = Ok (chosen, total, reasons) /\
    forall a b, before a b chosen ->
      exists ka kb, priority_key m criterion a = Ok ka /\
                    priority_key m criterion b = Ok kb /\ pkey_leb ka kb = true).
  { intros criterion.
    destruct (suggest_total m credit_cap criterion Hwf Hcl)
      as ([[chosen total] reasons] & E).
    exists chosen, total, reasons. split; [exact E|].
    destruct (suggest_stages _ _ _ _ E) as (cand & cs & Ec & Es & Eg).
    apply greedy_subseq in Eg. destruct Eg as (sub & Hch & Hsub & _).
    simpl in Hch. subst chosen.
    intros a b Hab.
    apply (StronglySorted_before
             (fun a b => exists ka kb, priority_key m criterion a = Ok ka /\
                priority_key m criterion b = Ok kb /\ pkey_leb ka kb = true)
             sub a b); [|exact Hab].
    eapply subseq_StronglySorted; [exact Hsub|].
    eapply sorted_key_sorted; eauto. }
  split.
  - destruct (Hgen "desbloqueo") as (chosen & total & reasons & E & H).
    exists chosen, total, reasons. split; [exact E|].
    intros a b Hab. destruct (H a b Hab) as (ka & kb & Ka & Kb & Hle).
    unfold priority_key, dict_item in Ka, Kb. cbn [String.eqb Ascii.eqb Bool.eqb] in Ka, Kb.
    unfold credits_of.
    destruct (dict_get a (courses m)) as [ca|]; cbn [bind] in Ka; [|discriminate].
    destruct (dict_get b (courses m)) as [cb|]; cbn [bind] in Kb; [|discriminate].
    inversion Ka. inversion Kb. subst ka kb. simpl in Hle.
    destruct (Z.ltb_spec (- unlock_count m a) (- unlock_count m b)); [lia|].
    destruct (Z.ltb_spec (- unlock_count m b) (- unlock_count m a)); [discriminate|].
    destruct (Z.ltb_spec (credits ca) (credits cb)); [lia|].
    destruct (Z.ltb_spec (credits cb) (credits ca)); [discriminate|]. lia.
  - destruct (Hgen "creditos") as (chosen & total & reasons & E & H).
    exists chosen, total, reasons. split; [exact E|].
    intros a b Hab. destruct (H a b Hab) as (ka & kb & Ka & Kb & Hle).
    unfold priority_key, dict_item in Ka, Kb. cbn [String.eqb Ascii.eqb Bool.eqb] in Ka, Kb.
    unfold credits_of.
    destruct (dict_get a (courses m)) as [ca|]; cbn [bind] in Ka; [|discriminate].
    destruct (dict_get b (courses m)) as [cb|]; cbn [bind] in Kb; [|discriminate].
    inversion Ka. inversion Kb. subst ka kb. simpl in Hle.
    destruct (Z.ltb_spec (credits ca) (credits cb)); [lia|].
    destruct (Z.ltb_spec (credits cb) (credits ca)); [discriminate|]. lia.
Qed.

Lemma suggest_order_witness :
  (exists chosen total reasons,
     suggest_next_semester test_model 2 "desbloqueo" = Ok (chosen, total, reasons) /\
     forall a b, before a b chosen ->
       (unlock_count test_model b <= unlock_count test_model a)%Z /\
       (unlock_count test_model b = unlock_count test_model a ->
        (credits_of test_model a <= credits_of test_model b)%Z)) /\
  (exists chosen total reasons,
     suggest_next_semester test_model 2 "creditos" = Ok (chosen, total, reasons) /\
     forall a b, before a b chosen ->
       (credits_of test_model a <= credits_of test_model b)%Z).
Proof.
  apply (suggest_order test_model 2). apply reach_from_dict.
Defined.

(** X20. A criterion that is none of the three known names gives every
    candidate the same rank: the candidates are scanned in ascending order
    of their codes. *)
Theorem suggest_unknown_criterion (m : PMaPModel) (credit_cap : Z) (criterion : string) :
  criterion <> "desbloqueo" -> criterion <> "creditos" -> criterion <> "nivel" ->
  suggest_next_semester m credit_cap criterion
  = (cand <- candidates m ;; greedy m credit_cap cand ([], 0%Z, [])).
Proof.
  intros H1 H2 H3. unfold suggest_next_semester.
  destruct (candidates m) as [cand|] eqn:Ec; cbn [bind]; [|reflexivity].
  assert (Hkey : forall c, priority_key m criterion c = Ok (Key2 0 c)).
  { intros c. unfold priority_key.
    apply String.eqb_neq in H1, H2, H3. now rewrite H1, H2, H3. }
  assert (Hk : forall l, keyed (priority_key m criterion) l
                         = Ok (map (fun c => (Key2 0 c, c)) l)).
  { induction l as [|a l IH]; simpl; [reflexivity|]. rewrite Hkey, IH. reflexivity. }
  assert (Es : sorted_key pkey_leb (priority_key m criterion) cand = Ok cand).
  { unfold sorted_key. rewrite Hk. cbn [bind]. rewrite sorted_by_id.
    - rewrite map_map. simpl. now rewrite map_id.
    - apply candidates_sorted in Ec. apply StronglySorted_Sorted in Ec.
      clear - Ec. induction Ec as [|x l Hs IH Hhd]; simpl; constructor; auto.
      destruct Hhd as [|y t Hxy]; simpl; constructor. simpl. exact Hxy. }
  rewrite Es. reflexivity.
Qed.

Lemma suggest_unknown_criterion_witness :
  suggest_next_semester test_model 1 "azar"
  = (cand <- candidates test_model ;; greedy test_model 1 cand ([], 0%Z, [])).
Proof.
  apply (suggest_unknown_criterion test_model 1 "azar"); discriminate.
Defined.

(** * The multi-term plan *)

(** Marking codes that are catalogue codes in normal form succeeds and adds
    exactly these codes to the completed set. *)
Lemma mark_all_ok : forall chosen temp,
  (forall c, In c chosen -> In c (catalog temp) /\ Str.upper (Str.strip c) = c) ->
  exists s,
    mark_all chosen temp = (Ok tt, set_passed temp s) /\
    (NoDup (passed temp) -> NoDup s) /\
    forall x, In x s <-> In x (passed temp) \/ In x chosen.
Proof.
  induction chosen as [|a chosen IH]; intros temp H.
  - exists (passed temp). split; [destruct temp; reflexivity|].
    split; [auto|]. intros x. simpl. tauto.
  - destruct (H a (or_introl eq_refl)) as [Ha Hn].
    destruct (mark_passed_spec a temp) as [_ Hin]. cbv zeta in Hin.
    rewrite Hn in Hin. specialize (Hin Ha).
    simpl. rewrite Hin.
    destruct (IH (set_passed temp (set_add a (passed temp)))) as (s & E & Hnd & Hs).
    { intros c Hc. apply H. now right. }
    exists s. split; [exact E|]. split.
    + intros Hp. apply Hnd. simpl. now apply NoDup_set_add.
    + intros x. rewrite Hs. simpl. rewrite In_set_add. intuition.
Qed.

Lemma plan_ok_ext : forall terms m m' done done',
  courses m = courses m' ->
  (forall p c, is_prereq m p c <-> is_prereq m' p c) ->
  (forall x, In x done <-> In x done') ->
  plan_ok m done terms -> plan_ok m' done' terms.
Proof.
  induction terms as [|sel rest IH]; intros m m' done done' Hc Hp Hd H; [exact I|].
  simpl in *. destruct H as (H1 & H2 & H3 & H4 & H5).
  assert (Hcat : catalog m = catalog m') by (unfold catalog; now rewrite Hc).
  assert (Hcr : forall l, credit_sum m l = credit_sum m' l).
  { intros l. unfold credit_sum, credits_of. now rewrite Hc. }
  split; [exact H1|]. split; [exact H2|]. split; [|split].
  - intros c Hin. destruct (H3 c Hin) as (A & B & C).
    split; [now rewrite <- Hcat|]. split; [now rewrite <- Hd|].
    intros p Hpc. apply Hd, C, Hp, Hpc.
  - now rewrite <- Hcr.
  - eapply IH; [exact Hc|exact Hp| |exact H5].
    intros x. rewrite !in_app_iff, Hd. tauto.
Qed.

(** The loop of [plan_full] on a working copy whose codes are in normal
    form: it returns, with at most [n] further terms that form a valid
    schedule from the courses completed in the copy. *)
Lemma plan_loop_valid cap criterion : forall n temp sems,
  well_formed temp -> prereqs_closed temp ->
  (forall k, In k (catalog temp) -> Str.upper (Str.strip k) = k) ->
  exists new,
    plan_loop n temp cap criterion sems = Ok (sems ++ new) /\
    (List.length new <= n)%nat /\
    plan_ok temp (passed temp) new.
Proof.
  induction n as [|n IH]; intros temp sems Hwf Hcl Hnorm.
  - exists []. simpl. rewrite app_nil_r. repeat split. lia.
  - destruct (suggest_chosen temp cap criterion Hwf Hcl)
      as (chosen & total & reasons & E & Hnd & Hc & Hre & Ht).
    cbn [plan_loop]. rewrite E. cbn [bind fst].
    destruct (mark_all_ok chosen temp) as (s & Em & Hs1 & Hs2).
    { intros c Hin. destruct (Hc c Hin) as (A & _). split; [exact A|now apply Hnorm]. }
    destruct chosen as [|c0 chosen0].
    { exists []. rewrite app_nil_r. repeat split. simpl. lia. }
    rewrite Em.
    destruct (IH (set_passed temp s) (sems ++ [(c0 :: chosen0, total, reasons)]))
      as (new & En & Hlen & Hok).
    { destruct Hwf. constructor; auto. }
    { exact Hcl. }
    { exact Hnorm. }
    exists ((c0 :: chosen0, total, reasons) :: new).
    rewrite En, <- app_assoc. split; [reflexivity|]. split; [simpl; lia|].
    cbn [plan_ok fst snd]. split; [discriminate|]. split; [exact Hnd|].
    split; [exact Hc|]. split; [exact Ht|].
    apply (plan_ok_ext new (set_passed temp s) temp s); auto.
    + intros p c. reflexivity.
    + intros x. rewrite Hs2, in_app_iff. reflexivity.
Qed.

(** X21. [plan_full] builds a schedule that respects the prerequisites: on a
    model built by the public operations whose codes carry no surrounding
    blanks it returns at most [max_semesters] terms, none empty, each made
    of catalogue courses not completed and not scheduled before, whose
    prerequisites are all completed or scheduled in an earlier term, with
    the total of the term the sum of its credits. *)
Theorem plan_full_valid (m : PMaPModel) (credit_cap : Z) (criterion : string)
  (max_semesters : nat) :
  reachable m ->
  (forall k, In k (catalog m) -> Str.strip k = k) ->
  exists terms,
    plan_full m credit_cap criterion max_semesters = Ok terms /\
    (List.length terms <= max_semesters)%nat /\
    plan_ok m (passed m) terms.
Proof.
  intros Hr Htrim. pose proof (reachable_ok m Hr) as Hok.
  assert (Hr0 : reachable (from_dict (to_dict m))) by constructor.
  apply reachable_ok in Hr0. destruct Hr0 as [Hwf0 Hcl0 _ _].
  pose proof (roundtrip_courses m Hok) as Hcs.
  destruct (plan_loop_valid credit_cap criterion max_semesters
              (from_dict (to_dict m)) [] Hwf0 Hcl0) as (terms & E & Hlen & Hp).
  { intros k Hk. unfold catalog in Hk. rewrite Hcs in Hk.
    rewrite (Htrim k Hk). apply (proj1 (ok_canon m Hok)). exact Hk. }
  exists terms. split; [exact E|]. split; [exact Hlen|].
  apply (plan_ok_ext terms (from_dict (to_dict m)) m
           (passed (from_dict (to_dict m))) (passed m)); auto.
  - intros p c. apply roundtrip_prereqs, Hok.
  - intros x. apply roundtrip_passed, Hok.
Qed.

Lemma plan_full_valid_witness :
  exists terms,
    plan_full test_model 1 "desbloqueo" 12 = Ok terms /\
    (List.length terms <= 12)%nat /\
    plan_ok test_model (passed test_model) terms.
Proof.
  apply (plan_full_valid test_model 1 "desbloqueo" 12).
  - apply reach_from_dict.
  - intros k H. cbv in H.
    repeat (destruct H as [H|H]; [subst k; reflexivity|]). contradiction.
Defined.

Example plan_full_test_model :
  map (fun sel => fst (fst sel)) (match plan_full test_model 1 "desbloqueo" 12 with
                                  | Ok terms => terms | Raise _ => [] end)
  = [["B"]; ["C"]; ["D"]].
Proof. reflexivity. Qed.

(** ** Bounds of the plan *)

(** Whatever the model, the loop appends at most [n] terms, none empty, and
    with a cap that is not negative every total is within the cap. *)
Lemma plan_loop_bounds cap criterion : forall n temp sems r,
  plan_loop n temp cap criterion sems = Ok r ->
  exists new,
    r = sems ++ new /\ (List.length new <= n)%nat /\
    Forall (fun sel => fst (fst sel) <> [] /\ ((0 <= cap)%Z -> (snd (fst sel) <= cap)%Z)) new.
Proof.
  induction n as [|n IH]; intros temp sems r H.
  - simpl in H. inversion H. exists []. rewrite app_nil_r. repeat split; auto.
  - cbn [plan_loop] in H.
    destruct (suggest_next_semester temp cap criterion) as [[[chosen total] reasons]|] eqn:E;
      cbn [bind fst] in H; [|discriminate].
    destruct chosen as [|c0 chosen0].
    { inversion H. exists []. rewrite app_nil_r. repeat split; auto. simpl. lia. }
    destruct (mark_all (c0 :: chosen0) temp) as [[u|e] temp']; [|discriminate].
    apply IH in H. destruct H as (new & -> & Hlen & Hall).
    exists ((c0 :: chosen0, total, reasons) :: new).
    rewrite <- app_assoc. split; [reflexivity|]. split; [simpl; lia|].
    constructor; [|exact Hall]. cbn [fst snd]. split; [discriminate|].
    intros Hcap. destruct (suggest_stages _ _ _ _ E) as (cand & cs & _ & _ & Eg).
    apply (greedy_within_cap temp cap cs [] 0%Z [] _ _ _ Hcap eq_refl Eg).
Qed.

(** X22. [plan_full] never returns more than [max_semesters] terms, never an
    empty term, and, with a cap that is not negative, never a term whose
    total exceeds the cap: whatever the model. *)
Theorem plan_full_bounds (m : PMaPModel) (credit_cap : Z) (criterion : string)
  (max_semesters : nat) (terms : list (list string * Z * list string)) :
  (0 <= credit_cap)%Z ->
  plan_full m credit_cap criterion max_semesters = Ok terms ->
  (List.length terms <= max_semesters)%nat /\
  Forall (fun sel => fst (fst sel) <> [] /\ (snd (fst sel) <= credit_cap)%Z) terms.
Proof.
  intros Hcap H. unfold plan_full in H.
  apply plan_loop_bounds in H. destruct H as (new & -> & Hlen & Hall).
  simpl. split; [exact Hlen|].
  eapply Forall_impl; [|exact Hall]. intros sel [H1 H2]. auto.
Qed.

Lemma plan_full_bounds_witness :
  exists terms,
    plan_full test_model 1 "creditos" 2 = Ok terms /\
    (List.length terms <= 2)%nat /\
    Forall (fun sel => fst (fst sel) <> [] /\ (snd (fst sel) <= 1)%Z) terms.
Proof.
  eexists. split; [reflexivity|].
  apply (plan_full_bounds test_model 1 "creditos" 2); [lia|reflexivity].
Defined.

(** ** The plan and the suggestion *)

Lemma string_leb_antisym a b :
  String.leb a b = true -> String.leb b a = true -> a = b.
Proof.
  rewrite !string_leb_iff. intros [H1|H1] [H2|H2]; auto.
  exfalso. apply (String_as_OT.lt_not_eq a a); [|reflexivity].
  eapply String_as_OT.lt_trans; eauto.
Qed.

(** Two ascending duplicate-free lists with the same members are equal. *)
Lemma sorted_unique : forall l l',
  StronglySorted (fun a b => String.leb a b = true) l ->
  StronglySorted (fun a b => String.leb a b = true) l' ->
  NoDup l -> NoDup l' -> (forall x, In x l <-> In x l') -> l = l'.
Proof.
  induction l as [|a l IH]; intros l' Hs Hs' Hnd Hnd' Hin.
  - destruct l' as [|b l']; [reflexivity|]. exfalso. apply (Hin b). now left.
  - destruct l' as [|b l']; [exfalso; apply (Hin a); now left|].
    inversion Hs as [|? ? Hsl Ha]. inversion Hs' as [|? ? Hsl' Hb]. subst.
    inversion Hnd as [|? ? Hna Hndl]. inversion Hnd' as [|? ? Hnb Hndl']. subst.
    rewrite Forall_forall in Ha, Hb.
    assert (a = b).
    { destruct (proj1 (Hin a) (or_introl eq_refl)) as [E|Ha']; [auto|].
      destruct (proj2 (Hin b) (or_introl eq_refl)) as [E|Hb']; [auto|].
      apply string_leb_antisym; auto. }
    subst b. f_equal. apply IH; auto.
    intros x. split; intros Hx.
    + destruct (proj1 (Hin x) (or_intror Hx)) as [E|H]; [|exact H].
      subst x. contradiction.
    + destruct (proj2 (Hin x) (or_intror Hx)) as [E|H]; [|exact H].
      subst x. contradiction.
Qed.

Lemma filter_length_perm {A} (f : A -> bool) l l' :
  Permutation l l' -> List.length (filter f l) = List.length (filter f l').
Proof.
  induction 1 as [|x l l' _ IH|x y l|l l' l'' _ IH1 _ IH2]; simpl; auto.
  - destruct (f x); simpl; auto.
  - destruct (f x), (f y); simpl; auto.
  - congruence.
Qed.

Lemma forallb_equiv {A} (f g : A -> bool) l l' :
  (forall x, In x l <-> In x l') -> (forall x, f x = g x) ->
  forallb f l = forallb g l'.
Proof.
  intros Hin Hfg. apply eq_true_iff_eq. rewrite !forallb_forall. split.
  - intros H x Hx. rewrite <- Hfg. apply H, Hin, Hx.
  - intros H x Hx. rewrite Hfg. apply H, Hin, Hx.
Qed.

Lemma set_mem_equiv x s s' :
  (forall y, In y s <-> In y s') -> set_mem x s = set_mem x s'.
Proof.
  intros H. apply eq_true_iff_eq. rewrite !set_mem_In. apply H.
Qed.

(** [unlock_count] as the size of a filtered list of dependents. *)
Lemma unlock_count_filter m X :
  well_formed m ->
  unlock_count m X =
  Z.of_nat (List.length
    (filter (fun v => forallb (fun p => set_mem p (passed m))
                        (set_diff (prereqs_of m v) [X]))
       (succs (edge_list m) X))).
Proof.
  intros Hwf. pose proof (build_graph_spec m Hwf) as Hg.
  unfold unlock_count. destruct (build_graph m) as [adj ind]. simpl in Hg.
  rewrite (gs_adj _ _ _ _ Hg), fold_count. reflexivity.
Qed.

(** Two models with the same prerequisite relation and the same completed
    courses: the same unlock counts. *)
Lemma unlock_count_equiv m m' X :
  well_formed m -> well_formed m' ->
  (forall p c, is_prereq m p c <-> is_prereq m' p c) ->
  (forall x, In x (passed m) <-> In x (passed m')) ->
  unlock_count m X = unlock_count m' X.
Proof.
  intros Hwf Hwf' Hp Hd.
  rewrite (unlock_count_filter m X Hwf), (unlock_count_filter m' X Hwf').
  f_equal.
  rewrite (filter_length_perm _ (succs (edge_list m) X) (succs (edge_list m') X)).
  - f_equal. apply filter_ext. intros v. apply forallb_equiv.
    + intros p. rewrite !In_set_diff. unfold is_prereq in Hp. rewrite (Hp p v). tauto.
    + intros p. now apply set_mem_equiv.
  - apply NoDup_Permutation.
    + apply NoDup_succs, NoDup_edge_list, Hwf.
    + apply NoDup_succs, NoDup_edge_list, Hwf'.
    + intros v. rewrite !In_succs, !In_edge_list by assumption. apply Hp.
Qed.

Lemma candidates_equiv m m' :
  well_formed m -> prereqs_closed m -> well_formed m' -> prereqs_closed m' ->
  courses m = courses m' ->
  (forall p c, is_prereq m p c <-> is_prereq m' p c) ->
  (forall x, In x (passed m) <-> In x (passed m')) ->
  candidates m = candidates m'.
Proof.
  intros Hwf Hcl Hwf' Hcl' Hc Hp Hd.
  destruct (candidates_char m Hwf Hcl) as (l & El & Hl).
  destruct (candidates_char m' Hwf' Hcl') as (l' & El' & Hl').
  rewrite El, El'. f_equal. apply sorted_unique.
  - exact (candidates_sorted m l El).
  - exact (candidates_sorted m' l' El').
  - exact (candidates_NoDup m l Hwf Hcl El).
  - exact (candidates_NoDup m' l' Hwf' Hcl' El').
  - intros x. rewrite Hl, Hl'. unfold catalog. rewrite Hc, Hd.
    split; intros (A & B & C); repeat split; auto; intros p Hpx.
    + apply Hd, C, Hp, Hpx.
    + apply Hd, C, Hp, Hpx.
Qed.

Lemma keyed_ext {A K} (key key' : A -> result K) l :
  (forall x, key x = key' x) -> keyed key l = keyed key' l.
Proof.
  intros H. induction l as [|a l IH]; simpl; [reflexivity|]. now rewrite H, IH.
Qed.

Lemma greedy_equiv m m' cap :
  courses m = courses m' ->
  (forall c, unlock_count m c = unlock_count m' c) ->
  forall l acc, greedy m cap l acc = greedy m' cap l acc.
Proof.
  intros Hc Hu. induction l as [|c l IH]; intros [[chosen total] reasons]; simpl;
    [reflexivity|].
  rewrite Hc. destruct (dict_item c (courses m')) as [crs|]; simpl; [|reflexivity].
  unfold reason. rewrite Hu, !IH. reflexivity.
Qed.

(** The suggestion only depends on the catalogue, the prerequisite
    relation and the completed courses, not on how they are stored. *)
Lemma suggest_equiv m m' cap criterion :
  well_formed m -> prereqs_closed m -> well_formed m' -> prereqs_closed m' ->
  courses m = courses m' ->
  (forall p c, is_prereq m p c <-> is_prereq m' p c) ->
  (forall x, In x (passed m) <-> In x (passed m')) ->
  suggest_next_semester m cap criterion = suggest_next_semester m' cap criterion.
Proof.
  intros Hwf Hcl Hwf' Hcl' Hc Hp Hd.
  assert (Hu : forall c, unlock_count m c = unlock_count m' c).
  { intros c. now apply unlock_count_equiv. }
  unfold suggest_next_semester.
  rewrite (candidates_equiv m m') by assumption.
  destruct (candidates m') as [cand|]; cbn [bind]; [|reflexivity].
  assert (Hk : forall c, priority_key m criterion c = priority_key m' criterion c).
  { intros c. unfold priority_key. now rewrite Hc, Hu. }
  unfold sorted_key. rewrite (keyed_ext _ _ cand Hk).
  destruct (keyed _ cand) as [kl|]; cbn [bind]; [|reflexivity].
  apply greedy_equiv; assumption.
Qed.

(** X23. The first term of the plan is the suggestion for the model itself, and
    the plan is empty when nothing is suggested. *)
Theorem plan_full_first_term (m : PMaPModel) (credit_cap : Z) (criterion : string)
  (n : nat) :
  reachable m ->
  exists sel,
    suggest_next_semester m credit_cap criterion = Ok sel /\
    (fst (fst sel) = [] -> plan_full m credit_cap criterion (S n) = Ok []) /\
    (fst (fst sel) <> [] ->
     forall terms, plan_full m credit_cap criterion (S n) = Ok terms ->
       exists rest, terms = sel :: rest).
Proof.
  intros Hr. pose proof (reachable_ok m Hr) as Hok.
  assert (Hr0 : reachable (from_dict (to_dict m))) by constructor.
  apply reachable_ok in Hr0. destruct Hr0 as [Hwf0 Hcl0 _ _].
  destruct Hok as [Hwf Hcl Hk Hcan].
  pose proof (mkOk m Hwf Hcl Hk Hcan) as Hok.
  destruct (suggest_total m credit_cap criterion Hwf Hcl) as (sel & E).
  assert (E0 : suggest_next_semester (from_dict (to_dict m)) credit_cap criterion = Ok sel).
  { rewrite <- E. apply suggest_equiv; auto.
    - apply roundtrip_courses, Hok.
    - intros p c. apply roundtrip_prereqs, Hok.
    - intros x. apply roundtrip_passed, Hok. }
  exists sel. split; [exact E|].
  unfold plan_full. cbn [plan_loop]. rewrite E0. cbn [bind].
  destruct sel as [[chosen total] reasons]. cbn [fst].
  destruct chosen as [|c0 chosen0].
  - split; [reflexivity|]. intros H. now contradiction H.
  - split; [discriminate|]. intros _ terms H.
    destruct (mark_all (c0 :: chosen0) (from_dict (to_dict m))) as [[u|e] temp'];
      [|discriminate].
    apply plan_loop_bounds in H. destruct H as (new & -> & _). now exists new.
Qed.

Lemma plan_full_first_term_witness :
  exists sel,
    suggest_next_semester test_model 2 "desbloqueo" = Ok sel /\
    (fst (fst sel) = [] -> plan_full test_model 2 "desbloqueo" 3 = Ok []) /\
    (fst (fst sel) <> [] ->
     forall terms, plan_full test_model 2 "desbloqueo" 3 = Ok terms ->
       exists rest, terms = sel :: rest).
Proof.
  apply (plan_full_first_term test_model 2 "desbloqueo" 2). apply reach_from_dict.
Defined.

(** ** Codes the planner cannot mark *)

(** Marking stops with [KeyError] at the first code whose normal form is
    not a catalogue code. *)
Lemma mark_all_raises : forall chosen temp,
  (exists c, In c chosen /\ ~ In (Str.upper (Str.strip c)) (catalog temp)) ->
  exists k temp',
    mark_all chosen temp = (Raise (KeyError k), temp') /\ ~ In k (catalog temp).
Proof.
  induction chosen as [|a chosen IH]; intros temp (c & Hin & Hc); [contradiction|].
  destruct (mark_passed_spec a temp) as [Hout Hok]. cbv zeta in Hout, Hok.
  simpl.
  destruct (in_dec string_dec (Str.upper (Str.strip a)) (catalog temp)) as [Ha|Ha].
  - rewrite (Hok Ha).
    destruct Hin as [->|Hin]; [contradiction|].
    destruct (IH (set_passed temp (set_add (Str.upper (Str.strip a)) (passed temp))))
      as (k & temp' & E & Hk).
    { exists c. split; [exact Hin|exact Hc]. }
    exists k, temp'. split; [exact E|exact Hk].
  - rewrite (Hout Ha). exists (Str.upper (Str.strip a)), temp. auto.
Qed.

(** X24. [plan_full] marks the chosen courses through [mark_passed], which
    strips the code again.  When the suggestion for the model contains a
    code whose stripped, upper-cased form is not a catalogue code (a code
    loaded with surrounding blanks), the plan is not returned: [plan_full]
    raises [KeyError]. *)
Theorem plan_full_key_error (m : PMaPModel) (credit_cap : Z) (criterion : string)
  (n : nat) (chosen : list string) (total : Z) (reasons : list string) :
  reachable m ->
  suggest_next_semester m credit_cap criterion = Ok (chosen, total, reasons) ->
  (exists c, In c chosen /\ ~ In (Str.upper (Str.strip c)) (catalog m)) ->
  exists k,
    plan_full m credit_cap criterion (S n) = Raise (KeyError k) /\
    ~ In k (catalog m).
Proof.
  intros Hr E Hbad. pose proof (reachable_ok m Hr) as Hok.
  assert (Hr0 : reachable (from_dict (to_dict m))) by constructor.
  apply reachable_ok in Hr0. destruct Hr0 as [Hwf0 Hcl0 _ _].
  pose proof (roundtrip_courses m Hok) as Hcs.
  assert (Hcat : catalog (from_dict (to_dict m)) = catalog m)
    by (unfold catalog; now rewrite Hcs).
  assert (E0 : suggest_next_semester (from_dict (to_dict m)) credit_cap criterion
               = Ok (chosen, total, reasons)).
  { rewrite <- E. apply suggest_equiv; auto; try apply Hok.
    - intros p c. apply roundtrip_prereqs, Hok.
    - intros x. apply roundtrip_passed, Hok. }
  destruct (mark_all_raises chosen (from_dict (to_dict m))) as (k & temp' & Em & Hk).
  { rewrite Hcat. exact Hbad. }
  exists k. rewrite Hcat in Hk. split; [|exact Hk].
  unfold plan_full. cbn [plan_loop]. rewrite E0. cbn [bind fst].
  destruct chosen as [|c0 chosen0].
  - destruct Hbad as (c & [] & _).
  - rewrite Em. reflexivity.
Qed.

Lemma plan_full_key_error_witness :
  exists k,
    plan_full (from_dict (mkData [mkEntry " A" "A" 1] [] [])) 1 "desbloqueo" 1
    = Raise (KeyError k) /\
    ~ In k (catalog (from_dict (mkData [mkEntry " A" "A" 1] [] []))).
Proof.
  apply (plan_full_key_error (from_dict (mkData [mkEntry " A" "A" 1] [] []))
           1 "desbloqueo" 0 [" A"] 1
           [reason (from_dict (mkData [mkEntry " A" "A" 1] [] [])) " A" 1]).
  - apply reach_from_dict.
  - reflexivity.
  - exists " A". split; [now left|]. cbv. intros [H|[]]. discriminate.
Defined.

(** ** Plans that finish the curriculum *)

Lemma filter_length_mono {A} (f g : A -> bool) l :
  (forall x, g x = true -> f x = true) ->
  (List.length (filter g l) <= List.length (filter f l))%nat.
Proof.
  intros H. induction l as [|a l IH]; simpl; [lia|].
  destruct (g a) eqn:Eg.
  - rewrite (H a Eg). simpl. lia.
  - destruct (f a); simpl; lia.
Qed.

Lemma filter_length_lt {A} (f g : A -> bool) l :
  (forall x, g x = true -> f x = true) ->
  (exists x, In x l /\ f x = true /\ g x = false) ->
  (List.length (filter g l) < List.length (filter f l))%nat.
Proof.
  intros H (x & Hin & Hf & Hg). induction l as [|a l IH]; [contradiction|].
  simpl. pose proof (filter_length_mono f g l H) as Hm.
  destruct Hin as [->|Hin].
  - rewrite Hf, Hg. simpl. lia.
  - specialize (IH Hin). destruct (g a) eqn:Eg.
    + rewrite (H a Eg). simpl. lia.
    + destruct (f a); simpl; lia.
Qed.

(** Without a cycle, as long as some catalogue course is not completed
    there is one whose prerequisites are all completed. *)
Lemma acyclic_no_candidates m :
  well_formed m -> prereqs_closed m -> acyclic m ->
  candidates m = Ok [] ->
  forall c, In c (catalog m) -> In c (passed m).
Proof.
  intros Hwf Hcl Hac Ec c Hc.
  destruct (candidates_char m Hwf Hcl) as (l & El & Hl).
  assert (l = []) by congruence. subst l.
  destruct (in_dec string_dec c (passed m)) as [Hp|Hp]; [exact Hp|]. exfalso.
  destruct (descent_cycle (is_prereq m)
              (fun v => In v (catalog m) /\ ~ In v (passed m)) (catalog m)) with (v := c)
    as (x & Hx).
  - intros v [Hv _]. exact Hv.
  - intros v [Hv Hnp].
    destruct (missing_prereqs m v) as [|p r] eqn:Em.
    + exfalso. apply (proj2 (Hl v)). split; [exact Hv|]. split; [exact Hnp|].
      intros p Hpv. destruct (in_dec string_dec p (passed m)) as [H|H]; [exact H|].
      exfalso. assert (Hin : In p (missing_prereqs m v))
        by (apply missing_prereqs_In; auto).
      rewrite Em in Hin. contradiction.
    + assert (Hin : In p (missing_prereqs m v)) by (rewrite Em; now left).
      apply missing_prereqs_In in Hin. destruct Hin as [Hpv Hnpp].
      exists p. split; [|exact Hpv]. split; [|exact Hnpp].
      now destruct (prereqs_of_closed _ _ _ Hcl Hpv).
  - split; assumption.
  - exact (Hac x Hx).
Qed.

(** With credits between 0 and the cap, an empty suggestion means that
    there is no candidate. *)
Lemma suggest_empty_no_candidates m cap criterion total reasons :
  well_formed m -> prereqs_closed m ->
  (forall c, In c (catalog m) -> (0 <= credits_of m c <= cap)%Z) ->
  suggest_next_semester m cap criterion = Ok ([], total, reasons) ->
  candidates m = Ok [].
Proof.
  intros Hwf Hcl Hcr E.
  destruct (suggest_stages _ _ _ _ E) as (cand & cs & Ec & Es & Eg).
  pose proof (sorted_key_perm _ _ _ _ Es) as Hperm.
  destruct (candidates_char m Hwf Hcl) as (cand' & Ec' & Hcand).
  assert (cand' = cand) by congruence. subst cand'.
  assert (Hnn : forall c, (0 <= credits_of m c)%Z).
  { intros c. unfold credits_of. destruct (dict_get c (courses m)) eqn:Eg'; [|lia].
    assert (Hin : In c (catalog m)).
    { apply dict_get_In in Eg'. unfold catalog, dict_keys.
      change c with (fst (c, c0)). now apply in_map. }
    specialize (Hcr c Hin). unfold credits_of in Hcr. rewrite Eg' in Hcr. lia. }
  destruct (greedy_maximal m cap Hnn _ _ _ _ _ _ _ Eg) as [_ Hall].
  pose proof (greedy_subseq _ _ _ _ _ _ _ _ _ Eg) as (sub & Hch & _ & _ & Ht).
  simpl in Hch. subst sub. unfold credit_sum in Ht. simpl in Ht. subst total.
  destruct cand as [|c cand]; [exact Ec|]. exfalso.
  assert (Hc : In c cs) by (eapply Permutation_in; [symmetry; exact Hperm|now left]).
  destruct (Hall c Hc) as [[]|Hlt].
  assert (Hcat : In c (catalog m)) by (apply Hcand; now left).
  specialize (Hcr c Hcat). lia.
Qed.

(** The loop on a working copy without cycles, with credits between 0 and
    the cap and as many rounds as there are courses left: every catalogue
    course ends up completed or scheduled. *)
Lemma plan_loop_complete cap criterion : forall n temp sems,
  well_formed temp -> prereqs_closed temp ->
  (forall k, In k (catalog temp) -> Str.upper (Str.strip k) = k) ->
  acyclic temp ->
  (forall c, In c (catalog temp) -> (0 <= credits_of temp c <= cap)%Z) ->
  (List.length (filter (fun c => negb (set_mem c (passed temp))) (catalog temp)) <= n)%nat ->
  exists new,
    plan_loop n temp cap criterion sems = Ok (sems ++ new) /\
    forall c, In c (catalog temp) -> In c (passed temp) \/ In c (plan_codes new).
Proof.
  induction n as [|n IH]; intros temp sems Hwf Hcl Hnorm Hac Hcr Hlen.
  - exists []. simpl. rewrite app_nil_r. split; [reflexivity|].
    intros c Hc. left.
    destruct (set_mem c (passed temp)) eqn:Em; [now apply set_mem_In|]. exfalso.
    assert (Hin : In c (filter (fun c => negb (set_mem c (passed temp))) (catalog temp))).
    { apply filter_In. split; [exact Hc|]. now rewrite Em. }
    destruct (filter _ (catalog temp)); [contradiction|simpl in Hlen; lia].
  - destruct (suggest_chosen temp cap criterion Hwf Hcl)
      as (chosen & total & reasons & E & Hnd & Hc & Hre & Ht).
    cbn [plan_loop]. rewrite E. cbn [bind fst].
    destruct (mark_all_ok chosen temp) as (s & Em & Hs1 & Hs2).
    { intros c Hin. destruct (Hc c Hin) as (A & _). split; [exact A|now apply Hnorm]. }
    destruct chosen as [|c0 chosen0].
    { exists []. rewrite app_nil_r. split; [reflexivity|].
      intros c Hin. left.
      apply (acyclic_no_candidates temp Hwf Hcl Hac); [|exact Hin].
      eapply suggest_empty_no_candidates; eauto. }
    rewrite Em.
    destruct (IH (set_passed temp s) (sems ++ [(c0 :: chosen0, total, reasons)]))
      as (new & En & Hcov).
    { destruct Hwf. constructor; auto. }
    { exact Hcl. }
    { exact Hnorm. }
    { exact Hac. }
    { exact Hcr. }
    { cbn [passed set_passed].
      change (catalog (set_passed temp s)) with (catalog temp).
      assert (Hlt : (List.length (filter (fun c => negb (set_mem c s)) (catalog temp))
                     < List.length (filter (fun c => negb (set_mem c (passed temp)))
                                      (catalog temp)))%nat).
      { apply filter_length_lt.
        - intros x Hx. apply negb_true_iff, set_mem_false in Hx.
          apply negb_true_iff, set_mem_false. intros H. apply Hx, Hs2. now left.
        - exists c0. destruct (Hc c0 (or_introl eq_refl)) as (A & B & _).
          split; [exact A|]. split.
          + now apply negb_true_iff, set_mem_false.
          + apply negb_false_iff, set_mem_In, Hs2. right. now left. }
      lia. }
    exists ((c0 :: chosen0, total, reasons) :: new).
    rewrite En, <- app_assoc. split; [reflexivity|].
    intros c Hin. destruct (Hcov c Hin) as [H|H].
    + cbn [passed set_passed] in H. apply Hs2 in H. destruct H as [H|H]; [now left|].
      right. unfold plan_codes. cbn [flat_map fst]. apply in_or_app. now left.
    + right. unfold plan_codes. cbn [flat_map fst]. apply in_or_app. now right.
Qed.

(** The courses of a valid schedule are scheduled once, and none of them
    was done before. *)
Lemma plan_ok_codes : forall terms m done,
  plan_ok m done terms ->
  NoDup (plan_codes terms) /\
  forall c, In c (plan_codes terms) -> In c (catalog m) /\ ~ In c done.
Proof.
  induction terms as [|sel rest IH]; intros m done H.
  - split; [constructor|]. intros c [].
  - simpl in H. destruct H as (_ & Hnd & Hch & _ & Hrest).
    destruct (IH m _ Hrest) as [Hnd' Hin'].
    unfold plan_codes in *. cbn [flat_map]. split.
    + apply NoDup_app; auto.
      intros c Hc Hc'. destruct (Hin' c Hc') as [_ Hn]. apply Hn, in_or_app. now right.
    + intros c Hc. apply in_app_or in Hc. destruct Hc as [Hc|Hc].
      * destruct (Hch c Hc) as (A & B & _). auto.
      * destruct (Hin' c Hc) as [A B]. split; [exact A|].
        intros Hd. apply B, in_or_app. now left.
Qed.

(** X25. When the prerequisites have no cycle, every course has between 0 and
    [credit_cap] credits, codes carry no surrounding blanks and
    [max_semesters] is at least the number of courses, the plan finishes
    the curriculum: every catalogue course that is not completed is
    scheduled, exactly once, and nothing else is. *)
Theorem plan_full_complete (m : PMaPModel) (credit_cap : Z) (criterion : string)
  (max_semesters : nat) :
  reachable m ->
  (forall k, In k (catalog m) -> Str.strip k = k) ->
  acyclic m ->
  (forall k c, In (k, c) (courses m) -> (0 <= credits c <= credit_cap)%Z) ->
  (List.length (catalog m) <= max_semesters)%nat ->
  exists terms,
    plan_full m credit_cap criterion max_semesters = Ok terms /\
    NoDup (plan_codes terms) /\
    forall c, In c (plan_codes terms) <-> In c (catalog m) /\ ~ In c (passed m).
Proof.
  intros Hr Htrim Hac Hcr Hn. pose proof (reachable_ok m Hr) as Hok.
  assert (Hr0 : reachable (from_dict (to_dict m))) by constructor.
  apply reachable_ok in Hr0. destruct Hr0 as [Hwf0 Hcl0 _ _].
  pose proof (roundtrip_courses m Hok) as Hcs.
  assert (Hcat : catalog (from_dict (to_dict m)) = catalog m)
    by (unfold catalog; now rewrite Hcs).
  assert (Hnorm : forall k, In k (catalog (from_dict (to_dict m))) ->
                            Str.upper (Str.strip k) = k).
  { intros k Hk. rewrite Hcat in Hk.
    rewrite (Htrim k Hk). apply (proj1 (ok_canon m Hok)). exact Hk. }
  destruct (plan_loop_valid credit_cap criterion max_semesters
              (from_dict (to_dict m)) [] Hwf0 Hcl0 Hnorm) as (terms & E & _ & Hp).
  destruct (plan_loop_complete credit_cap criterion max_semesters
              (from_dict (to_dict m)) [] Hwf0 Hcl0 Hnorm) as (terms' & E' & Hcov).
  { intros c Hc. apply (Hac c). revert Hc. apply path_impl.
    intros u v. apply roundtrip_prereqs, Hok. }
  { intros c Hc. unfold credits_of. rewrite Hcs.
    destruct (dict_get c (courses m)) as [crs|] eqn:Eg.
    - apply dict_get_In in Eg. eauto.
    - rewrite Hcat in Hc. apply dict_get_None in Eg. contradiction. }
  { rewrite Hcat. etransitivity; [apply filter_length_le|exact Hn]. }
  assert (terms' = terms) by (rewrite E in E'; simpl in E'; congruence).
  subst terms'.
  assert (Hp' : plan_ok m (passed m) terms).
  { apply (plan_ok_ext terms (from_dict (to_dict m)) m
             (passed (from_dict (to_dict m))) (passed m)); auto.
    - intros p c. apply roundtrip_prereqs, Hok.
    - intros x. apply roundtrip_passed, Hok. }
  destruct (plan_ok_codes terms m (passed m) Hp') as [Hnd Hin].
  exists terms. split; [exact E|]. split; [exact Hnd|].
  intros c. split; [apply Hin|].
  intros [Hc Hnp]. rewrite <- Hcat in Hc. destruct (Hcov c Hc) as [H|H]; [|exact H].
  exfalso. apply Hnp. apply (roundtrip_passed m Hok). exact H.
Qed.

Lemma plan_full_complete_witness :
  exists terms,
    plan_full test_model 1 "desbloqueo" 4 = Ok terms /\
    NoDup (plan_codes terms) /\
    forall c, In c (plan_codes terms) <->
      In c (catalog test_model) /\ ~ In c (passed test_model).
Proof.
  apply (plan_full_complete test_model 1 "desbloqueo" 4).
  - apply reach_from_dict.
  - intros k H. cbv in H.
    repeat (destruct H as [H|H]; [subst k; reflexivity|]). contradiction.
  - apply test_model_acyclic.
  - intros k c H. cbv in H.
    repeat (destruct H as [H|H]; [inversion H; cbv; split; discriminate|]).
    contradiction.
  - cbv. lia.
Defined.

(** * More on [add_prereq] and [unlock_count] *)

Lemma prereqs_add_idem c p d :
  prereqs_add c p (prereqs_add c p d) = prereqs_add c p d.
Proof.
  pose proof (prereqs_add_get c p d) as Hg.
  rewrite (prereqs_add_known c p (prereqs_add c p d) _ Hg).
  rewrite set_add_idem. unfold prereqs_add. cbv zeta.
  rewrite dict_set_set, dict_get_default_setdefault. reflexivity.
Qed.

(** The edges after a successful [add_prereq]. *)
Lemma add_prereq_edges prereq course m a b :
  Str.upper (Str.strip course) <> Str.upper (Str.strip prereq) ->
  is_prereq (snd (add_prereq prereq course m)) a b <->
  is_prereq m a b \/
  (a = Str.upper (Str.strip prereq) /\ b = Str.upper (Str.strip course)).
Proof.
  intros Hne. rewrite (add_prereq_eq prereq course m Hne). cbn [snd].
  unfold is_prereq.
  match goal with |- context [prereqs_of ?m' b] =>
    rewrite (prereqs_of_add m m' (Str.upper (Str.strip course))
               (Str.upper (Str.strip prereq)) b)
  end.
  - destruct (String.eqb_spec b (Str.upper (Str.strip course))) as [->|Hb].
    + rewrite In_set_add. intuition.
    + intuition congruence.
  - reflexivity.
Qed.

(** X26. Declaring the same prerequisite a second time changes nothing: same
    outcome, same model. *)
Theorem add_prereq_idempotent (prereq course : string) (m : PMaPModel) :
  add_prereq prereq course (snd (add_prereq prereq course m))
  = add_prereq prereq course m.
Proof.
  destruct (string_dec (Str.upper (Str.strip course)) (Str.upper (Str.strip prereq)))
    as [E|Hne].
  - unfold add_prereq. cbv zeta. rewrite E, String.eqb_refl. reflexivity.
  - rewrite (add_prereq_eq prereq course m Hne). cbn [snd].
    rewrite add_prereq_eq by exact Hne. cbv zeta. f_equal.
    set (p := Str.upper (Str.strip prereq)). set (c := Str.upper (Str.strip course)).
    set (m1 := ensure_course c (ensure_course p m)).
    assert (Hp : In p (catalog (set_prereqs m1 (prereqs_add c p (prereqs m))))).
    { change (In p (catalog m1)). apply ensure_course_mono, ensure_course_in. }
    rewrite (ensure_course_known p _ Hp).
    assert (Hc : In c (catalog (set_prereqs m1 (prereqs_add c p (prereqs m))))).
    { change (In c (catalog m1)). apply ensure_course_in. }
    rewrite (ensure_course_known c _ Hc).
    cbn [prereqs set_prereqs]. rewrite prereqs_add_idem. reflexivity.
Qed.

Lemma path_ends m x y :
  prereqs_closed m -> path (is_prereq m) x y -> In x (catalog m) /\ In y (catalog m).
Proof.
  intros Hcl. induction 1 as [u v Huv|u w v Huw _ [_ IH]].
  - destruct (prereqs_of_closed _ _ _ Hcl Huv). auto.
  - destruct (prereqs_of_closed _ _ _ Hcl Huw). auto.
Qed.

(** X27. [add_prereq] only refuses a course as its own prerequisite: it accepts
    an edge that closes a cycle.  When the course already leads to the
    prerequisite, the call succeeds, the catalogue stays as it was and the
    new model has a cycle through the prerequisite; [topo_sort] reports it
    with a closed walk when the interpreter allows more nested calls than
    the catalogue has codes. *)
Theorem add_prereq_closes_cycle (depth : nat) (prereq course : string) (m : PMaPModel) :
  reachable m ->
  Str.upper (Str.strip course) <> Str.upper (Str.strip prereq) ->
  path (is_prereq m) (Str.upper (Str.strip course)) (Str.upper (Str.strip prereq)) ->
  (List.length (catalog m) < depth)%nat ->
  exists m' order cyc,
    add_prereq prereq course m = (Ok tt, m') /\
    catalog m' = catalog m /\
    path (is_prereq m') (Str.upper (Str.strip prereq)) (Str.upper (Str.strip prereq)) /\
    topo_sort depth m' = Ok (order, true, Some cyc) /\
    closed_walk m' cyc.
Proof.
  intros Hr Hne Hpath Hd.
  assert (Hr' : reachable (snd (add_prereq prereq course m))) by now constructor.
  apply reachable_ok in Hr'. destruct Hr' as [Hwf' Hcl' _ _].
  destruct (reachable_ok m Hr) as [_ Hcl _ _].
  pose proof (add_prereq_eq prereq course m Hne) as E. cbv zeta in E.
  assert (Hcat : catalog (snd (add_prereq prereq course m)) = catalog m).
  { destruct (path_ends m _ _ Hcl Hpath) as [Hc Hp].
    rewrite E. cbn [snd].
    change (catalog (set_prereqs ?x ?d)) with (catalog x).
    rewrite (ensure_course_known _ m Hp). now rewrite (ensure_course_known _ m Hc). }
  assert (Hcyc : path (is_prereq (snd (add_prereq prereq course m)))
                   (Str.upper (Str.strip prereq)) (Str.upper (Str.strip prereq))).
  { eapply path_step.
    - apply add_prereq_edges; [exact Hne|]. right. split; reflexivity.
    - revert Hpath. apply path_impl. intros u v Huv.
      apply add_prereq_edges; [exact Hne|]. now left. }
  rewrite <- Hcat, <- (build_graph_size _ Hwf' Hcl') in Hd.
  destruct (topo_sort_spec depth _ Hwf' Hd)
    as (order & flag & cyc & Et & _ & _ & _ & _ & Hflag & Hwalk & _).
  assert (flag = true) by (apply Hflag; eexists; exact Hcyc). subst flag.
  destruct (Hwalk eq_refl) as (c & -> & Hc).
  exists (snd (add_prereq prereq course m)), order, c.
  split; [rewrite E; reflexivity|]. split; [exact Hcat|].
  split; [exact Hcyc|]. split; [exact Et|exact Hc].
Qed.

Lemma add_prereq_closes_cycle_witness :
  exists m' order cyc,
    add_prereq "c" "a" test_model = (Ok tt, m') /\
    catalog m' = catalog test_model /\
    path (is_prereq m') (Str.upper (Str.strip "c")) (Str.upper (Str.strip "c")) /\
    topo_sort 5 m' = Ok (order, true, Some cyc) /\
    closed_walk m' cyc.
Proof.
  apply (add_prereq_closes_cycle 5 "c" "a" test_model).
  - apply reach_from_dict.
  - discriminate.
  - apply path_step with (w := "B"); [cbv; auto|]. apply path_edge. cbv. auto.
  - vm_compute. lia.
Defined.

(** X28. [unlock_count] never fails: it lies between 0 and the number of
    direct dependents of the code, and is 0 for a code that is not in the
    catalogue of a model built by the public operations. *)
Theorem unlock_count_bounds (m : PMaPModel) (X : string) :
  reachable m ->
  (0 <= unlock_count m X <= Z.of_nat (List.length (succs (edge_list m) X)))%Z /\
  (forall Y, In Y (succs (edge_list m) X) <-> is_prereq m X Y) /\
  (~ In X (catalog m) -> unlock_count m X = 0%Z).
Proof.
  intros Hr. apply reachable_ok in Hr. destruct Hr as [Hwf Hcl _ _].
  rewrite (unlock_count_filter m X Hwf).
  split; [|split].
  - split; [lia|]. apply inj_le, filter_length_le.
  - intros Y. rewrite In_succs. now apply In_edge_list.
  - intros Hx.
    destruct (succs (edge_list m) X) as [|Y l] eqn:Es; [reflexivity|]. exfalso.
    assert (HY : In Y (succs (edge_list m) X)) by (rewrite Es; now left).
    apply In_succs, In_edge_list in HY; [|exact Hwf].
    apply Hx. now destruct (prereqs_of_closed _ _ _ Hcl HY).
Qed.

Lemma unlock_count_bounds_witness :
  (0 <= unlock_count test_model "A"
     <= Z.of_nat (List.length (succs (edge_list test_model) "A")))%Z /\
  (forall Y, In Y (succs (edge_list test_model) "A") <-> is_prereq test_model "A" Y) /\
  (~ In "A" (catalog test_model) -> unlock_count test_model "A" = 0%Z).
Proof.
  apply (unlock_count_bounds test_model "A"). apply reach_from_dict.
Defined.

(** * The listing of prerequisites *)

Lemma NoDup_flat_map_pairs (g : string -> list string) l :
  NoDup l -> (forall c, NoDup (g c)) ->
  NoDup (flat_map (fun c => map (fun p => (p, c)) (g c)) l).
Proof.
  intros Hl Hg. induction Hl as [|c l Hc Hl IH]; simpl; [constructor|].
  apply NoDup_app.
  - apply Finite.Injective_map_NoDup; [|apply Hg]. intros a b E. now inversion E.
  - exact IH.
  - intros [p c'] H1 H2. apply in_map_iff in H1. destruct H1 as (p' & E & _).
    inversion E. subst. apply in_flat_map in H2. destruct H2 as (c2 & Hc2 & H2).
    apply in_map_iff in H2. destruct H2 as (p2 & E2 & _). inversion E2. subst.
    contradiction.
Qed.

Lemma pair_leb_total x y : pair_leb x y = true \/ pair_leb y x = true.
Proof.
  unfold pair_leb. rewrite (String.compare_antisym (fst y) (fst x)).
  destruct (String.compare (fst x) (fst y)) eqn:E; simpl; auto.
  apply String.leb_total.
Qed.

Lemma string_compare_lt a b : String.compare a b = Lt <-> String_as_OT.lt a b.
Proof.
  split; intros H.
  - now apply String_as_OT.cmp_lt.
  - apply String_as_OT.cmp_lt in H. exact H.
Qed.

Lemma pair_leb_trans x y z :
  pair_leb x y = true -> pair_leb y z = true -> pair_leb x z = true.
Proof.
  unfold pair_leb.
  destruct (String.compare (fst x) (fst y)) eqn:Exy; try discriminate;
    destruct (String.compare (fst y) (fst z)) eqn:Eyz; try discriminate;
    intros Hxy Hyz.
  - apply String_as_OT.cmp_eq in Exy, Eyz.
    assert (Exz : String.compare (fst x) (fst z) = Eq)
      by (apply String_as_OT.cmp_eq; congruence).
    rewrite Exz. eapply string_leb_trans; eauto.
  - apply String_as_OT.cmp_eq in Exy. rewrite Exy, Eyz. reflexivity.
  - apply String_as_OT.cmp_eq in Eyz. rewrite <- Eyz, Exy. reflexivity.
  - apply string_compare_lt in Exy, Eyz.
    assert (Exz : String.compare (fst x) (fst z) = Lt).
    { apply string_compare_lt. eapply String_as_OT.lt_trans; eauto. }
    rewrite Exz. reflexivity.
Qed.

(** X29. What [print_prereqs] prints on a model built by the public
    operations.  The first line is the header.  Without prerequisites the
    only other line is "(ninguno)".  Otherwise there is one line
    [P  ->  C] for every prerequisite pair, each pair once and nothing
    else, in ascending order of the pairs. *)
Theorem print_prereqs_spec (m : PMaPModel) :
  reachable m ->
  exists pairs,
    NoDup pairs /\
    (forall p c, In (p, c) pairs <-> is_prereq m p c) /\
    StronglySorted (fun x y => pair_leb x y = true) pairs /\
    print_prereqs m
    = (newline ++ "Prerrequisitos (P -> C):")%string ::
      match pairs with
      | [] => [" (ninguno)"]
      | _ :: _ => map (fun pc => ("  " ++ fst pc ++ "  ->  " ++ snd pc)%string) pairs
      end.
Proof.
  intros Hr. apply reachable_ok in Hr. destruct Hr as [Hwf Hcl _ _].
  assert (Hnd : NoDup (prereq_lines m)).
  { unfold prereq_lines.
    apply (NoDup_flat_map_pairs (fun c => sorted (dict_get_default c [] (prereqs m)))).
    - eapply Permutation_NoDup; [symmetry; apply sorted_by_perm|]. apply Hwf.
    - intros c. eapply Permutation_NoDup; [symmetry; apply sorted_by_perm|].
      apply (prereqs_of_NoDup m c Hwf). }
  assert (Hin : forall p c, In (p, c) (prereq_lines m) <-> is_prereq m p c).
  { intros p c. unfold prereq_lines. rewrite in_flat_map. split.
    - intros (c' & Hc' & H). apply in_map_iff in H. destruct H as (p' & E & H).
      inversion E. subst. rewrite In_sorted in H. exact H.
    - intros H. exists c. split.
      + rewrite In_sorted. now destruct (prereqs_of_closed _ _ _ Hcl H).
      + apply in_map_iff. exists p. split; [reflexivity|]. rewrite In_sorted. exact H. }
  exists (sorted_by pair_leb (prereq_lines m)).
  split; [eapply Permutation_NoDup; [symmetry; apply sorted_by_perm|exact Hnd]|].
  split; [intros p c; rewrite In_sorted_by; apply Hin|].
  split.
  { apply Sorted_StronglySorted.
    - intros x y z. apply pair_leb_trans.
    - apply sorted_by_Sorted. apply pair_leb_total. }
  unfold print_prereqs. cbv zeta.
  destruct (prereq_lines m) as [|x l] eqn:E; [reflexivity|].
  destruct (sorted_by pair_leb (x :: l)) as [|y l'] eqn:Es; [|reflexivity].
  exfalso. assert (Hx : In x (sorted_by pair_leb (x :: l)))
    by (apply In_sorted_by; now left).
  rewrite Es in Hx. contradiction.
Qed.

Lemma print_prereqs_spec_witness :
  exists pairs,
    NoDup pairs /\
    (forall p c, In (p, c) pairs <-> is_prereq test_model p c) /\
    StronglySorted (fun x y => pair_leb x y = true) pairs /\
    print_prereqs test_model
    = (newline ++ "Prerrequisitos (P -> C):")%string ::
      match pairs with
      | [] => [" (ninguno)"]
      | _ :: _ => map (fun pc => ("  " ++ fst pc ++ "  ->  " ++ snd pc)%string) pairs
      end.
Proof.
  apply (print_prereqs_spec test_model). apply reach_from_dict.
Defined.

Example print_prereqs_example :
  print_prereqs test_model
  = [(newline ++ "Prerrequisitos (P -> C):")%string; "  A  ->  B"; "  B  ->  C"].
Proof. reflexivity. Qed.
